(** * scalc: a line-oriented floating-point calculator

    A shallow embedding of [scalc.cpp] (lexer, recursive-descent parser,
    AST evaluator, command tokenizer and the line driver [process]),
    followed by the properties proved about it.

    Conventions of the embedding.
    - [double] is Rocq's primitive binary64 [float]; [+ - * /] and unary
      minus are the IEEE operations of [PrimFloat].
    - [std::string] is [string], [char] is [ascii].
    - [std::unordered_map<std::string, double>] is [gmap string float].
    - A C++ exception is a value of [exception]; a computation that may
      throw returns a [result].  Code that mutates the variables before it
      throws returns the variables next to the result, so that the
      mutation survives the throw exactly as it does through the
      reference [umapsd &variables].
    - [std::stod] is library code: [stod] follows libstdc++ over glibc's
      [strtod], whose rounding and ERANGE reports are written out.
    - The recursive-descent parser is not structurally recursive, so the
      parsing functions take a [fuel] argument; [parse_fuel_enough] shows
      that the fuel [calculate] passes is never exhausted. *)

From Stdlib Require Import ZArith NArith Ascii String List Floats Lia.
From stdpp Require Import base tactics option list gmap strings.

Local Open Scope Z_scope.
Local Open Scope list_scope.

(** ** Exceptions and results *)

(** The exception classes that reach the driver; every one of them
    derives from [std::exception], and [what] is the text of
    [e.what()]. *)
Inductive exception : Type :=
  | runtime_error (what : string)
  | invalid_argument (what : string)
  | out_of_range (what : string).

Definition what (e : exception) : string :=
  match e with
  | runtime_error w | invalid_argument w | out_of_range w => w
  end.

(** [Ok a]: normal return; [Throw e]: an exception left the call;
    [OutOfFuel]: the model (never the program) ran out of fuel. *)
Inductive result (A : Type) : Type :=
  | Ok (a : A)
  | Throw (e : exception)
  | OutOfFuel.
Arguments Ok {A} a.
Arguments Throw {A} e.
Arguments OutOfFuel {A}.

#[global] Instance result_ret : MRet result := fun A a => Ok a.
#[global] Instance result_bind : MBind result := fun A B k m =>
  match m with
  | Ok a => k a
  | Throw e => Throw e
  | OutOfFuel => OutOfFuel
  end.

Definition is_Ok {A} (r : result A) : bool :=
  match r with Ok _ => true | _ => false end.

(** ** Characters (the "C" locale of <cctype>) *)

Definition char_code (c : ascii) : N := N_of_ascii c.

Definition isspace (c : ascii) : bool :=
  let n := char_code c in
  (((9 <=? n) && (n <=? 13)) || (n =? 32))%N.

Definition isdigit (c : ascii) : bool :=
  let n := char_code c in ((48 <=? n) && (n <=? 57))%N.

Definition isalpha (c : ascii) : bool :=
  let n := char_code c in
  (((65 <=? n) && (n <=? 90)) || ((97 <=? n) && (n <=? 122)))%N.

Definition isalnum (c : ascii) : bool := isalpha c || isdigit c.

(** ** Tokens *)

Inductive TokenType : Type :=
  | NUMBER | IDENTIFIER | PLUS | MINUS | MULTIPLY | DIVIDE | POW
  | LPAREN | RPAREN | EQUAL | COMMA | END.

#[global] Instance TokenType_eq_dec : EqDecision TokenType.
Proof. solve_decision. Defined.

Record Token : Type := mkToken { type : TokenType; value : string }.

(** [Token(TokenType t, std::string v = "")]. *)
Definition Token1 (t : TokenType) : Token := mkToken t "".

(** ** Lexer

    The lexer owns [input] and a cursor [pos] that only moves forward;
    its state is kept here as the unread suffix [input.substr(pos)]. *)

Fixpoint skip_spaces (input : string) : string :=
  match input with
  | String c rest => if isspace c then skip_spaces rest else input
  | EmptyString => input
  end.

(** [while(pos < input.size() && p(input[pos])) run += input[pos++];] *)
Fixpoint take_run (p : ascii -> bool) (input : string) : string * string :=
  match input with
  | String c rest =>
      if p c then let '(run, rest') := take_run p rest in (String c run, rest')
      else (EmptyString, input)
  | EmptyString => (EmptyString, EmptyString)
  end.

Definition is_num_char (c : ascii) : bool := isdigit c || (c =? ".")%char.
Definition is_ident_char (c : ascii) : bool := isalnum c || (c =? "_")%char.

Definition unexpected_character (ch : ascii) : exception :=
  runtime_error ("Unexpected character: " +:+ String ch EmptyString).

Definition getNextToken (input : string) : result (Token * string) :=
  match skip_spaces input with
  | EmptyString => Ok (Token1 END, EmptyString)
  | String ch rest as unread =>
      if is_num_char ch then
        let '(num, unread') := take_run is_num_char unread in
        Ok (mkToken NUMBER num, unread')
      else if isalpha ch then
        let '(ident, unread') := take_run is_ident_char unread in
        Ok (mkToken IDENTIFIER ident, unread')
      else if (ch =? "+")%char then Ok (Token1 PLUS, rest)
      else if (ch =? "-")%char then Ok (Token1 MINUS, rest)
      else if (ch =? "*")%char then Ok (Token1 MULTIPLY, rest)
      else if (ch =? "/")%char then Ok (Token1 DIVIDE, rest)
      else if (ch =? "(")%char then Ok (Token1 LPAREN, rest)
      else if (ch =? ")")%char then Ok (Token1 RPAREN, rest)
      else if (ch =? "=")%char then Ok (Token1 EQUAL, rest)
      else if (ch =? ",")%char then Ok (Token1 COMMA, rest)
      else Throw (unexpected_character ch)
  end.

(** ** [std::stod] on number tokens

    A NUMBER token holds digits and dots only, so of [std::stod]'s
    grammar (blanks, sign, hexadecimal, exponent, inf, nan) just the plain
    decimal form can occur: the longest prefix [digits [. digits]] with at
    least one digit is converted and the rest of the text is ignored.
    With no digit there is no conversion and [std::stod] throws
    [std::invalid_argument]; when [strtod] sets ERANGE it throws
    [std::out_of_range].  Both exceptions carry the text "stod". *)

Definition digit_value (c : ascii) : Z := Z.of_N (char_code c) - 48.

(** Value of a digit string read after the digits already in [acc]. *)
Fixpoint decimal_value (acc : Z) (digits : string) : Z :=
  match digits with
  | String c rest => decimal_value (10 * acc + digit_value c) rest
  | EmptyString => acc
  end.

(** The longest convertible prefix: integer digits and fraction digits. *)
Definition stod_prefix (text : string) : option (string * string) :=
  let '(int_part, rest) := take_run isdigit text in
  let frac_part :=
    match rest with
    | String "."%char rest' => fst (take_run isdigit rest')
    | _ => EmptyString
    end in
  if ((String.length int_part + String.length frac_part)%nat =? 0)%nat
  then None else Some (int_part, frac_part).

(** *** [strtod] on a decimal [m / 10^k], [m > 0]

    The conversion as glibc 2.36 does it for binary64 on x86-64, in the
    default rounding mode.  The decimal is cut exactly to its leading 53
    bits, one round bit and the fact whether anything nonzero is behind
    them.  In the normal range these round to nearest, ties to even, and
    a result of [2^1024] or more is an overflow.  Below [2^-1022] the 53
    bits are shifted down to the subnormal grid and rounded there, and
    the call underflows when the result is inexact and tiny; it is not
    tiny when the 53 bits with their round bit round up to [2^-1022].
    Where the shift is by one position, the rounding on the grid and its
    inexactness look at the bits behind the round bit of the 53-bit
    mantissa but not at that round bit itself.  Overflow and underflow
    set ERANGE ([None]). *)

(** Is [2^e <= m / 10^k]? *)
Definition at_least_pow2 (m : positive) (k e : Z) : bool :=
  (10 ^ k * 2 ^ Z.max 0 e <=? Zpos m * 2 ^ Z.max 0 (- e))%Z.

(** The [e] with [2^e <= m / 10^k < 2^(e + 1)]. *)
Definition binade (m : positive) (k : Z) : Z :=
  let e := (Z.log2 (Zpos m) - Z.log2 (10 ^ k))%Z in
  if at_least_pow2 m k e then e else (e - 1)%Z.

Record LeadingBits : Type := {
  mantissa : Z;          (* the 53 leading bits *)
  round_bit : bool;      (* the bit behind them *)
  more_bits : bool       (* is anything behind the round bit? *)
}.

Definition leading_bits (m : positive) (k e : Z) : LeadingBits :=
  let num := (Zpos m * 2 ^ Z.max 0 (53 - e))%Z in
  let den := (10 ^ k * 2 ^ Z.max 0 (e - 53))%Z in
  let q := (num / den)%Z in
  {| mantissa := (q / 2)%Z; round_bit := Z.odd q;
     more_bits := negb (num mod den =? 0)%Z |}.

(** To nearest, ties to even: does the mantissa go up? *)
Definition round_away (last_bit half_bit more : bool) : bool :=
  half_bit && (more || last_bit).

(** The result as a mantissa and an exponent, for [mant * 2^exponent];
    [None] for ERANGE. *)
Definition strtod_bits (m : positive) (k : Z) : option (Z * Z) :=
  let e := binade m k in
  let b := leading_bits m k e in
  let mant := mantissa b in
  let away := round_away (Z.odd mant) (round_bit b) (more_bits b) in
  if (-1022 <=? e)%Z then
    let rounded := if away then (mant + 1)%Z else mant in
    let '(rounded, e) :=
      if (rounded =? 2 ^ 53)%Z then (2 ^ 52, e + 1)%Z else (rounded, e) in
    if (1024 <=? e)%Z then None else Some (rounded, (e - 52)%Z)
  else
    let shift := (-1022 - e)%Z in
    if (53 <? shift)%Z then None
    else
      let is_tiny :=
        negb ((shift =? 1)%Z && away && (mant + 1 =? 2 ^ 53)%Z) in
      let half_bit := Z.testbit mant (shift - 1) in
      let more :=
        more_bits b || negb (mant mod 2 ^ (shift - 1) =? 0)%Z ||
        (round_bit b && (1 <? shift)%Z) in
      let shifted := (mant / 2 ^ shift)%Z in
      if is_tiny && (half_bit || more) then None
      else
        Some (if round_away (Z.odd shifted) half_bit more
              then shifted + 1 else shifted, -1074)%Z.

(** The double [mant * 2^exponent]. *)
Definition double (mant exponent : Z) : float :=
  SF2Prim (S754_finite false (Z.to_pos mant) exponent).

Definition strtod (m : positive) (k : Z) : option float :=
  match strtod_bits m k with
  | Some (mant, exponent) => Some (double mant exponent)
  | None => None
  end.

Definition stod (text : string) : result float :=
  match stod_prefix text with
  | None => Throw (invalid_argument "stod")
  | Some (int_part, frac_part) =>
      let k := Z.of_nat (String.length frac_part) in
      match decimal_value (decimal_value 0 int_part) frac_part with
      | Zpos m =>
          match strtod m k with
          | Some r => Ok r
          | None => Throw (out_of_range "stod")
          end
      | _ => Ok 0%float
      end
  end.

(** ** Variables and the AST *)

Abbreviation umapsd := (gmap string float).

(** A call that may assign to the variables and may throw: the variables
    as they are when the call is left, and how it was left. *)
Definition Eval (A : Type) : Type := umapsd -> umapsd * result A.

#[global] Instance Eval_ret : MRet Eval := fun A a variables =>
  (variables, Ok a).
#[global] Instance Eval_bind : MBind Eval := fun A B k m variables =>
  let '(variables', r) := m variables in
  match r with
  | Ok a => k a variables'
  | Throw e => (variables', Throw e)
  | OutOfFuel => (variables', OutOfFuel)
  end.

Definition throw {A} (e : exception) : Eval A := fun variables =>
  (variables, Throw e).

(** [variables.find(name)], then [variables[name]] when it is there. *)
Definition read_variable (name : string) : Eval float := fun variables =>
  match variables !! name with
  | None => (variables, Throw (runtime_error ("Undefined variable: " +:+ name)))
  | Some v => (variables, Ok v)
  end.

(** [variables[name] = val;] *)
Definition write_variable (name : string) (val : float) : Eval unit :=
  fun variables => (<[name := val]> variables, Ok tt).

#[warnings="-register-all"]
Inductive ASTNode : Type :=
  | NumberNode (value : float)
  | VariableNode (name : string)
  | AssignmentNode (name : string) (value : ASTNode)
  | FunctionCallNode (functionName : string) (arguments : list ASTNode)
  | UnaryOpNode (op : TokenType) (operand : ASTNode)
  | BinaryOpNode (op : TokenType) (left right : ASTNode).

(** The functions of <cmath> that [PrimFloat] does not provide. *)
Record Libm : Type := {
  std_sin : float -> float;  std_cos : float -> float;
  std_tan : float -> float;  std_asin : float -> float;
  std_acos : float -> float; std_atan : float -> float;
  std_sinh : float -> float; std_cosh : float -> float;
  std_tanh : float -> float; std_asinh : float -> float;
  std_acosh : float -> float; std_atanh : float -> float;
  std_cbrt : float -> float; std_exp : float -> float;
  std_log : float -> float;  std_log10 : float -> float;
  std_log2 : float -> float;
  std_pow : float -> float -> float;
  std_fmod : float -> float -> float
}.

(** C++ leaves open in which order the two operands of [/] and the two
    arguments of a call are evaluated; the compiler decides, for each of
    the three expressions of [FunctionCallNode::evaluate] that evaluate
    two arguments. *)
Inductive OperandOrder : Type := LeftOperandFirst | RightOperandFirst.

Record Sequencing : Type := {
  log_operands : OperandOrder;
  pow_arguments : OperandOrder;
  mod_arguments : OperandOrder
}.

(** Two ways a compiler may go: every pair from left to right; or the
    operands of [/] from left to right and the arguments of a call from
    right to left. *)
Definition left_to_right : Sequencing :=
  {| log_operands := LeftOperandFirst; pow_arguments := LeftOperandFirst;
     mod_arguments := LeftOperandFirst |}.
Definition right_to_left_calls : Sequencing :=
  {| log_operands := LeftOperandFirst; pow_arguments := RightOperandFirst;
     mod_arguments := RightOperandFirst |}.

Definition unknown_function (functionName : string) : exception :=
  runtime_error ("Unknown function: " +:+ functionName).

Section Evaluator.
Context (libm : Libm) (seq : Sequencing).

(** The chain of [if(functionName == ...)] of the one-argument branch,
    in the order of the source. *)
Definition unary_functions : list (string * (float -> float)) :=
  [ ("sin", std_sin libm); ("cos", std_cos libm); ("tan", std_tan libm);
    ("asin", std_asin libm); ("acos", std_acos libm);
    ("atan", std_atan libm);
    ("sinh", std_sinh libm); ("cosh", std_cosh libm);
    ("tanh", std_tanh libm); ("asinh", std_asinh libm);
    ("acosh", std_acosh libm); ("atanh", std_atanh libm);
    ("sqrt", PrimFloat.sqrt); ("cbrt", std_cbrt libm);
    ("exp", std_exp libm); ("ln", std_log libm);
    ("log10", std_log10 libm); ("log2", std_log2 libm);
    ("abs", PrimFloat.abs) ].

Fixpoint first_match {F : Type} (name : string) (table : list (string * F))
    : option F :=
  match table with
  | (n, f) :: table' =>
      if String.eqb name n then Some f else first_match name table'
  | [] => None
  end.

(** [f(l, r)] where [l] is written to the left of [r]. *)
Definition operands (order : OperandOrder) (l r : Eval float)
    (f : float -> float -> float) : Eval float :=
  match order with
  | LeftOperandFirst => lval ← l; rval ← r; mret (f lval rval)
  | RightOperandFirst => rval ← r; lval ← l; mret (f lval rval)
  end.

Fixpoint evaluate (node : ASTNode) : Eval float :=
  match node with
  | NumberNode value => mret value
  | VariableNode name => read_variable name
  | AssignmentNode name value =>
      val ← evaluate value;
      _ ← write_variable name val;
      mret val
  | FunctionCallNode functionName arguments =>
      match arguments with
      | [arg0] =>
          match first_match functionName unary_functions with
          | Some f => x ← evaluate arg0; mret (f x)
          | None => throw (unknown_function functionName)
          end
      | [arg0; arg1] =>
          if String.eqb functionName "log" then
            operands (log_operands seq) (evaluate arg1) (evaluate arg0)
              (fun x base => (std_log libm x / std_log libm base)%float)
          else if String.eqb functionName "pow" then
            operands (pow_arguments seq) (evaluate arg0) (evaluate arg1)
              (std_pow libm)
          else if String.eqb functionName "mod" then
            operands (mod_arguments seq) (evaluate arg0) (evaluate arg1)
              (std_fmod libm)
          else throw (unknown_function functionName)
      | _ => throw (unknown_function functionName)
      end
  | UnaryOpNode op operand =>
      val ← evaluate operand;
      match op with
      | MINUS => mret (- val)%float
      | _ => throw (runtime_error "Invalid unary operator")
      end
  | BinaryOpNode op l r =>
      lval ← evaluate l;
      rval ← evaluate r;
      match op with
      | PLUS => mret (lval + rval)%float
      | MINUS => mret (lval - rval)%float
      | MULTIPLY => mret (lval * rval)%float
      | DIVIDE => mret (lval / rval)%float
      | _ => throw (runtime_error "Invalid operator")
      end
  end.

End Evaluator.

Arguments first_match : simpl never.
Arguments unary_functions : simpl never.

(** ** Parser *)

(** The parser's members: its lexer (the unread input) and the token of
    lookahead. *)
Record Parser : Type := mkParser { lexer : string; curtToken : Token }.

Definition unexpected_token (t : Token) : exception :=
  runtime_error ("Unexpected token: " +:+ value t).

(** [curtToken = lexer.getNextToken()] *)
Definition advance (p : Parser) : result Parser :=
  '(tok, unread) ← getNextToken (lexer p);
  mret {| lexer := unread; curtToken := tok |}.

Definition consume (ty : TokenType) (p : Parser) : result Parser :=
  if decide (type (curtToken p) = ty) then advance p
  else Throw (unexpected_token (curtToken p)).

(** [Parser(expr) : lexer(expr), curtToken(lexer.getNextToken())] *)
Definition Parser_init (expr : string) : result Parser :=
  advance {| lexer := expr; curtToken := Token1 END |}.

Definition is_additive (ty : TokenType) : bool :=
  bool_decide (ty = PLUS) || bool_decide (ty = MINUS).
Definition is_multiplicative (ty : TokenType) : bool :=
  bool_decide (ty = MULTIPLY) || bool_decide (ty = DIVIDE).

(** Every call of a parsing function, and every turn of one of its loops,
    takes one unit of fuel.  The [while] loops of [parseExpression] and
    [parseTerm] and the [do] loop of [parseFunctionCall] are the
    functions [parseExpression_loop], [parseTerm_loop] and
    [parseArguments]; they are entered with the node (the arguments)
    built so far. *)
Fixpoint parseExpression (fuel : nat) (p : Parser)
    : result (ASTNode * Parser) :=
  match fuel with
  | O => OutOfFuel
  | S fuel =>
      '(node, p) ← parseTerm fuel p;
      parseExpression_loop fuel node p
  end
with parseExpression_loop (fuel : nat) (node : ASTNode) (p : Parser)
    : result (ASTNode * Parser) :=
  match fuel with
  | O => OutOfFuel
  | S fuel =>
      if is_additive (type (curtToken p)) then
        let op := type (curtToken p) in
        p ← consume op p;
        '(rhs, p) ← parseTerm fuel p;
        parseExpression_loop fuel (BinaryOpNode op node rhs) p
      else Ok (node, p)
  end
with parseTerm (fuel : nat) (p : Parser) : result (ASTNode * Parser) :=
  match fuel with
  | O => OutOfFuel
  | S fuel =>
      '(node, p) ← parseFactor fuel p;
      parseTerm_loop fuel node p
  end
with parseTerm_loop (fuel : nat) (node : ASTNode) (p : Parser)
    : result (ASTNode * Parser) :=
  match fuel with
  | O => OutOfFuel
  | S fuel =>
      if is_multiplicative (type (curtToken p)) then
        let op := type (curtToken p) in
        p ← consume op p;
        '(rhs, p) ← parseFactor fuel p;
        parseTerm_loop fuel (BinaryOpNode op node rhs) p
      else Ok (node, p)
  end
with parseFactor (fuel : nat) (p : Parser) : result (ASTNode * Parser) :=
  match fuel with
  | O => OutOfFuel
  | S fuel =>
      match type (curtToken p) with
      | MINUS =>
          p ← consume MINUS p;
          '(operand, p) ← parseFactor fuel p;
          Ok (UnaryOpNode MINUS operand, p)
      | NUMBER =>
          value ← stod (value (curtToken p));
          p ← consume NUMBER p;
          Ok (NumberNode value, p)
      | IDENTIFIER =>
          let name := value (curtToken p) in
          p ← consume IDENTIFIER p;
          match type (curtToken p) with
          | LPAREN => parseFunctionCall fuel name p
          | EQUAL =>
              p ← consume EQUAL p;
              '(rhs, p) ← parseExpression fuel p;
              Ok (AssignmentNode name rhs, p)
          | _ => Ok (VariableNode name, p)
          end
      | LPAREN =>
          p ← consume LPAREN p;
          '(node, p) ← parseExpression fuel p;
          p ← consume RPAREN p;
          Ok (node, p)
      | _ => Throw (unexpected_token (curtToken p))
      end
  end
with parseFunctionCall (fuel : nat) (funcName : string) (p : Parser)
    : result (ASTNode * Parser) :=
  match fuel with
  | O => OutOfFuel
  | S fuel =>
      p ← consume LPAREN p;
      '(args, p) ←
        (if decide (type (curtToken p) = RPAREN) then Ok ([], p)
         else parseArguments fuel [] p);
      p ← consume RPAREN p;
      Ok (FunctionCallNode funcName args, p)
  end
with parseArguments (fuel : nat) (args : list ASTNode) (p : Parser)
    : result (list ASTNode * Parser) :=
  match fuel with
  | O => OutOfFuel
  | S fuel =>
      '(arg, p) ← parseExpression fuel p;
      let args := args ++ [arg] in
      if decide (type (curtToken p) = COMMA) then
        p ← consume COMMA p;
        parseArguments fuel args p
      else Ok (args, p)
  end.

(** Fuel for a line: four units for each character and for the token of
    lookahead are enough ([parse_fuel_enough]). *)
Definition parse_fuel (line : string) : nat := 4 * String.length line + 7.

(** [Parser parser(line); ASTNode *expr = parser.parseExpression();] *)
Definition parse (line : string) : result ASTNode :=
  p ← Parser_init line;
  '(expr, _) ← parseExpression (parse_fuel line) p;
  mret expr.

Definition calculate (libm : Libm) (seq : Sequencing) (line : string)
    : Eval float := fun variables =>
  match parse line with
  | Ok expr => evaluate libm seq expr variables
  | Throw e => (variables, Throw e)
  | OutOfFuel => (variables, OutOfFuel)
  end.

(** ** Command tokenizer *)

(** The locals of [commandsDivide]. *)
Record Divider : Type := mkDivider {
  terms : list string;
  term : string;
  in_quotes : bool;
  quote_char : ascii;
  escape : bool
}.

Definition push_back (c : ascii) (s : string) : string :=
  s +:+ String c EmptyString.

Definition is_quote (c : ascii) : bool :=
  (c =? "034")%char || (c =? "'")%char.

(** One turn of the [for] loop over [remaining]. *)
Definition divide_char (d : Divider) (c : ascii) : Divider :=
  if escape d then
    {| terms := terms d; term := push_back c (term d);
       in_quotes := in_quotes d; quote_char := quote_char d;
       escape := false |}
  else if (c =? "\")%char then
    {| terms := terms d; term := term d;
       in_quotes := in_quotes d; quote_char := quote_char d;
       escape := true |}
  else if is_quote c && negb (escape d) then
    if in_quotes d then
      if (c =? quote_char d)%char then
        {| terms := terms d; term := term d;
           in_quotes := false; quote_char := "000"%char;
           escape := escape d |}
      else
        {| terms := terms d; term := push_back c (term d);
           in_quotes := in_quotes d; quote_char := quote_char d;
           escape := escape d |}
    else
      {| terms := terms d; term := term d;
         in_quotes := true; quote_char := c;
         escape := escape d |}
  else if (c =? " ")%char && negb (in_quotes d) then
    if negb (String.eqb (term d) EmptyString) then
      {| terms := terms d ++ [term d]; term := EmptyString;
         in_quotes := in_quotes d; quote_char := quote_char d;
         escape := escape d |}
    else d
  else
    {| terms := terms d; term := push_back c (term d);
       in_quotes := in_quotes d; quote_char := quote_char d;
       escape := escape d |}.

Fixpoint divide_loop (d : Divider) (remaining : string) : Divider :=
  match remaining with
  | String c rest => divide_loop (divide_char d c) rest
  | EmptyString => d
  end.

Definition divider_init : Divider :=
  {| terms := []; term := EmptyString; in_quotes := false;
     quote_char := "000"%char; escape := false |}.

Definition unclosed_quote : exception :=
  runtime_error "Unclosed quote in input string.".

Definition commandsDivide (input : string) : result (list string) :=
  match input with
  | String ":"%char remaining =>
      let d := divide_loop divider_init remaining in
      if in_quotes d then Throw unclosed_quote
      else if negb (String.eqb (term d) EmptyString)
      then Ok (terms d ++ [term d])
      else Ok (terms d)
  | _ => Ok []
  end.

(** ** The driver *)

Definition MAX_DEPTH : Z := 128.

(** The flags and the file list that [Options] collects from the command
    line. *)
Record Options : Type := {
  args : list string;
  help : bool; version : bool; once : bool; file : bool; exit : bool;
  files : list string
}.

(** What the driver writes, in order: the prompt, a result and the help
    text on [std::cout]; reports on [std::cerr]. *)
Inductive Output : Type :=
  | Prompt
  | Answer (result : float)
  | Help
  | Error (what : string)
  | CannotOpen (path : string).

(** The file system: the lines of a path that [std::ifstream] opens. *)
Definition Files : Type := string -> option (list string).

(** The state a driver call works on: the variables and what has been
    written so far. *)
Record Session : Type := mkSession {
  variables : umapsd;
  written : list Output
}.

Definition emit (o : Output) (s : Session) : Session :=
  {| variables := variables s; written := written s ++ [o] |}.
Definition emit_if (b : bool) (o : Output) (s : Session) : Session :=
  if b then emit o s else s.

(** How a driver call is left: [Ok tt] by returning, [Throw e] by an
    exception that nothing caught. *)
Definition Run : Type := Session -> Session * result unit.

Section Driver.
Context (libm : Libm) (seq : Sequencing) (fs : Files) (opts : Options).

(** The [for] loop over [terms[1..]] of the [file] command; [nested] is
    the recursive call [process(file, false, variables, opts, depth+1)]. *)
Fixpoint source_files (nested : list string -> Run) (paths : list string)
    : Run := fun s =>
  match paths with
  | [] => (s, Ok tt)
  | path :: paths =>
      match fs path with
      | Some lines =>
          let '(s, r) := nested lines s in
          match r with
          | Ok _ => source_files nested paths s
          | _ => (s, r)
          end
      | None => source_files nested paths (emit (CannotOpen path) s)
      end
  end.

(** The [try] block of a line that is not a command. *)
Definition evaluate_line (write : bool) (line : string)
    : Session -> Session * result unit := fun s =>
  let '(vars, r) := calculate libm seq ("Ans = " +:+ line) (variables s) in
  let s := {| variables := vars; written := written s |} in
  match r with
  | Ok result => (emit_if write (Answer result) s, Ok tt)
  | Throw e => (emit (Error (what e)) s, Ok tt)
  | OutOfFuel => (s, OutOfFuel)
  end.

(** The [do ... while(not opts.once || not write)] loop over the lines
    that [std::getline] delivers.  [continue] jumps to the loop
    condition. *)
Fixpoint process_lines (nested : list string -> Run) (write : bool)
    (stream : list string) : Run := fun s =>
  let s := emit_if write Prompt s in
  match stream with
  | [] => (s, Ok tt)
  | line :: stream =>
      let next : Run := fun s =>
        if negb (once opts) || negb write
        then process_lines nested write stream s else (s, Ok tt) in
      match line with
      | EmptyString => next s
      | String ":"%char _ =>
          match commandsDivide line with
          | Ok [] => next s
          | Ok (command :: paths) =>
              if String.eqb command "e" || String.eqb command "exit"
              then (s, Ok tt)
              else
                let s :=
                  if String.eqb command "h" || String.eqb command "help"
                  then emit_if write Help s else s in
                if String.eqb command "f" || String.eqb command "file"
                then
                  let '(s, r) := source_files nested paths s in
                  match r with
                  | Ok _ => next s
                  | _ => (s, r)
                  end
                else next s
          | Throw e => (s, Throw e)
          | OutOfFuel => (s, OutOfFuel)
          end
      | _ =>
          let '(s, r) := evaluate_line write line s in
          match r with
          | Ok _ => next s
          | _ => (s, r)
          end
      end
  end.

Fixpoint process (fuel : nat) (stream : list string) (write : bool)
    (depth : Z) : Run := fun s =>
  match fuel with
  | O => (s, OutOfFuel)
  | S fuel =>
      if (MAX_DEPTH <? depth)%Z then (s, Ok tt)
      else
        process_lines
          (fun lines => process fuel lines false (depth + 1))
          write stream s
  end.

(** Nesting stops below [MAX_DEPTH + 2] calls ([process_fuel_enough]). *)
Definition process_fuel : nat := Z.to_nat (MAX_DEPTH + 2).

(** The loop of [main] over [opts.files]: a file that does not open is
    skipped without a word. *)
Fixpoint startup_files (paths : list string) : Run := fun s =>
  match paths with
  | [] => (s, Ok tt)
  | path :: paths =>
      match fs path with
      | Some lines =>
          let '(s, r) := process process_fuel lines false 0 s in
          match r with
          | Ok _ => startup_files paths s
          | _ => (s, r)
          end
      | None => startup_files paths s
      end
  end.

(** [main] after the options are parsed; [stdin] are the lines of
    [std::cin]. *)
Definition main (stdin : list string) : Session * result unit :=
  if exit opts then ({| variables := ∅; written := [] |}, Ok tt)
  else
    let s := {| variables := <["Ans" := 0%float]> ∅; written := [] |} in
    let '(s, r) := startup_files (files opts) s in
    match r with
    | Ok _ => process process_fuel stdin true 0 s
    | _ => (s, r)
    end.

End Driver.

Arguments process : simpl never.

(** ** Auxiliary notions of the proofs *)

(** The parser's measure: the unread characters, and one for a token of
    lookahead that is not [END]. *)
Definition measure (p : Parser) : nat :=
  (String.length (lexer p) +
   if decide (type (curtToken p) = END) then 0 else 1)%nat.

(** [r'] is what [r] is, unless [r] ran out of fuel. *)
Definition refines {A} (r r' : result A) : Prop := r <> OutOfFuel -> r' = r.

(** A stand-in for <cmath>, to run examples: what [PrimFloat] lacks
    returns NaN.  No example below depends on these values. *)
Definition libm_stub : Libm :=
  let f1 := fun _ : float => PrimFloat.nan in
  let f2 := fun _ _ : float => PrimFloat.nan in
  {| std_sin := f1; std_cos := f1; std_tan := f1; std_asin := f1;
     std_acos := f1; std_atan := f1; std_sinh := f1; std_cosh := f1;
     std_tanh := f1; std_asinh := f1; std_acosh := f1; std_atanh := f1;
     std_cbrt := f1; std_exp := f1; std_log := f1; std_log10 := f1;
     std_log2 := f1; std_pow := f2; std_fmod := f2 |}.

(** No file opens. *)
Definition no_files : Files := fun _ => None.

(** The options of a plain interactive start. *)
Definition default_options : Options :=
  {| args := []; help := false; version := false; once := false;
     file := false; exit := false; files := ["init.scalc"] |}.

(** The variables as [main] sets them up. *)
Definition initial_variables : umapsd := <["Ans" := 0%float]> ∅.

(** ** Reference semantics of arithmetic expressions

    The tokens of a whole line, as the parser would pull them one by one
    (without the final [END]). *)
Fixpoint tokenize_upto (fuel : nat) (input : string) : result (list Token) :=
  match fuel with
  | O => OutOfFuel
  | S fuel =>
      '(tok, unread) ← getNextToken input;
      if decide (type tok = END) then Ok []
      else ts ← tokenize_upto fuel unread; Ok (tok :: ts)
  end.

Definition tokenize (input : string) : result (list Token) :=
  tokenize_upto (S (String.length input)) input.

(** The value of an arithmetic expression without variables, computed
    directly on its tokens by the textbook grammar

      expression ::= expression + term | expression - term | term
      term       ::= term * factor | term / factor | factor
      factor     ::= - factor | number | ( expression )

    whose left recursion makes [+ - * /] associate to the left and puts
    [* /] above [+ -] and unary minus above both. *)
Inductive expression_value : list Token -> float -> Prop :=
  | value_term ts v :
      term_value ts v -> expression_value ts v
  | value_plus ts1 ts2 v1 v2 :
      expression_value ts1 v1 -> term_value ts2 v2 ->
      expression_value (ts1 ++ Token1 PLUS :: ts2) (v1 + v2)%float
  | value_minus ts1 ts2 v1 v2 :
      expression_value ts1 v1 -> term_value ts2 v2 ->
      expression_value (ts1 ++ Token1 MINUS :: ts2) (v1 - v2)%float
with term_value : list Token -> float -> Prop :=
  | value_factor ts v :
      factor_value ts v -> term_value ts v
  | value_times ts1 ts2 v1 v2 :
      term_value ts1 v1 -> factor_value ts2 v2 ->
      term_value (ts1 ++ Token1 MULTIPLY :: ts2) (v1 * v2)%float
  | value_divide ts1 ts2 v1 v2 :
      term_value ts1 v1 -> factor_value ts2 v2 ->
      term_value (ts1 ++ Token1 DIVIDE :: ts2) (v1 / v2)%float
with factor_value : list Token -> float -> Prop :=
  | value_number text v :
      stod text = Ok v -> factor_value [mkToken NUMBER text] v
  | value_negate ts v :
      factor_value ts v -> factor_value (Token1 MINUS :: ts) (- v)%float
  | value_parens ts v :
      expression_value ts v ->
      factor_value (Token1 LPAREN :: ts ++ [Token1 RPAREN]) v.

Scheme expression_value_min := Minimality for expression_value Sort Prop
  with term_value_min := Minimality for term_value Sort Prop
  with factor_value_min := Minimality for factor_value Sort Prop.
Combined Scheme grammar_ind
  from expression_value_min, term_value_min, factor_value_min.

(** The tokens in front of a parser: its token of lookahead and then
    those of the unread input. *)
Definition ahead (p : Parser) (ts : list Token) : Prop :=
  match ts with
  | [] => type (curtToken p) = END
  | t :: ts' =>
      curtToken p = t /\ type t <> END /\
      exists n, tokenize_upto n (lexer p) = Ok ts'
  end.

Definition next_type (ts : list Token) : TokenType :=
  match ts with
  | [] => END
  | t :: _ => type t
  end.

(** A tree that evaluates to [v] whatever the variables are, and leaves
    them alone. *)
Definition constant (node : ASTNode) (v : float) : Prop :=
  forall libm seq vars, evaluate libm seq node vars = (vars, Ok v).

(** ** The assignments an evaluation commits

    [evaluate] again, returning next to its result the log of the
    assignments it has committed, oldest first.  The log is a ghost:
    [evaluate_logging_logs] shows that the variables and the result
    are those of [evaluate]. *)
Definition Logging (A : Type) : Type :=
  umapsd -> umapsd * list (string * float) * result A.

#[global] Instance Logging_ret : MRet Logging := fun A a variables =>
  (variables, [], Ok a).
#[global] Instance Logging_bind : MBind Logging := fun A B k m variables =>
  let '(variables', log, r) := m variables in
  match r with
  | Ok a =>
      let '(variables'', log', r') := k a variables' in
      (variables'', log ++ log', r')
  | Throw e => (variables', log, Throw e)
  | OutOfFuel => (variables', log, OutOfFuel)
  end.

Definition logging {A} (m : Eval A) : Logging A := fun variables =>
  let '(variables', r) := m variables in (variables', [], r).

Definition write_variable_logging (name : string) (val : float)
    : Logging unit := fun variables =>
  (<[name := val]> variables, [(name, val)], Ok tt).

Section Logging.
Context (libm : Libm) (seq : Sequencing).

Definition operands_logging (order : OperandOrder) (l r : Logging float)
    (f : float -> float -> float) : Logging float :=
  match order with
  | LeftOperandFirst => lval ← l; rval ← r; mret (f lval rval)
  | RightOperandFirst => rval ← r; lval ← l; mret (f lval rval)
  end.

Fixpoint evaluate_logging (node : ASTNode) : Logging float :=
  match node with
  | NumberNode value => mret value
  | VariableNode name => logging (read_variable name)
  | AssignmentNode name value =>
      val ← evaluate_logging value;
      _ ← write_variable_logging name val;
      mret val
  | FunctionCallNode functionName arguments =>
      match arguments with
      | [arg0] =>
          match first_match functionName (unary_functions libm) with
          | Some f => x ← evaluate_logging arg0; mret (f x)
          | None => logging (throw (unknown_function functionName))
          end
      | [arg0; arg1] =>
          if String.eqb functionName "log" then
            operands_logging (log_operands seq)
              (evaluate_logging arg1) (evaluate_logging arg0)
              (fun x base => (std_log libm x / std_log libm base)%float)
          else if String.eqb functionName "pow" then
            operands_logging (pow_arguments seq)
              (evaluate_logging arg0) (evaluate_logging arg1) (std_pow libm)
          else if String.eqb functionName "mod" then
            operands_logging (mod_arguments seq)
              (evaluate_logging arg0) (evaluate_logging arg1) (std_fmod libm)
          else logging (throw (unknown_function functionName))
      | _ => logging (throw (unknown_function functionName))
      end
  | UnaryOpNode op operand =>
      val ← evaluate_logging operand;
      match op with
      | MINUS => mret (- val)%float
      | _ => logging (throw (runtime_error "Invalid unary operator"))
      end
  | BinaryOpNode op l r =>
      lval ← evaluate_logging l;
      rval ← evaluate_logging r;
      match op with
      | PLUS => mret (lval + rval)%float
      | MINUS => mret (lval - rval)%float
      | MULTIPLY => mret (lval * rval)%float
      | DIVIDE => mret (lval / rval)%float
      | _ => logging (throw (runtime_error "Invalid operator"))
      end
  end.

End Logging.

(** The variables after the assignments of [log] are made in order. *)
Definition replay (log : list (string * float)) (variables : umapsd)
    : umapsd :=
  fold_left (fun m c => <[fst c := snd c]> m) log variables.

(** The assignment targets of a tree from left to right, a target after
    those of its right-hand side. *)
Fixpoint targets (node : ASTNode) : list string :=
  match node with
  | NumberNode _ | VariableNode _ => []
  | AssignmentNode name value => targets value ++ [name]
  | FunctionCallNode _ arguments => flat_map targets arguments
  | UnaryOpNode _ operand => targets operand
  | BinaryOpNode _ l r => targets l ++ targets r
  end.

(** The same in the order in which [evaluate] walks the tree: the two
    arguments of [log], [pow] and [mod] come as the compiler sequences
    them, and [log] names its second argument first. *)
Definition in_order (order : OperandOrder) (l r : list string)
    : list string :=
  match order with
  | LeftOperandFirst => l ++ r
  | RightOperandFirst => r ++ l
  end.

Fixpoint walk_targets (seq : Sequencing) (node : ASTNode) : list string :=
  match node with
  | NumberNode _ | VariableNode _ => []
  | AssignmentNode name value => walk_targets seq value ++ [name]
  | FunctionCallNode functionName arguments =>
      match arguments with
      | [arg0; arg1] =>
          let t0 := walk_targets seq arg0 in
          let t1 := walk_targets seq arg1 in
          if String.eqb functionName "log"
          then in_order (log_operands seq) t1 t0
          else if String.eqb functionName "pow"
          then in_order (pow_arguments seq) t0 t1
          else if String.eqb functionName "mod"
          then in_order (mod_arguments seq) t0 t1
          else t0 ++ t1
      | _ => flat_map (walk_targets seq) arguments
      end
  | UnaryOpNode _ operand => walk_targets seq operand
  | BinaryOpNode _ l r => walk_targets seq l ++ walk_targets seq r
  end.

(** The compiler evaluates the first argument of [log], [pow] and [mod]
    before the second. *)
Definition first_argument_first (seq : Sequencing) : Prop :=
  log_operands seq = RightOperandFirst /\
  pow_arguments seq = LeftOperandFirst /\
  mod_arguments seq = LeftOperandFirst.

(** No call with two arguments anywhere in the tree. *)
Fixpoint no_binary_call (node : ASTNode) : Prop :=
  match node with
  | NumberNode _ | VariableNode _ => True
  | AssignmentNode _ value => no_binary_call value
  | FunctionCallNode _ arguments =>
      length arguments <> 2%nat /\
      fold_right (fun a P => no_binary_call a /\ P) True arguments
  | UnaryOpNode _ operand => no_binary_call operand
  | BinaryOpNode _ l r => no_binary_call l /\ no_binary_call r
  end.

(** [m] is [e] with a log; the log replays to the variables it leaves, its
    targets are a prefix of [T], and all of [T] when [m] returns. *)
Definition logs {A} (m : Logging A) (e : Eval A) (T : list string) : Prop :=
  forall vars,
    let '(vars', log, r) := m vars in
    e vars = (vars', r) /\
    vars' = replay log vars /\
    map fst log `prefix_of` T /\
    (is_Ok r = true -> map fst log = T).

(** ** The table of built-in functions, by name *)

Definition unary_names : list string :=
  [ "sin"; "cos"; "tan"; "asin"; "acos"; "atan";
    "sinh"; "cosh"; "tanh"; "asinh"; "acosh"; "atanh";
    "sqrt"; "cbrt"; "exp"; "ln"; "log10"; "log2"; "abs" ].

Definition binary_names : list string := [ "log"; "pow"; "mod" ].

(** Is [name] with [arity] arguments a built-in function? *)
Definition built_in (name : string) (arity : nat) : Prop :=
  (arity = 1%nat /\ In name unary_names) \/
  (arity = 2%nat /\ In name binary_names).

(** ** The command tokenizer as the specification words it

    The state is whether a quote is open and with which character,
    whether the previous character was an unescaped backslash, and the
    term being collected; the five rules are tried in order, and a term
    is delivered in front of those that follow it. *)
Inductive Quoting : Type := Unquoted | Quoted (quoteChar : ascii).

Definition flush (current : string) (rest : list string) : list string :=
  match current with
  | EmptyString => rest
  | _ => current :: rest
  end.

Fixpoint split_terms (quoting : Quoting) (escaping : bool)
    (current : string) (input : string) : result (list string) :=
  match input with
  | EmptyString =>
      match quoting with
      | Quoted _ => Throw unclosed_quote
      | Unquoted => Ok (flush current [])
      end
  | String c rest =>
      if escaping then
        split_terms quoting false (push_back c current) rest
      else if (c =? "\")%char then
        split_terms quoting true current rest
      else if is_quote c then
        match quoting with
        | Unquoted => split_terms (Quoted c) false current rest
        | Quoted quoteChar =>
            if (c =? quoteChar)%char
            then split_terms Unquoted false current rest
            else split_terms quoting false (push_back c current) rest
        end
      else
        match quoting with
        | Unquoted =>
            if (c =? " ")%char then
              ts ← split_terms Unquoted false EmptyString rest;
              Ok (flush current ts)
            else split_terms quoting false (push_back c current) rest
        | Quoted _ => split_terms quoting false (push_back c current) rest
        end
  end.

Definition commandsDivide_spec (line : string) : result (list string) :=
  match line with
  | String ":"%char remaining => split_terms Unquoted false EmptyString remaining
  | _ => Ok []
  end.

(** The characters of a string, and whether one of them satisfies [p]. *)
Definition chars (s : string) : list ascii := list_ascii_of_string s.

Definition has_char (p : ascii -> bool) (s : string) : bool :=
  existsb p (chars s).

(** The quoting state of the source, seen as that of the specification. *)
Definition quoting_of (d : Divider) : Quoting :=
  if in_quotes d then Quoted (quote_char d) else Unquoted.

(** What [commandsDivide] does once its loop has ended in state [d]. *)
Definition divide_end (d : Divider) : result (list string) :=
  if in_quotes d then Throw unclosed_quote
  else if negb (String.eqb (term d) EmptyString)
  then Ok (terms d ++ [term d])
  else Ok (terms d).

(** Example file systems: a file that sources itself, and two files that
    source each other.  Every pass counts in [n]. *)
Definition self_sourcing : Files := fun path =>
  if String.eqb path "a" then Some [":f a"; "n = n + 1"] else None.

Definition cycle_of_two : Files := fun path =>
  if String.eqb path "a" then Some [":file b"; "n = n + 1"]
  else if String.eqb path "b" then Some [":file a"; "n = n + 1"]
  else None.

(** A command line whose quote is never closed: [:f], a blank, a double
    quote and [abc]. *)
Definition unclosed_command : string := ":f " +:+ String "034" "abc".

(** The session as [main] starts it. *)
Definition initial_session : Session :=
  {| variables := initial_variables; written := [] |}.

(** Does [s] begin with a character that satisfies [p]? *)
Definition starts_with (p : ascii -> bool) (s : string) : bool :=
  match s with
  | String c _ => p c
  | EmptyString => false
  end.

(** All characters of [s] satisfy [p]. *)
Definition all_chars (p : ascii -> bool) (s : string) : bool :=
  forallb p (chars s).

(** A parser with [^] and [post] appended to its unread input. *)
Definition extend (post : string) (p : Parser) : Parser :=
  {| lexer := lexer p +:+ String "^" post; curtToken := curtToken p |}.

(** The same for a driver call, which returns the session next to its
    result. *)
Definition refines_run (r r' : Session * result unit) : Prop :=
  snd r <> OutOfFuel -> r' = r.

(** A file that holds the command with the unclosed quote. *)
Definition bad_file : Files := fun path =>
  if String.eqb path "bad" then Some ["x = 1"; unclosed_command; "x = 2"]
  else None.

(** ** The command line

    [Options::Options(argc, argv)].  What [Options::output] prints is
    kept as an event. *)
Inductive Banner : Type := UsageText | VersionText.

Definition is_help_flag (a : string) : bool :=
  String.eqb a "-h" || String.eqb a "--help".
Definition is_version_flag (a : string) : bool :=
  String.eqb a "-v" || String.eqb a "--version".
Definition is_once_flag (a : string) : bool :=
  String.eqb a "-o" || String.eqb a "--once".
Definition is_file_flag (a : string) : bool :=
  String.eqb a "-f" || String.eqb a "--file".

(** The members as their initializers set them. *)
Definition Options_default : Options :=
  {| args := []; help := false; version := false; once := false;
     file := false; exit := false; files := ["init.scalc"] |}.

(** The [for] loop of the constructor over [argv[i..]]. *)
Fixpoint Options_loop (opts : Options) (argv : list string)
    : Options * list Banner :=
  match argv with
  | [] => (opts, [])
  | a :: rest =>
      let args := args opts ++ [a] in
      if is_help_flag a then
        ({| args := args; help := true; version := version opts;
            once := once opts; file := file opts; exit := true;
            files := files opts |}, [UsageText])
      else if is_version_flag a then
        ({| args := args; help := help opts; version := true;
            once := once opts; file := file opts; exit := true;
            files := files opts |}, [VersionText])
      else
        let once := if is_once_flag a then true else once opts in
        if is_file_flag a then
          match rest with
          | path :: rest' =>
              Options_loop
                {| args := args ++ [path]; help := help opts;
                   version := version opts; once := once;
                   file := file opts; exit := exit opts;
                   files := files opts ++ [path] |} rest'
          | [] =>
              ({| args := args; help := help opts; version := version opts;
                  once := once; file := file opts; exit := exit opts;
                  files := files opts |}, [])
          end
        else
          Options_loop
            {| args := args; help := help opts; version := version opts;
               once := once; file := file opts; exit := exit opts;
               files := files opts |} rest
  end.

(** [argv] with the program name in front, as [main] receives it. *)
Definition Options_new (argv : list string) : Options * list Banner :=
  Options_loop Options_default (tail argv).

(** The whole program: the banner the constructor printed, and [main]. *)
Definition scalc (libm : Libm) (seq : Sequencing) (fs : Files)
    (argv stdin : list string) : list Banner * (Session * result unit) :=
  let '(opts, printed) := Options_new argv in
  (printed, main libm seq fs opts stdin).

(** ** Notions for the further properties *)

(** The characters a token can start with. *)
Definition starts_token (c : ascii) : bool :=
  is_num_char c || isalpha c ||
  existsb (Ascii.eqb c) ["+"; "-"; "*"; "/"; "("; ")"; "="; ","]%char.

(** The text of an identifier: a letter, then letters, digits and
    underscores. *)
Definition is_identifier (name : string) : bool :=
  starts_with isalpha name && all_chars is_ident_char name.

(** What a token carries, by its type. *)
Definition token_text_ok (tok : Token) : Prop :=
  match type tok with
  | NUMBER =>
      value tok <> EmptyString /\ all_chars is_num_char (value tok) = true
  | IDENTIFIER => is_identifier (value tok) = true
  | POW => False
  | _ => value tok = EmptyString
  end.

(** A tree whose unary operators are all minus and whose binary
    operators are all among [+ - * /]. *)
Fixpoint well_formed (node : ASTNode) : Prop :=
  match node with
  | NumberNode _ | VariableNode _ => True
  | AssignmentNode _ value => well_formed value
  | FunctionCallNode _ arguments =>
      fold_right (fun a P => well_formed a /\ P) True arguments
  | UnaryOpNode op operand => op = MINUS /\ well_formed operand
  | BinaryOpNode op l r =>
      is_additive op || is_multiplicative op = true /\
      well_formed l /\ well_formed r
  end.

(** The exceptions of lexing and parsing, and those of evaluation. *)
Definition parse_error (e : exception) : Prop :=
  (exists c, e = unexpected_character c) \/
  (exists text, e = runtime_error ("Unexpected token: " +:+ text)) \/
  e = invalid_argument "stod" \/ e = out_of_range "stod".

Definition evaluation_error (e : exception) : Prop :=
  (exists name, e = runtime_error ("Undefined variable: " +:+ name)) \/
  (exists name, e = runtime_error ("Unknown function: " +:+ name)).

(** A tree of numbers, unary minus and [+ - * /]. *)
Fixpoint arithmetic (node : ASTNode) : Prop :=
  match node with
  | NumberNode _ => True
  | UnaryOpNode op operand => op = MINUS /\ arithmetic operand
  | BinaryOpNode op l r =>
      is_additive op || is_multiplicative op = true /\
      arithmetic l /\ arithmetic r
  | _ => False
  end.

(** ** Writing a command

    A term written with a backslash before each of its characters, a
    term written between two quote characters, and a command line made
    of words separated by single spaces. *)
Fixpoint escape_term (t : string) : string :=
  match t with
  | EmptyString => EmptyString
  | String c rest => String "\" (String c (escape_term rest))
  end.

Definition quote_term (q : ascii) (t : string) : string :=
  String q (t +:+ String q EmptyString).

Definition command_line (words : list string) : string :=
  String ":" (String.concat " " words).

Definition nonempty (t : string) : bool := negb (String.eqb t EmptyString).

(** The state of [commandsDivide] between two words. *)
Definition between_words (ts : list string) : Divider :=
  {| terms := ts; term := EmptyString; in_quotes := false;
     quote_char := "000"%char; escape := false |}.

(** ** What a driver call leaves

    The reports, which go to [std::cerr]. *)
Definition quiet (o : Output) : bool :=
  match o with
  | Error _ | CannotOpen _ => true
  | _ => false
  end.

(** [s'] continues [s]: it has written what [s] had and then [out], only
    reports when [write] is off, and every variable of [s] is still
    defined. *)
Definition continues (write : bool) (s s' : Session) : Prop :=
  (exists out, written s' = written s ++ out /\
               (write = false -> forallb quiet out = true)) /\
  (forall x, is_Some (variables s !! x) -> is_Some (variables s' !! x)).

(** The first terms that [process] looks for. *)
Definition known_commands : list string :=
  ["e"; "exit"; "h"; "help"; "f"; "file"].

Definition is_command (line : string) : bool :=
  match line with
  | String ":"%char _ => true
  | _ => false
  end.

Definition is_prompt (o : Output) : bool :=
  match o with Prompt => true | _ => false end.

Definition is_response (o : Output) : bool :=
  match o with Answer _ | Error _ => true | _ => false end.

Definition count (p : Output -> bool) (out : list Output) : nat :=
  length (List.filter p out).

(** A file that leaves at once. *)
Definition exit_file : Files := fun path =>
  if String.eqb path "a" then Some [":exit"; "x = 1"] else None.

(** ** What the constructor of [Options] leaves *)

(** The arguments [-f p] for each path [p]. *)
Definition file_arguments (paths : list string) : list string :=
  flat_map (fun p => ["-f"; p]) paths.

(** The banner that goes with the flags. *)
Definition banner_of (opts : Options) : list Banner :=
  if help opts then [UsageText]
  else if version opts then [VersionText] else [].

(** ** The value of a decimal numeral

    What the numeral [int_part . frac_part] converts to: nothing when it
    has no digit, zero when all its digits are zero, and otherwise what
    [strtod] makes of the decimal. *)
Definition numeral_value (int_part frac_part : string) : result float :=
  if ((String.length int_part + String.length frac_part)%nat =? 0)%nat
  then Throw (invalid_argument "stod")
  else
    match decimal_value 0 (int_part +:+ frac_part) with
    | Zpos m =>
        match strtod m (Z.of_nat (String.length frac_part)) with
        | Some r => Ok r
        | None => Throw (out_of_range "stod")
        end
    | _ => Ok 0%float
    end.

(** ** Rounding to nearest, stated on integers

    For a decimal [m / p], a mantissa [mant] and an exponent [x]:
    [2^e <= m / p < 2^(e + 1)]; [|m / p - mant * 2^x| <= 2^x / 2]; and
    the same with equality, where [m / p] lies halfway between
    [mant * 2^x] and a neighbour. *)
Definition in_binade (m p e : Z) : Prop :=
  (p * 2 ^ Z.max 0 e <= m * 2 ^ Z.max 0 (- e) /\
   m * 2 ^ Z.max 0 (- e) < 2 * (p * 2 ^ Z.max 0 e))%Z.

Definition nearest (m p mant x : Z) : Prop :=
  (2 * Z.abs (m * 2 ^ Z.max 0 (- x) - mant * (p * 2 ^ Z.max 0 x))
   <= p * 2 ^ Z.max 0 x)%Z.

Definition halfway (m p mant x : Z) : Prop :=
  (2 * Z.abs (m * 2 ^ Z.max 0 (- x) - mant * (p * 2 ^ Z.max 0 x))
   = p * 2 ^ Z.max 0 x)%Z.

(** * Properties *)

(** ** Results *)

Lemma bind_Ok {A B} (m : result A) (k : A -> result B) (b : B) :
  m ≫= k = Ok b -> exists a, m = Ok a /\ k a = Ok b.
Proof. destruct m; simpl; intros H; try discriminate. eauto. Qed.

Lemma bind_not_OutOfFuel {A B} (m : result A) (k : A -> result B) :
  m <> OutOfFuel -> (forall a, m = Ok a -> k a <> OutOfFuel) ->
  m ≫= k <> OutOfFuel.
Proof. destruct m; simpl; intros Hm Hk; auto. Qed.

(** Peel the binds off a hypothesis [... = Ok _]. *)
Ltac bind_inv H :=
  repeat (let a := fresh "a" in
          let E := fresh "E" in
          apply bind_Ok in H as (a & E & H);
          try (destruct a as [? ?]));
  simpl in H.

(** ** The lexer consumes its input *)

Lemma skip_spaces_length input :
  (String.length (skip_spaces input) <= String.length input)%nat.
Proof.
  induction input as [|c rest IH]; simpl; [lia|].
  destruct (isspace c); simpl; lia.
Qed.

Lemma take_run_length p input run rest :
  take_run p input = (run, rest) ->
  String.length input = (String.length run + String.length rest)%nat.
Proof.
  revert run rest. induction input as [|c input IH]; simpl; intros run rest H.
  - inversion H; reflexivity.
  - destruct (p c).
    + destruct (take_run p input) as [run' rest'] eqn:E.
      inversion H; subst. simpl. rewrite (IH _ _ eq_refl). reflexivity.
    + inversion H; subst. reflexivity.
Qed.

Lemma take_run_head p c input :
  p c = true -> exists run rest,
    take_run p (String c input) = (String c run, rest).
Proof.
  intros Hp. simpl. rewrite Hp.
  destruct (take_run p input) as [run rest]. eauto.
Qed.

(** A token other than [END] takes at least one character; [END] is
    delivered only when nothing is left. *)
Lemma getNextToken_length input tok unread :
  getNextToken input = Ok (tok, unread) ->
  (type tok = END /\ unread = EmptyString) \/
  (type tok <> END /\
   (String.length unread < String.length input)%nat).
Proof.
  unfold getNextToken. pose proof (skip_spaces_length input) as Hs.
  destruct (skip_spaces input) as [|ch rest] eqn:E.
  - intros H; inversion H; subst; left; split; reflexivity.
  - simpl in Hs. intros H. right.
    destruct (is_num_char ch) eqn:Hn.
    { destruct (take_run_head is_num_char ch rest Hn) as (run & r & Hr).
      rewrite Hr in H. inversion H; subst; clear H.
      apply take_run_length in Hr. simpl in *. split; [discriminate|lia]. }
    destruct (isalpha ch) eqn:Ha.
    { assert (Hi : is_ident_char ch = true)
        by (unfold is_ident_char, isalnum; rewrite Ha; reflexivity).
      destruct (take_run_head is_ident_char ch rest Hi) as (run & r & Hr).
      rewrite Hr in H. inversion H; subst; clear H.
      apply take_run_length in Hr. simpl in *. split; [discriminate|lia]. }
    repeat match type of H with
           | (if ?b then _ else _) = _ => destruct b
           end;
      inversion H; subst; simpl; split; try discriminate; lia.
Qed.

Lemma advance_measure p p' :
  advance p = Ok p' -> (measure p' <= String.length (lexer p))%nat.
Proof.
  unfold advance. intros H. bind_inv H. inversion H; subst; clear H.
  unfold measure; simpl.
  apply getNextToken_length in E as [[Ht ->]|[Ht Hl]].
  - rewrite Ht. simpl. lia.
  - destruct (decide (type t = END)); [contradiction|lia].
Qed.

Lemma consume_measure ty p p' :
  ty <> END -> consume ty p = Ok p' -> (measure p' < measure p)%nat.
Proof.
  unfold consume. intros Hty H.
  destruct (decide (type (curtToken p) = ty)) as [Heq|]; [|discriminate].
  apply advance_measure in H. unfold measure at 2.
  destruct (decide (type (curtToken p) = END)); [congruence|lia].
Qed.

(** ** The parsing functions: unfolding, progress and fuel *)

Lemma parseExpression_S n p :
  parseExpression (S n) p =
  ('(node, p) ← parseTerm n p; parseExpression_loop n node p).
Proof. reflexivity. Qed.

Lemma parseExpression_loop_S n node p :
  parseExpression_loop (S n) node p =
  if is_additive (type (curtToken p)) then
    let op := type (curtToken p) in
    p ← consume op p;
    '(rhs, p) ← parseTerm n p;
    parseExpression_loop n (BinaryOpNode op node rhs) p
  else Ok (node, p).
Proof. reflexivity. Qed.

Lemma parseTerm_S n p :
  parseTerm (S n) p =
  ('(node, p) ← parseFactor n p; parseTerm_loop n node p).
Proof. reflexivity. Qed.

Lemma parseTerm_loop_S n node p :
  parseTerm_loop (S n) node p =
  if is_multiplicative (type (curtToken p)) then
    let op := type (curtToken p) in
    p ← consume op p;
    '(rhs, p) ← parseFactor n p;
    parseTerm_loop n (BinaryOpNode op node rhs) p
  else Ok (node, p).
Proof. reflexivity. Qed.

Lemma parseFactor_S n p :
  parseFactor (S n) p =
  match type (curtToken p) with
  | MINUS =>
      p ← consume MINUS p;
      '(operand, p) ← parseFactor n p;
      Ok (UnaryOpNode MINUS operand, p)
  | NUMBER =>
      value ← stod (value (curtToken p));
      p ← consume NUMBER p;
      Ok (NumberNode value, p)
  | IDENTIFIER =>
      let name := value (curtToken p) in
      p ← consume IDENTIFIER p;
      match type (curtToken p) with
      | LPAREN => parseFunctionCall n name p
      | EQUAL =>
          p ← consume EQUAL p;
          '(rhs, p) ← parseExpression n p;
          Ok (AssignmentNode name rhs, p)
      | _ => Ok (VariableNode name, p)
      end
  | LPAREN =>
      p ← consume LPAREN p;
      '(node, p) ← parseExpression n p;
      p ← consume RPAREN p;
      Ok (node, p)
  | _ => Throw (unexpected_token (curtToken p))
  end.
Proof. reflexivity. Qed.

Lemma parseFunctionCall_S n funcName p :
  parseFunctionCall (S n) funcName p =
  (p ← consume LPAREN p;
   '(args, p) ←
     (if decide (type (curtToken p) = RPAREN) then Ok ([], p)
      else parseArguments n [] p);
   p ← consume RPAREN p;
   Ok (FunctionCallNode funcName args, p)).
Proof. reflexivity. Qed.

Lemma parseArguments_S n args p :
  parseArguments (S n) args p =
  ('(arg, p) ← parseExpression n p;
   let args := args ++ [arg] in
   if decide (type (curtToken p) = COMMA) then
     p ← consume COMMA p;
     parseArguments n args p
   else Ok (args, p)).
Proof. reflexivity. Qed.

Lemma is_additive_not_END ty : is_additive ty = true -> ty <> END.
Proof. intros H ->. discriminate. Qed.

Lemma is_multiplicative_not_END ty : is_multiplicative ty = true -> ty <> END.
Proof. intros H ->. discriminate. Qed.

(** Unfold one call of a parsing function in the hypotheses. *)
Ltac unfold_parse :=
  repeat match goal with
  | H : context [parseExpression (S _) _] |- _ =>
      rewrite parseExpression_S in H
  | H : context [parseExpression_loop (S _) _ _] |- _ =>
      rewrite parseExpression_loop_S in H
  | H : context [parseTerm (S _) _] |- _ => rewrite parseTerm_S in H
  | H : context [parseTerm_loop (S _) _ _] |- _ =>
      rewrite parseTerm_loop_S in H
  | H : context [parseFactor (S _) _] |- _ => rewrite parseFactor_S in H
  | H : context [parseFunctionCall (S _) _ _] |- _ =>
      rewrite parseFunctionCall_S in H
  | H : context [parseArguments (S _) _ _] |- _ =>
      rewrite parseArguments_S in H
  end.

(** Split a successful run of a parsing function into its steps. *)
Ltac parse_cases :=
  repeat match goal with
  | H : _ ≫= _ = Ok _ |- _ =>
      let a := fresh "a" in
      let E := fresh "E" in
      apply bind_Ok in H as (a & E & H);
      try (match type of a with (_ * _)%type => destruct a as [? ?] end);
      cbv beta iota zeta in H
  | H : (let _ := _ in _) = Ok _ |- _ => cbv zeta in H
  | H : (if ?b then _ else _) = Ok _ |- _ => destruct b eqn:?
  | H : match type (curtToken ?p) with _ => _ end = Ok _ |- _ =>
      destruct (type (curtToken p)) eqn:?
  | H : Throw _ = Ok _ |- _ => discriminate H
  | H : OutOfFuel = Ok _ |- _ => discriminate H
  | H : Ok _ = Ok _ |- _ => inversion H; subst; clear H
  end.

(** Every parsing function that returns has taken at least one token;
    a loop may have taken none. *)
Lemma parse_measure n :
  (forall p node p', parseExpression n p = Ok (node, p') ->
     (measure p' < measure p)%nat) /\
  (forall node0 p node p', parseExpression_loop n node0 p = Ok (node, p') ->
     (measure p' <= measure p)%nat) /\
  (forall p node p', parseTerm n p = Ok (node, p') ->
     (measure p' < measure p)%nat) /\
  (forall node0 p node p', parseTerm_loop n node0 p = Ok (node, p') ->
     (measure p' <= measure p)%nat) /\
  (forall p node p', parseFactor n p = Ok (node, p') ->
     (measure p' < measure p)%nat) /\
  (forall f p node p', parseFunctionCall n f p = Ok (node, p') ->
     (measure p' < measure p)%nat) /\
  (forall args0 p args p', parseArguments n args0 p = Ok (args, p') ->
     (measure p' < measure p)%nat).
Proof.
  induction n as [|n (IHe & IHel & IHt & IHtl & IHf & IHfc & IHa)].
  { repeat split; intros; discriminate. }
  repeat split; intros; unfold_parse; parse_cases;
    repeat match goal with
    | H : consume _ _ = Ok _ |- _ =>
        apply consume_measure in H;
        [|solve [discriminate
                | auto using is_additive_not_END, is_multiplicative_not_END]]
    | H : parseExpression n _ = Ok _ |- _ => apply IHe in H
    | H : parseExpression_loop n _ _ = Ok _ |- _ => apply IHel in H
    | H : parseTerm n _ = Ok _ |- _ => apply IHt in H
    | H : parseTerm_loop n _ _ = Ok _ |- _ => apply IHtl in H
    | H : parseFactor n _ = Ok _ |- _ => apply IHf in H
    | H : parseFunctionCall n _ _ = Ok _ |- _ => apply IHfc in H
    | H : parseArguments n _ _ = Ok _ |- _ => apply IHa in H
    end; lia.
Qed.

(** Only the parsing functions use fuel. *)
Lemma getNextToken_not_OutOfFuel input : getNextToken input <> OutOfFuel.
Proof. unfold getNextToken. repeat case_match; discriminate. Qed.

Lemma consume_not_OutOfFuel ty p : consume ty p <> OutOfFuel.
Proof.
  unfold consume, advance. pose proof (getNextToken_not_OutOfFuel (lexer p)).
  case_match; [|discriminate].
  destruct (getNextToken (lexer p)) as [[? ?]| |]; simpl;
    first [discriminate | contradiction].
Qed.

Lemma stod_not_OutOfFuel text : stod text <> OutOfFuel.
Proof. unfold stod. repeat case_match; discriminate. Qed.

Lemma refines_refl {A} (r : result A) : refines r r.
Proof. intros _. reflexivity. Qed.

Lemma refines_bind {A B} (m m' : result A) (k k' : A -> result B) :
  refines m m' -> (forall a, refines (k a) (k' a)) ->
  refines (m ≫= k) (m' ≫= k').
Proof.
  intros Hm Hk H. destruct m as [a|e|]; simpl in *.
  - rewrite Hm by discriminate. simpl. apply Hk, H.
  - rewrite Hm by discriminate. reflexivity.
  - contradiction.
Qed.

Lemma refines_Ok {A} (r r' : result A) a : refines r r' -> r = Ok a -> r' = Ok a.
Proof. intros H ->. apply H. discriminate. Qed.

(** More fuel does not change what a parsing function returns. *)
Lemma parse_fuel_mono n : forall m, (n <= m)%nat ->
  (forall p, refines (parseExpression n p) (parseExpression m p)) /\
  (forall node p,
     refines (parseExpression_loop n node p) (parseExpression_loop m node p)) /\
  (forall p, refines (parseTerm n p) (parseTerm m p)) /\
  (forall node p,
     refines (parseTerm_loop n node p) (parseTerm_loop m node p)) /\
  (forall p, refines (parseFactor n p) (parseFactor m p)) /\
  (forall f p,
     refines (parseFunctionCall n f p) (parseFunctionCall m f p)) /\
  (forall args p,
     refines (parseArguments n args p) (parseArguments m args p)).
Proof.
  induction n as [|n IH]; intros m Hle.
  { repeat split; intros; intros H; contradiction. }
  destruct m as [|m]; [lia|].
  destruct (IH m ltac:(lia)) as (IHe & IHel & IHt & IHtl & IHf & IHfc & IHa).
  repeat split; intros;
    rewrite ?parseExpression_S, ?parseExpression_loop_S, ?parseTerm_S,
      ?parseTerm_loop_S, ?parseFactor_S, ?parseFunctionCall_S,
      ?parseArguments_S; cbv zeta;
    repeat first
      [ apply refines_refl
      | apply IHe | apply IHel | apply IHt | apply IHtl | apply IHf
      | apply IHfc | apply IHa
      | apply refines_bind; [|intros ?]
      | match goal with
        | |- refines (if ?b then _ else _) _ => destruct b
        | |- refines (match ?x with _ => _ end) _ => destruct x
        end ].
Qed.

(** Fuel that suffices, by the parser's measure. *)
Lemma parse_fuel_measure n :
  (forall p, (4 * measure p + 3 <= n)%nat ->
     parseExpression n p <> OutOfFuel) /\
  (forall node p, (4 * measure p + 2 <= n)%nat ->
     parseExpression_loop n node p <> OutOfFuel) /\
  (forall p, (4 * measure p + 2 <= n)%nat -> parseTerm n p <> OutOfFuel) /\
  (forall node p, (4 * measure p + 1 <= n)%nat ->
     parseTerm_loop n node p <> OutOfFuel) /\
  (forall p, (4 * measure p + 1 <= n)%nat -> parseFactor n p <> OutOfFuel) /\
  (forall f p, (4 * measure p + 1 <= n)%nat ->
     parseFunctionCall n f p <> OutOfFuel) /\
  (forall args p, (4 * measure p + 4 <= n)%nat ->
     parseArguments n args p <> OutOfFuel).
Proof.
  induction n as [|n (IHe & IHel & IHt & IHtl & IHf & IHfc & IHa)].
  { repeat split; intros; lia. }
  destruct (parse_measure n) as (Me & Mel & Mt & Mtl & Mf & Mfc & Ma).
  repeat split; intros;
    rewrite ?parseExpression_S, ?parseExpression_loop_S, ?parseTerm_S,
      ?parseTerm_loop_S, ?parseFactor_S, ?parseFunctionCall_S,
      ?parseArguments_S; cbv zeta;
    repeat first
      [ apply consume_not_OutOfFuel
      | apply stod_not_OutOfFuel
      | discriminate
      | apply bind_not_OutOfFuel; [|intros ? ?]
      | match goal with
        | |- (if ?b then _ else _) <> _ => destruct b eqn:?
        | |- (match type (curtToken ?p) with _ => _ end) <> _ =>
            destruct (type (curtToken p)) eqn:?
        | |- (let '(_, _) := ?x in _) <> _ => destruct x
        end ];
    parse_cases;
    repeat match goal with
    | H : consume _ _ = Ok _ |- _ =>
        apply consume_measure in H;
        [|solve [discriminate | congruence
                | auto using is_additive_not_END, is_multiplicative_not_END]]
    | H : parseExpression n _ = Ok _ |- _ => apply Me in H
    | H : parseExpression_loop n _ _ = Ok _ |- _ => apply Mel in H
    | H : parseTerm n _ = Ok _ |- _ => apply Mt in H
    | H : parseTerm_loop n _ _ = Ok _ |- _ => apply Mtl in H
    | H : parseFactor n _ = Ok _ |- _ => apply Mf in H
    | H : parseFunctionCall n _ _ = Ok _ |- _ => apply Mfc in H
    | H : parseArguments n _ _ = Ok _ |- _ => apply Ma in H
    end;
    first [ apply IHe | apply IHel | apply IHt | apply IHtl | apply IHf
          | apply IHfc | apply IHa ]; lia.
Qed.

Lemma Parser_init_measure line p :
  Parser_init line = Ok p -> (measure p <= String.length line)%nat.
Proof. intros H. apply advance_measure in H. exact H. Qed.

(** The fuel that [parse] passes is enough for every line. *)
Lemma parse_fuel_enough line : parse line <> OutOfFuel.
Proof.
  unfold parse. apply bind_not_OutOfFuel.
  - unfold Parser_init, advance; simpl.
    pose proof (getNextToken_not_OutOfFuel line).
    destruct (getNextToken line) as [[? ?]| |]; simpl;
      first [discriminate | contradiction].
  - intros p Hp. apply Parser_init_measure in Hp.
    apply bind_not_OutOfFuel.
    + apply parse_fuel_measure. unfold parse_fuel. lia.
    + intros [? ?] _. discriminate.
Qed.

(** Whatever fuel makes [parseExpression] return, [parse] returns the
    same tree. *)
Lemma parse_from_fuel line n p expr p' :
  Parser_init line = Ok p -> parseExpression n p = Ok (expr, p') ->
  parse line = Ok expr.
Proof.
  intros Hp Hn. unfold parse. rewrite Hp. simpl.
  pose proof (Parser_init_measure _ _ Hp) as Hm.
  assert (Hf : parseExpression (parse_fuel line) p <> OutOfFuel)
    by (apply parse_fuel_measure; unfold parse_fuel; lia).
  set (m := Nat.max n (parse_fuel line)).
  destruct (parse_fuel_mono n m ltac:(lia)) as (Hn' & _).
  destruct (parse_fuel_mono (parse_fuel line) m ltac:(lia)) as (Hf' & _).
  specialize (Hn' p). specialize (Hf' p).
  rewrite <- (Hf' Hf). rewrite (refines_Ok _ _ _ Hn' Hn). reflexivity.
Qed.

(** ** Induction on the AST *)

Lemma ASTNode_nested_ind (P : ASTNode -> Prop) :
  (forall value, P (NumberNode value)) ->
  (forall name, P (VariableNode name)) ->
  (forall name value, P value -> P (AssignmentNode name value)) ->
  (forall functionName arguments,
     Forall P arguments -> P (FunctionCallNode functionName arguments)) ->
  (forall op operand, P operand -> P (UnaryOpNode op operand)) ->
  (forall op l r, P l -> P r -> P (BinaryOpNode op l r)) ->
  forall node, P node.
Proof.
  intros Hnum Hvar Hasg Hcall Hun Hbin.
  fix IH 1. intros [value|name|name value|f args|op operand|op l r].
  - apply Hnum.
  - apply Hvar.
  - apply Hasg, IH.
  - apply Hcall. induction args as [|a args IHargs]; constructor.
    + apply IH.
    + apply IHargs.
  - apply Hun, IH.
  - apply Hbin; apply IH.
Qed.

Section EvaluatorFacts.
Context (libm : Libm) (seq : Sequencing).

Lemma Eval_bind_not_OutOfFuel {A B} (m : Eval A) (k : A -> Eval B) vars :
  (forall vars, snd (m vars) <> OutOfFuel) ->
  (forall a vars, snd (k a vars) <> OutOfFuel) ->
  snd ((m ≫= k) vars) <> OutOfFuel.
Proof.
  intros Hm Hk. unfold mbind, Eval_bind. specialize (Hm vars).
  destruct (m vars) as [vars' [a|e|]]; simpl in *; auto.
Qed.

Lemma operands_not_OutOfFuel order (l r : Eval float) f vars :
  (forall vars, snd (l vars) <> OutOfFuel) ->
  (forall vars, snd (r vars) <> OutOfFuel) ->
  snd (operands order l r f vars) <> OutOfFuel.
Proof.
  intros Hl Hr. destruct order; simpl;
    repeat (apply Eval_bind_not_OutOfFuel; auto; intros); simpl;
    discriminate.
Qed.

(** The evaluator uses no fuel. *)
Lemma evaluate_not_OutOfFuel node :
  forall vars, snd (evaluate libm seq node vars) <> OutOfFuel.
Proof.
  induction node as [value|name|name value IH|f args IH|op operand IH
                    |op l r IHl IHr] using ASTNode_nested_ind; intros vars.
  - discriminate.
  - simpl. unfold read_variable. destruct (vars !! name); discriminate.
  - simpl. apply Eval_bind_not_OutOfFuel; [exact IH|].
    intros; simpl; discriminate.
  - simpl.
    destruct args as [|a0 [|a1 [|a2 args]]]; try (simpl; discriminate).
    + apply Forall_cons in IH as [IH0 _].
      destruct (first_match f (unary_functions libm));
        [|simpl; discriminate].
      apply Eval_bind_not_OutOfFuel; [exact IH0|].
      intros; simpl; discriminate.
    + apply Forall_cons in IH as [IH0 IH1].
      apply Forall_cons in IH1 as [IH1 _].
      repeat case_match; try (simpl; discriminate);
        apply operands_not_OutOfFuel; assumption.
  - simpl. apply Eval_bind_not_OutOfFuel; [exact IH|].
    intros; destruct op; simpl; discriminate.
  - simpl. apply Eval_bind_not_OutOfFuel; [exact IHl|]. intros.
    apply Eval_bind_not_OutOfFuel; [exact IHr|]. intros.
    destruct op; simpl; discriminate.
Qed.

(** [calculate] always returns or throws. *)
Lemma calculate_not_OutOfFuel line vars :
  snd (calculate libm seq line vars) <> OutOfFuel.
Proof.
  unfold calculate. pose proof (parse_fuel_enough line).
  destruct (parse line); simpl; try congruence.
  apply evaluate_not_OutOfFuel.
Qed.

End EvaluatorFacts.

Lemma parse_fuel_refines line n p :
  Parser_init line = Ok p ->
  refines (parseExpression n p) (parseExpression (parse_fuel line) p).
Proof.
  intros Hp Hn.
  pose proof (Parser_init_measure _ _ Hp) as Hm.
  assert (Hf : parseExpression (parse_fuel line) p <> OutOfFuel)
    by (apply parse_fuel_measure; unfold parse_fuel; lia).
  set (m := Nat.max n (parse_fuel line)).
  destruct (parse_fuel_mono n m ltac:(lia)) as (Hn' & _).
  destruct (parse_fuel_mono (parse_fuel line) m ltac:(lia)) as (Hf' & _).
  rewrite <- (Hf' p Hf). apply Hn', Hn.
Qed.

(** ** Where the loops stop *)

(** [parseTerm] returns in front of a token that is neither [*] nor [/],
    [parseExpression] in front of one that is no operator at all. *)
Lemma parse_stops n :
  (forall p node p', parseExpression n p = Ok (node, p') ->
     is_additive (type (curtToken p')) = false /\
     is_multiplicative (type (curtToken p')) = false) /\
  (forall node0 p node p', parseExpression_loop n node0 p = Ok (node, p') ->
     is_additive (type (curtToken p')) = false /\
     (is_multiplicative (type (curtToken p)) = false ->
      is_multiplicative (type (curtToken p')) = false)) /\
  (forall p node p', parseTerm n p = Ok (node, p') ->
     is_multiplicative (type (curtToken p')) = false) /\
  (forall node0 p node p', parseTerm_loop n node0 p = Ok (node, p') ->
     is_multiplicative (type (curtToken p')) = false).
Proof.
  induction n as [|n (IHe & IHel & IHt & IHtl)].
  { repeat split; intros; discriminate. }
  repeat split; intros; unfold_parse; parse_cases;
    repeat match goal with
    | H : parseExpression n _ = Ok _ |- _ => apply IHe in H
    | H : parseExpression_loop n _ _ = Ok _ |- _ => apply IHel in H
    | H : parseTerm n _ = Ok _ |- _ => apply IHt in H
    | H : parseTerm_loop n _ _ = Ok _ |- _ => apply IHtl in H
    end; intuition.
Qed.

(** ** Every bare line is an assignment to [Ans] *)

(** Parsing ["Ans = " + line]: the identifier and the [=] are taken, the
    parser then stands where a parser of [line] starts, and whatever
    [line] parses to becomes the right-hand side; the loops above see no
    operator and return. *)
Lemma parse_Ans_prefix line :
  parse ("Ans = " +:+ line) =
  (expr ← parse line; Ok (AssignmentNode "Ans" expr)).
Proof.
  set (m := parse_fuel line).
  set (pA := {| lexer := " = " +:+ line; curtToken := mkToken IDENTIFIER "Ans" |}).
  assert (HpA : Parser_init ("Ans = " +:+ line) = Ok pA) by reflexivity.
  assert (Hrun : parseExpression (S (S (S m))) pA =
                 (p0 ← Parser_init line;
                  '(rhs, p1) ← parseExpression m p0;
                  Ok (AssignmentNode "Ans" rhs, p1))).
  { set (pE := {| lexer := " " +:+ line; curtToken := Token1 EQUAL |}).
    assert (H1 : consume IDENTIFIER pA = Ok pE) by reflexivity.
    assert (H2 : consume EQUAL pE = Parser_init line) by reflexivity.
    rewrite parseExpression_S, parseTerm_S, parseFactor_S.
    change (type (curtToken pA)) with IDENTIFIER. cbv iota zeta.
    rewrite H1. cbv beta iota delta [mbind result_bind].
    change (type (curtToken pE)) with EQUAL. cbv iota. rewrite H2.
    destruct (Parser_init line) as [p0| |]; try reflexivity.
    destruct (parseExpression m p0) as [[rhs p1]| |] eqn:E; try reflexivity.
    apply parse_stops in E as [Ha Hm].
    rewrite parseTerm_loop_S, Hm, parseExpression_loop_S, Ha. reflexivity. }
  unfold parse at 1. rewrite HpA.
  cbv beta iota delta [mbind result_bind].
  rewrite (parse_fuel_refines _ (S (S (S m))) _ HpA).
  - rewrite Hrun. unfold parse. fold m.
    destruct (Parser_init line) as [p0| |]; try reflexivity. simpl.
    destruct (parseExpression m p0) as [[rhs p1]| |]; reflexivity.
  - rewrite Hrun. pose proof (parse_fuel_enough line) as Hf.
    unfold parse in Hf. fold m in Hf.
    destruct (Parser_init line) as [p0| |]; simpl in *; try congruence.
    destruct (parseExpression m p0) as [[rhs p1]| |]; simpl in *; congruence.
Qed.

(** ** The driver on a line that is no command *)

Section DriverFacts.
Context (libm : Libm) (seq : Sequencing) (fs : Files) (opts : Options).

Lemma evaluate_line_not_OutOfFuel write line s :
  snd (evaluate_line libm seq write line s) <> OutOfFuel.
Proof.
  unfold evaluate_line.
  pose proof (calculate_not_OutOfFuel libm seq ("Ans = " +:+ line)
                (variables s)) as H.
  destruct (calculate _ _ _ _) as [vars [v|e|]]; simpl in *;
    first [discriminate | contradiction].
Qed.

(** A line that is neither empty nor a command goes through the [try]
    block, and the loop goes on to its condition whatever happened
    there. *)
Lemma process_lines_bare nested write line rest s :
  line <> EmptyString -> (forall l, line <> String ":" l) ->
  process_lines libm seq fs opts nested write (line :: rest) s =
  let s1 := fst (evaluate_line libm seq write line (emit_if write Prompt s)) in
  if negb (once opts) || negb write
  then process_lines libm seq fs opts nested write rest s1
  else (s1, Ok tt).
Proof.
  intros Hne Hcolon.
  pose proof (evaluate_line_not_OutOfFuel write line
                (emit_if write Prompt s)) as Hf.
  destruct line as [|c l]; [contradiction|].
  assert (Hc : c <> ":"%char) by (intros ->; exact (Hcolon l eq_refl)).
  assert (Hstep :
    process_lines libm seq fs opts nested write (String c l :: rest) s =
    let '(s1, r) := evaluate_line libm seq write (String c l)
                      (emit_if write Prompt s) in
    match r with
    | Ok _ => if negb (once opts) || negb write
              then process_lines libm seq fs opts nested write rest s1
              else (s1, Ok tt)
    | _ => (s1, r)
    end).
  { destruct c as [[] [] [] [] [] [] [] []];
      first [reflexivity | exfalso; apply Hc; reflexivity]. }
  rewrite Hstep. unfold evaluate_line in *.
  destruct (calculate _ _ _ _) as [vars [v|e|]]; simpl in *;
    first [reflexivity | contradiction].
Qed.

End DriverFacts.

(** ** C3: every bare line is captured into [Ans] *)

Lemma calculate_Ans_prefix libm seq line vars :
  calculate libm seq ("Ans = " +:+ line) vars =
  match parse line with
  | Ok expr => evaluate libm seq (AssignmentNode "Ans" expr) vars
  | Throw e => (vars, Throw e)
  | OutOfFuel => (vars, OutOfFuel)
  end.
Proof.
  unfold calculate. rewrite parse_Ans_prefix.
  destruct (parse line); reflexivity.
Qed.

Lemma evaluate_AssignmentNode libm seq name value vars :
  evaluate libm seq (AssignmentNode name value) vars =
  let '(vars1, r) := evaluate libm seq value vars in
  match r with
  | Ok val => (<[name := val]> vars1, Ok val)
  | Throw e => (vars1, Throw e)
  | OutOfFuel => (vars1, OutOfFuel)
  end.
Proof.
  simpl. unfold mbind, Eval_bind.
  destruct (evaluate libm seq value vars) as [vars1 [val|e|]]; reflexivity.
Qed.

(** C3.  A non-empty line that does not begin with [:] is evaluated by
    the driver as ["Ans = " + line]: the variables it leaves are those of
    [calculate ("Ans = " + line)], a result is printed (interactively) and
    an error is reported, and the loop goes on to its condition.  When
    that evaluation succeeds with value [v], [v] is the value the
    expression parsed from the line alone evaluates to, and [Ans] is bound
    to [v] on top of whatever the line itself assigned.  In particular,
    after the line [3 + 4] the line [Ans] yields 7, and the line [x = 5]
    leaves both [Ans] and [x] bound to 5. *)
Theorem bare_line_assigns_Ans :
  (forall libm seq fs opts nested (write : bool) line rest (s : Session),
     line <> EmptyString -> (forall l, line <> String ":" l) ->
     let calc := calculate libm seq ("Ans = " +:+ line) (variables s) in
     (exists s1,
        variables s1 = fst calc /\
        written s1 =
          written s ++ (if write then [Prompt] else []) ++
          match snd calc with
          | Ok v => if write then [Answer v] else []
          | Throw e => [Error (what e)]
          | OutOfFuel => []
          end /\
        process_lines libm seq fs opts nested write (line :: rest) s =
          if negb (once opts) || negb write
          then process_lines libm seq fs opts nested write rest s1
          else (s1, Ok tt)) /\
     (forall v, snd calc = Ok v ->
        fst calc !! "Ans" = Some v /\
        exists expr vars1,
          parse line = Ok expr /\
          evaluate libm seq expr (variables s) = (vars1, Ok v) /\
          fst calc = <["Ans" := v]> vars1)) /\
  (forall libm seq,
     exists s,
       main libm seq no_files default_options ["3 + 4"; "Ans"] = (s, Ok tt) /\
       written s = [Prompt; Answer 7%float; Prompt; Answer 7%float; Prompt]) /\
  (forall libm seq,
     exists s,
       main libm seq no_files default_options ["x = 5"] = (s, Ok tt) /\
       variables s !! "Ans" = Some 5%float /\
       variables s !! "x" = Some 5%float).
Proof.
  split; [|split].
  - intros libm seq fs opts nested write line rest s Hne Hcolon calc.
    split.
    + exists (fst (evaluate_line libm seq write line (emit_if write Prompt s))).
      rewrite (process_lines_bare _ _ _ _ _ _ _ _ _ Hne Hcolon).
      unfold evaluate_line.
      replace (variables (emit_if write Prompt s)) with (variables s)
        by (destruct write; reflexivity).
      subst calc.
      destruct (calculate libm seq ("Ans = " +:+ line) (variables s))
        as [vars [v|e|]]; destruct write; simpl;
        rewrite <- ?app_assoc; auto.
      all: rewrite ?app_nil_r; auto.
    + intros v Hv. subst calc. rewrite calculate_Ans_prefix in *.
      destruct (parse line) as [expr| |]; try discriminate.
      rewrite evaluate_AssignmentNode in *.
      destruct (evaluate libm seq expr (variables s)) as [vars1 [val|e|]]
        eqn:E; simpl in *; try discriminate.
      inversion Hv; subst. split; [apply lookup_insert_eq|].
      exists expr, vars1. auto.
  - intros libm seq. eexists. split; [vm_compute; reflexivity|].
    reflexivity.
  - intros libm seq. eexists. split; [vm_compute; reflexivity|].
    split; reflexivity.
Qed.

Lemma bare_line_assigns_Ans_witness :
  "3 + 4" <> EmptyString /\
  (forall l, "3 + 4" <> String ":" l) /\
  fst (calculate libm_stub left_to_right "Ans = 3 + 4" initial_variables)
    !! "Ans" = Some 7%float.
Proof.
  split; [discriminate|]. split; [discriminate|].
  apply (proj1 bare_line_assigns_Ans libm_stub left_to_right no_files
           default_options (fun _ s => (s, Ok tt)) true "3 + 4" []
           {| variables := initial_variables; written := [] |});
    [discriminate | discriminate | vm_compute; reflexivity].
Defined.

(** ** C2: the parser against the reference grammar *)

Lemma advance_ahead p t ts :
  ahead p (t :: ts) -> exists p', advance p = Ok p' /\ ahead p' ts.
Proof.
  intros (_ & _ & n & Hn). destruct n as [|n]; [discriminate|].
  simpl in Hn. unfold advance.
  destruct (getNextToken (lexer p)) as [[tok unread]| |]; try discriminate.
  simpl in *. eexists; split; [reflexivity|].
  destruct (decide (type tok = END)) as [Hend|Hend].
  - inversion Hn; subst. exact Hend.
  - destruct (tokenize_upto n unread) as [ts'| |] eqn:E; try discriminate.
    inversion Hn; subst. simpl. eauto.
Qed.

Lemma consume_ahead ty p t ts :
  ahead p (t :: ts) -> type t = ty ->
  exists p', consume ty p = Ok p' /\ ahead p' ts.
Proof.
  intros H Hty. unfold consume. destruct H as (Hcur & Hrest).
  rewrite Hcur, decide_True by exact Hty.
  apply (advance_ahead p t ts). split; assumption.
Qed.

Lemma Parser_init_ahead line ts :
  tokenize line = Ok ts -> exists p, Parser_init line = Ok p /\ ahead p ts.
Proof.
  intros H.
  apply (advance_ahead {| lexer := line; curtToken := Token1 PLUS |}
           (Token1 PLUS) ts).
  split; [reflexivity|]. split; [discriminate|]. eexists. exact H.
Qed.

Lemma ahead_type p ts : ahead p ts -> type (curtToken p) = next_type ts.
Proof. destruct ts as [|t ts]; simpl; [auto|]. intros (-> & _). reflexivity. Qed.

Lemma parseFactor_mono n m p r :
  parseFactor n p = Ok r -> (n <= m)%nat -> parseFactor m p = Ok r.
Proof.
  intros H Hle. destruct (parse_fuel_mono n m Hle) as (_ & _ & _ & _ & Hf & _).
  exact (refines_Ok _ _ _ (Hf p) H).
Qed.

Lemma parseTerm_mono n m p r :
  parseTerm n p = Ok r -> (n <= m)%nat -> parseTerm m p = Ok r.
Proof.
  intros H Hle. destruct (parse_fuel_mono n m Hle) as (_ & _ & Ht & _).
  exact (refines_Ok _ _ _ (Ht p) H).
Qed.

Lemma parseTerm_loop_mono n m node p r :
  parseTerm_loop n node p = Ok r -> (n <= m)%nat ->
  parseTerm_loop m node p = Ok r.
Proof.
  intros H Hle. destruct (parse_fuel_mono n m Hle) as (_ & _ & _ & Ht & _).
  exact (refines_Ok _ _ _ (Ht node p) H).
Qed.

Lemma parseExpression_mono n m p r :
  parseExpression n p = Ok r -> (n <= m)%nat -> parseExpression m p = Ok r.
Proof.
  intros H Hle. destruct (parse_fuel_mono n m Hle) as (He & _).
  exact (refines_Ok _ _ _ (He p) H).
Qed.

Lemma parseExpression_loop_mono n m node p r :
  parseExpression_loop n node p = Ok r -> (n <= m)%nat ->
  parseExpression_loop m node p = Ok r.
Proof.
  intros H Hle. destruct (parse_fuel_mono n m Hle) as (_ & He & _).
  exact (refines_Ok _ _ _ (He node p) H).
Qed.

Lemma constant_binary op l r vl vr v :
  constant l vl -> constant r vr ->
  (forall libm seq vars,
     evaluate libm seq (BinaryOpNode op (NumberNode vl) (NumberNode vr)) vars
     = (vars, Ok v)) ->
  constant (BinaryOpNode op l r) v.
Proof.
  intros Hl Hr Hop libm seq vars. specialize (Hop libm seq vars).
  simpl in *. unfold mbind, Eval_bind in *. rewrite Hl, Hr. exact Hop.
Qed.

(** A term in front of a parser is what [parseTerm] reads before it
    enters its loop again; likewise an expression and [parseExpression];
    a factor is read by [parseFactor]. *)
Lemma parse_grammar :
  (forall ts v, expression_value ts v ->
     forall p rest, ahead p (ts ++ rest) ->
       is_multiplicative (next_type rest) = false ->
       exists node p', ahead p' rest /\ constant node v /\
         forall k res, parseExpression_loop k node p' = Ok res ->
                       exists n, parseExpression n p = Ok res) /\
  (forall ts v, term_value ts v ->
     forall p rest, ahead p (ts ++ rest) ->
       exists node p', ahead p' rest /\ constant node v /\
         forall k res, parseTerm_loop k node p' = Ok res ->
                       exists n, parseTerm n p = Ok res) /\
  (forall ts v, factor_value ts v ->
     forall p rest, ahead p (ts ++ rest) ->
       exists node p' n, parseFactor n p = Ok (node, p') /\
         ahead p' rest /\ constant node v).
Proof.
  apply grammar_ind.
  - (* expression ::= term *)
    intros ts v _ IH p rest Hp Hrest.
    destruct (IH p rest Hp) as (node & p' & Hp' & Hv & Hk).
    exists node, p'. split; [exact Hp'|]. split; [exact Hv|].
    destruct (Hk 1%nat (node, p')) as (n0 & Hn0).
    { rewrite parseTerm_loop_S, (ahead_type _ _ Hp'), Hrest. reflexivity. }
    intros k res Hres. exists (S (Nat.max n0 k)).
    rewrite parseExpression_S.
    rewrite (parseTerm_mono _ (Nat.max n0 k) _ _ Hn0) by lia. simpl.
    apply (parseExpression_loop_mono _ _ _ _ _ Hres). lia.
  - (* expression ::= expression + term *)
    intros ts1 ts2 v1 v2 _ IH1 _ IH2 p rest Hp Hrest.
    rewrite <- app_assoc in Hp. simpl in Hp.
    destruct (IH1 p _ Hp eq_refl) as (node1 & p1 & Hp1 & Hv1 & Hk1).
    destruct (consume_ahead PLUS _ _ _ Hp1 eq_refl) as (p2 & Hc & Hp2).
    destruct (IH2 p2 rest Hp2) as (node2 & p2' & Hp2' & Hv2 & Hk2).
    destruct (Hk2 1%nat (node2, p2')) as (n2 & Hn2).
    { rewrite parseTerm_loop_S, (ahead_type _ _ Hp2'), Hrest. reflexivity. }
    exists (BinaryOpNode PLUS node1 node2), p2'.
    split; [exact Hp2'|]. split.
    { apply (constant_binary _ _ _ v1 v2); auto. }
    intros k res Hres. apply (Hk1 (S (Nat.max n2 k))).
    rewrite parseExpression_loop_S, (ahead_type _ _ Hp1). simpl.
    rewrite Hc. simpl.
    rewrite (parseTerm_mono _ (Nat.max n2 k) _ _ Hn2) by lia. simpl.
    apply (parseExpression_loop_mono _ _ _ _ _ Hres). lia.
  - (* expression ::= expression - term *)
    intros ts1 ts2 v1 v2 _ IH1 _ IH2 p rest Hp Hrest.
    rewrite <- app_assoc in Hp. simpl in Hp.
    destruct (IH1 p _ Hp eq_refl) as (node1 & p1 & Hp1 & Hv1 & Hk1).
    destruct (consume_ahead MINUS _ _ _ Hp1 eq_refl) as (p2 & Hc & Hp2).
    destruct (IH2 p2 rest Hp2) as (node2 & p2' & Hp2' & Hv2 & Hk2).
    destruct (Hk2 1%nat (node2, p2')) as (n2 & Hn2).
    { rewrite parseTerm_loop_S, (ahead_type _ _ Hp2'), Hrest. reflexivity. }
    exists (BinaryOpNode MINUS node1 node2), p2'.
    split; [exact Hp2'|]. split.
    { apply (constant_binary _ _ _ v1 v2); auto. }
    intros k res Hres. apply (Hk1 (S (Nat.max n2 k))).
    rewrite parseExpression_loop_S, (ahead_type _ _ Hp1). simpl.
    rewrite Hc. simpl.
    rewrite (parseTerm_mono _ (Nat.max n2 k) _ _ Hn2) by lia. simpl.
    apply (parseExpression_loop_mono _ _ _ _ _ Hres). lia.
  - (* term ::= factor *)
    intros ts v _ IH p rest Hp.
    destruct (IH p rest Hp) as (node & p' & n0 & Hn0 & Hp' & Hv).
    exists node, p'. split; [exact Hp'|]. split; [exact Hv|].
    intros k res Hres. exists (S (Nat.max n0 k)).
    rewrite parseTerm_S.
    rewrite (parseFactor_mono _ (Nat.max n0 k) _ _ Hn0) by lia. simpl.
    apply (parseTerm_loop_mono _ _ _ _ _ Hres). lia.
  - (* term ::= term * factor *)
    intros ts1 ts2 v1 v2 _ IH1 _ IH2 p rest Hp.
    rewrite <- app_assoc in Hp. simpl in Hp.
    destruct (IH1 p _ Hp) as (node1 & p1 & Hp1 & Hv1 & Hk1).
    destruct (consume_ahead MULTIPLY _ _ _ Hp1 eq_refl) as (p2 & Hc & Hp2).
    destruct (IH2 p2 rest Hp2) as (node2 & p2' & n2 & Hn2 & Hp2' & Hv2).
    exists (BinaryOpNode MULTIPLY node1 node2), p2'.
    split; [exact Hp2'|]. split.
    { apply (constant_binary _ _ _ v1 v2); auto. }
    intros k res Hres. apply (Hk1 (S (Nat.max n2 k))).
    rewrite parseTerm_loop_S, (ahead_type _ _ Hp1). simpl.
    rewrite Hc. simpl.
    rewrite (parseFactor_mono _ (Nat.max n2 k) _ _ Hn2) by lia. simpl.
    apply (parseTerm_loop_mono _ _ _ _ _ Hres). lia.
  - (* term ::= term / factor *)
    intros ts1 ts2 v1 v2 _ IH1 _ IH2 p rest Hp.
    rewrite <- app_assoc in Hp. simpl in Hp.
    destruct (IH1 p _ Hp) as (node1 & p1 & Hp1 & Hv1 & Hk1).
    destruct (consume_ahead DIVIDE _ _ _ Hp1 eq_refl) as (p2 & Hc & Hp2).
    destruct (IH2 p2 rest Hp2) as (node2 & p2' & n2 & Hn2 & Hp2' & Hv2).
    exists (BinaryOpNode DIVIDE node1 node2), p2'.
    split; [exact Hp2'|]. split.
    { apply (constant_binary _ _ _ v1 v2); auto. }
    intros k res Hres. apply (Hk1 (S (Nat.max n2 k))).
    rewrite parseTerm_loop_S, (ahead_type _ _ Hp1). simpl.
    rewrite Hc. simpl.
    rewrite (parseFactor_mono _ (Nat.max n2 k) _ _ Hn2) by lia. simpl.
    apply (parseTerm_loop_mono _ _ _ _ _ Hres). lia.
  - (* factor ::= number *)
    intros text v Hstod p rest Hp.
    change (ahead p (mkToken NUMBER text :: rest)) in Hp.
    destruct (consume_ahead NUMBER _ _ _ Hp eq_refl) as (p' & Hc & Hp').
    exists (NumberNode v), p', 1%nat. split; [|split; [exact Hp'|]].
    + rewrite parseFactor_S, (ahead_type _ _ Hp). simpl.
      destruct Hp as (-> & _). simpl. rewrite Hstod. simpl.
      rewrite Hc. reflexivity.
    + intros libm seq vars. reflexivity.
  - (* factor ::= - factor *)
    intros ts v _ IH p rest Hp.
    change (ahead p (Token1 MINUS :: ts ++ rest)) in Hp.
    destruct (consume_ahead MINUS _ _ _ Hp eq_refl) as (p1 & Hc & Hp1).
    destruct (IH p1 rest Hp1) as (node & p' & n & Hn & Hp' & Hv).
    exists (UnaryOpNode MINUS node), p', (S n). split; [|split; [exact Hp'|]].
    + rewrite parseFactor_S, (ahead_type _ _ Hp). simpl.
      rewrite Hc. simpl. rewrite Hn. reflexivity.
    + intros libm seq vars. simpl. unfold mbind, Eval_bind.
      rewrite Hv. reflexivity.
  - (* factor ::= ( expression ) *)
    intros ts v _ IH p rest Hp.
    rewrite <- app_comm_cons, <- app_assoc in Hp.
    change (ahead p (Token1 LPAREN :: ts ++ Token1 RPAREN :: rest)) in Hp.
    destruct (consume_ahead LPAREN _ _ _ Hp eq_refl) as (p1 & Hc & Hp1).
    destruct (IH p1 _ Hp1 eq_refl) as (node & p2 & Hp2 & Hv & Hk).
    destruct (Hk 1%nat (node, p2)) as (n & Hn).
    { rewrite parseExpression_loop_S, (ahead_type _ _ Hp2). reflexivity. }
    destruct (consume_ahead RPAREN _ _ _ Hp2 eq_refl) as (p' & Hc' & Hp').
    exists node, p', (S n). split; [|split; [exact Hp'|exact Hv]].
    rewrite parseFactor_S, (ahead_type _ _ Hp). simpl.
    rewrite Hc. simpl. rewrite Hn. simpl. rewrite Hc'. reflexivity.
Qed.

Lemma tokenize_upto_enough n : forall input,
  (String.length input < n)%nat -> tokenize_upto n input <> OutOfFuel.
Proof.
  induction n as [|n IH]; intros input Hlen; [lia|]. simpl.
  pose proof (getNextToken_not_OutOfFuel input) as Hf.
  destruct (getNextToken input) as [[tok unread]| |] eqn:E;
    [|discriminate|contradiction].
  simpl. destruct (decide (type tok = END)); [discriminate|].
  apply getNextToken_length in E as [[? _]|[_ Hlt]]; [contradiction|].
  specialize (IH unread ltac:(lia)).
  destruct (tokenize_upto n unread); simpl; first [discriminate | contradiction].
Qed.

Lemma parse_arithmetic line ts v :
  tokenize line = Ok ts -> expression_value ts v ->
  exists node, parse line = Ok node /\ constant node v.
Proof.
  intros Hts Hv.
  destruct (Parser_init_ahead _ _ Hts) as (p & Hinit & Hp).
  rewrite <- (app_nil_r ts) in Hp.
  destruct (proj1 parse_grammar ts v Hv p [] Hp eq_refl)
    as (node & p' & Hp' & Hnode & Hk).
  destruct (Hk 1%nat (node, p')) as (n & Hn).
  { rewrite parseExpression_loop_S, (ahead_type _ _ Hp'). reflexivity. }
  exists node. split; [|exact Hnode].
  exact (parse_from_fuel _ _ _ _ _ Hinit Hn).
Qed.

(** C2.  Whenever the tokens of a line form an arithmetic expression of
    the textbook grammar (numbers, [+ - * /], unary minus, parentheses; no
    variables), [calculate] returns the value that grammar gives it, that
    is, the floating-point computation with [* /] above [+ -], unary
    minus above both, parentheses overriding and binary operators
    associating to the left, and it leaves the variables alone; through
    the driver's ["Ans = "] prefix the same value is returned and stored
    in [Ans].  In particular [1 + 2 * 3] is 7, [(1 + 2) * 3] is 9,
    [2 - 3 - 4] is -5 and [--3] is 3. *)
Theorem arithmetic_matches_grammar :
  (forall line, tokenize line <> OutOfFuel) /\
  (forall libm seq line ts v vars,
     tokenize line = Ok ts -> expression_value ts v ->
     calculate libm seq line vars = (vars, Ok v) /\
     calculate libm seq ("Ans = " +:+ line) vars
       = (<["Ans" := v]> vars, Ok v)) /\
  (forall libm seq vars,
     calculate libm seq "1 + 2 * 3" vars = (vars, Ok 7%float) /\
     calculate libm seq "(1 + 2) * 3" vars = (vars, Ok 9%float) /\
     calculate libm seq "2 - 3 - 4" vars = (vars, Ok (-5)%float) /\
     calculate libm seq "--3" vars = (vars, Ok 3%float)).
Proof.
  split; [|split].
  - intros line. apply tokenize_upto_enough. lia.
  - intros libm seq line ts v vars Hts Hv.
    destruct (parse_arithmetic _ _ _ Hts Hv) as (node & Hparse & Hnode).
    split.
    + unfold calculate. rewrite Hparse. apply Hnode.
    + rewrite calculate_Ans_prefix, Hparse, evaluate_AssignmentNode, Hnode.
      reflexivity.
  - intros libm seq vars. repeat split; vm_compute; reflexivity.
Qed.

Lemma arithmetic_matches_grammar_witness :
  calculate libm_stub left_to_right "2 - 3 - 4" initial_variables
  = (initial_variables, Ok (2 - 3 - 4)%float).
Proof.
  apply (proj1 (proj2 arithmetic_matches_grammar) libm_stub left_to_right
           "2 - 3 - 4"
           ([mkToken NUMBER "2"] ++ Token1 MINUS :: [mkToken NUMBER "3"]
            ++ Token1 MINUS :: [mkToken NUMBER "4"])
           (2 - 3 - 4)%float initial_variables).
  - reflexivity.
  - apply (value_minus ([mkToken NUMBER "2"] ++ Token1 MINUS
                          :: [mkToken NUMBER "3"]) [mkToken NUMBER "4"]).
    + apply (value_minus [mkToken NUMBER "2"] [mkToken NUMBER "3"]).
      * apply value_term, value_factor, value_number. reflexivity.
      * apply value_factor, value_number. reflexivity.
    + apply value_factor, value_number. reflexivity.
Defined.

(** ** The order in which assignments are committed *)

Lemma replay_app log log' vars :
  replay (log ++ log') vars = replay log' (replay log vars).
Proof. unfold replay. apply fold_left_app. Qed.

Lemma logs_ret {A} (a : A) : logs (mret a) (mret a) [].
Proof. intros vars. simpl. repeat split; auto. Qed.

Lemma logs_throw {A} e T : logs (A := A) (logging (throw e)) (throw e) T.
Proof.
  intros vars. simpl. repeat split; auto.
  - apply prefix_nil.
  - discriminate.
Qed.

Lemma logs_read name : logs (logging (read_variable name)) (read_variable name) [].
Proof.
  intros vars. unfold logging, read_variable.
  destruct (vars !! name); repeat split; auto.
Qed.

Lemma logs_write name val :
  logs (write_variable_logging name val) (write_variable name val) [name].
Proof. intros vars. simpl. repeat split; auto. Qed.

Lemma logs_bind {A B} (m : Logging A) (e : Eval A) (k : A -> Logging B)
    (k' : A -> Eval B) T1 T2 T :
  logs m e T1 -> (forall a, logs (k a) (k' a) T2) -> T = T1 ++ T2 ->
  logs (m ≫= k) (e ≫= k') T.
Proof.
  intros Hm Hk -> vars. specialize (Hm vars).
  unfold mbind, Logging_bind, Eval_bind.
  destruct (m vars) as [[vars1 log1] [a|err|]];
    destruct Hm as (-> & Hv1 & Hp1 & Hok1).
  - specialize (Hk a vars1).
    destruct (k a vars1) as [[vars2 log2] r2].
    destruct Hk as (-> & Hv2 & Hp2 & Hok2).
    rewrite map_app, replay_app, <- Hv1, (Hok1 eq_refl).
    repeat split; auto.
    + apply prefix_app, Hp2.
    + intros Hr. rewrite (Hok2 Hr). reflexivity.
  - repeat split; auto.
    + apply prefix_app_r, Hp1.
    + discriminate.
  - repeat split; auto.
    + apply prefix_app_r, Hp1.
    + discriminate.
Qed.

Lemma logs_operands order (l r : Logging float) (el er : Eval float) f Tl Tr :
  logs l el Tl -> logs r er Tr ->
  logs (operands_logging order l r f) (operands order el er f)
       (in_order order Tl Tr).
Proof.
  intros Hl Hr. destruct order; simpl.
  - eapply logs_bind; [exact Hl| |reflexivity]. intros lval.
    eapply logs_bind; [exact Hr| |symmetry; apply app_nil_r]. intros rval.
    apply logs_ret.
  - eapply logs_bind; [exact Hr| |reflexivity]. intros rval.
    eapply logs_bind; [exact Hl| |symmetry; apply app_nil_r]. intros lval.
    apply logs_ret.
Qed.

(** What [evaluate] leaves is the replay of what it committed, and it
    commits in the order of its walk. *)
Lemma evaluate_logging_logs libm seq node :
  logs (evaluate_logging libm seq node) (evaluate libm seq node)
       (walk_targets seq node).
Proof.
  induction node as [value|name|name value IH|f args IH|op operand IH
                    |op l r IHl IHr] using ASTNode_nested_ind; simpl.
  - apply logs_ret.
  - apply logs_read.
  - eapply logs_bind; [exact IH| |reflexivity]. intros val.
    eapply logs_bind; [apply logs_write| |reflexivity]. intros _.
    apply logs_ret.
  - destruct args as [|a0 [|a1 [|a2 args]]]; try apply logs_throw.
    + apply Forall_cons in IH as [IH0 _].
      destruct (first_match f (unary_functions libm)); [|apply logs_throw].
      eapply logs_bind; [exact IH0| |reflexivity]. intros x. apply logs_ret.
    + apply Forall_cons in IH as [IH0 IH1].
      apply Forall_cons in IH1 as [IH1 _].
      repeat case_match;
        first [apply logs_throw | apply logs_operands; assumption].
  - eapply logs_bind; [exact IH| |symmetry; apply app_nil_r]. intros val.
    destruct op; first [apply logs_ret | apply logs_throw].
  - eapply logs_bind; [exact IHl| |reflexivity]. intros lval.
    eapply logs_bind; [exact IHr| |symmetry; apply app_nil_r]. intros rval.
    destruct op; first [apply logs_ret | apply logs_throw].
Qed.

Lemma walk_targets_first_argument_first seq node :
  first_argument_first seq -> walk_targets seq node = targets node.
Proof.
  intros (Hlog & Hpow & Hmod).
  induction node as [value|name|name value IH|f args IH|op operand IH
                    |op l r IHl IHr] using ASTNode_nested_ind; simpl;
    try congruence.
  assert (Hflat : flat_map (walk_targets seq) args = flat_map targets args).
  { induction IH as [|a args Ha _ IHargs]; simpl; congruence. }
  destruct args as [|a0 [|a1 [|a2 args]]]; try exact Hflat.
  simpl in Hflat. rewrite !app_nil_r in Hflat.
  rewrite Hlog, Hpow, Hmod. simpl. rewrite ?app_nil_r.
  repeat case_match; exact Hflat.
Qed.

Lemma walk_targets_no_binary_call seq node :
  no_binary_call node -> walk_targets seq node = targets node.
Proof.
  induction node as [value|name|name value IH|f args IH|op operand IH
                    |op l r IHl IHr] using ASTNode_nested_ind; simpl;
    try tauto.
  - intros H. rewrite IH; auto.
  - intros [Hlen Hargs].
    assert (Hflat : flat_map (walk_targets seq) args = flat_map targets args).
    { clear Hlen.
      induction IH as [|a args Ha _ IHargs]; simpl in *; [reflexivity|].
      destruct Hargs as [H0 Hargs]. rewrite Ha, IHargs; auto. }
    destruct args as [|a0 [|a1 [|a2 args]]]; try exact Hflat.
    simpl in Hlen. congruence.
  - intros [Hl Hr]. rewrite IHl, IHr; auto.
Qed.

(** ** C4: the order of the commits *)

(** C4, as stated, fails.  With the operands of [/] evaluated from left to
    right, [log(x = 2, y = 8)] evaluates and commits its second argument
    first, and with call arguments evaluated from right to left so does
    [pow(x = 2, y = 3)]: the commits are not in the left-to-right order
    of the sub-expressions. *)
Lemma commit_order_counterexample :
  ~ (forall libm seq node vars,
       let '(_, log, r) := evaluate_logging libm seq node vars in
       is_Ok r = true -> map fst log = targets node) /\
  (let node := FunctionCallNode "log"
                 [AssignmentNode "x" (NumberNode 2);
                  AssignmentNode "y" (NumberNode 8)] in
   parse "log(x = 2, y = 8)" = Ok node /\
   targets node = ["x"; "y"] /\
   snd (fst (evaluate_logging libm_stub left_to_right node initial_variables))
     = [("y", 8%float); ("x", 2%float)]) /\
  (let node := FunctionCallNode "pow"
                 [AssignmentNode "x" (NumberNode 2);
                  AssignmentNode "y" (NumberNode 3)] in
   parse "pow(x = 2, y = 3)" = Ok node /\
   targets node = ["x"; "y"] /\
   snd (fst (evaluate_logging libm_stub right_to_left_calls node
               initial_variables))
     = [("y", 3%float); ("x", 2%float)]).
Proof.
  split; [|split].
  - intros H.
    specialize (H libm_stub left_to_right
                  (FunctionCallNode "log"
                     [AssignmentNode "x" (NumberNode 2);
                      AssignmentNode "y" (NumberNode 8)])
                  initial_variables).
    vm_compute in H. specialize (H eq_refl). discriminate H.
  - repeat split; vm_compute; reflexivity.
  - repeat split; vm_compute; reflexivity.
Qed.

(** C4, amended.  The variables [evaluate] leaves are the replay, in
    order, of the assignments it has committed, and these are committed
    in the order of its walk through the tree ([walk_targets]): an
    assignment after those of its right-hand side, the left operand of a
    binary operator before the right one, and the two arguments of [log],
    [pow] and [mod] as the compiler sequences the operands of the source
    expression, where [log] names its second argument first.  A failing
    evaluation commits a prefix of that order.  The walk is the
    left-to-right order of the sub-expressions when the compiler evaluates
    first arguments first, and for every tree without a call of two
    arguments. *)
Theorem commits_follow_the_walk :
  (forall libm seq node vars,
     let '(vars', log, r) := evaluate_logging libm seq node vars in
     evaluate libm seq node vars = (vars', r) /\
     vars' = replay log vars /\
     map fst log `prefix_of` walk_targets seq node /\
     (is_Ok r = true -> map fst log = walk_targets seq node)) /\
  (forall seq node,
     first_argument_first seq \/ no_binary_call node ->
     walk_targets seq node = targets node) /\
  (forall seq arg0 arg1,
     walk_targets seq (FunctionCallNode "log" [arg0; arg1]) =
       in_order (log_operands seq)
         (walk_targets seq arg1) (walk_targets seq arg0) /\
     walk_targets seq (FunctionCallNode "pow" [arg0; arg1]) =
       in_order (pow_arguments seq)
         (walk_targets seq arg0) (walk_targets seq arg1) /\
     walk_targets seq (FunctionCallNode "mod" [arg0; arg1]) =
       in_order (mod_arguments seq)
         (walk_targets seq arg0) (walk_targets seq arg1)).
Proof.
  split; [|split].
  - intros libm seq node vars. apply evaluate_logging_logs.
  - intros seq node [H|H].
    + apply walk_targets_first_argument_first, H.
    + apply walk_targets_no_binary_call, H.
  - intros seq arg0 arg1. repeat split.
Qed.

Lemma commits_follow_the_walk_witness :
  no_binary_call (BinaryOpNode PLUS (AssignmentNode "x" (NumberNode 1))
                    (AssignmentNode "y" (NumberNode 2))) /\
  walk_targets left_to_right
    (BinaryOpNode PLUS (AssignmentNode "x" (NumberNode 1))
       (AssignmentNode "y" (NumberNode 2))) = ["x"; "y"].
Proof.
  split; [simpl; tauto|].
  apply (proj1 (proj2 commits_follow_the_walk) left_to_right
           (BinaryOpNode PLUS (AssignmentNode "x" (NumberNode 1))
              (AssignmentNode "y" (NumberNode 2)))).
  right. simpl. tauto.
Defined.

(** ** C5: what a failing evaluation leaves behind *)

(** C5, as stated, fails on its example: in [x = 5 + y] the right-hand
    side throws before the assignment to [x] is made, so [x] is not
    bound; and neither is it when the line goes through the driver's
    ["Ans = "]. *)
Lemma no_rollback_counterexample :
  (exists vars,
     calculate libm_stub left_to_right "x = 5 + y" initial_variables
       = (vars, Throw (runtime_error "Undefined variable: y")) /\
     vars !! "x" = None) /\
  (exists vars,
     calculate libm_stub left_to_right "Ans = x = 5 + y" initial_variables
       = (vars, Throw (runtime_error "Undefined variable: y")) /\
     vars !! "x" = None).
Proof.
  split; eexists; (split; [vm_compute; reflexivity|reflexivity]).
Qed.

(** C5, amended.  However an evaluation ends, the variables it leaves are
    the replay of every assignment it has committed: nothing is rolled
    back when it throws.  An assignment whose right-hand side throws is
    not committed.  So [(x = 5) + y] with [y] undefined throws and leaves
    [x] bound to 5, while [x = 5 + y] throws and leaves the variables as
    they were. *)
Theorem committed_assignments_survive :
  (forall libm seq node vars,
     let '(vars', log, r) := evaluate_logging libm seq node vars in
     evaluate libm seq node vars = (vars', r) /\ vars' = replay log vars) /\
  (forall libm seq name value vars vars1 e,
     evaluate libm seq value vars = (vars1, Throw e) ->
     evaluate libm seq (AssignmentNode name value) vars = (vars1, Throw e)) /\
  (forall libm seq,
     calculate libm seq "(x = 5) + y" initial_variables
       = (<["x" := 5%float]> initial_variables,
          Throw (runtime_error "Undefined variable: y")) /\
     calculate libm seq "x = 5 + y" initial_variables
       = (initial_variables, Throw (runtime_error "Undefined variable: y"))).
Proof.
  split; [|split].
  - intros libm seq node vars.
    pose proof (evaluate_logging_logs libm seq node vars) as H.
    destruct (evaluate_logging libm seq node vars) as [[vars' log] r].
    destruct H as (H1 & H2 & _). split; assumption.
  - intros libm seq name value vars vars1 e H.
    rewrite evaluate_AssignmentNode, H. reflexivity.
  - intros libm seq. split; vm_compute; reflexivity.
Qed.

Lemma committed_assignments_survive_witness :
  evaluate libm_stub left_to_right (VariableNode "y") initial_variables
    = (initial_variables, Throw (runtime_error "Undefined variable: y")) /\
  evaluate libm_stub left_to_right
    (AssignmentNode "x" (VariableNode "y")) initial_variables
    = (initial_variables, Throw (runtime_error "Undefined variable: y")).
Proof.
  split; [vm_compute; reflexivity|].
  apply (proj1 (proj2 committed_assignments_survive) libm_stub left_to_right
           "x" (VariableNode "y") initial_variables initial_variables).
  vm_compute; reflexivity.
Defined.

(** ** C6: calls outside the table of built-in functions *)

Lemma unary_functions_names libm :
  map fst (unary_functions libm) = unary_names.
Proof. reflexivity. Qed.

Lemma first_match_None {F} name (table : list (string * F)) :
  ~ In name (map fst table) -> first_match name table = None.
Proof.
  induction table as [|[n f] table IH]; simpl; intros H; [reflexivity|].
  unfold first_match; fold (@first_match F).
  destruct (String.eqb_spec name n) as [->|Hne]; [tauto|].
  apply IH. tauto.
Qed.

Lemma first_match_Some {F} name (table : list (string * F)) :
  In name (map fst table) -> exists f, first_match name table = Some f.
Proof.
  induction table as [|[n f] table IH]; simpl; intros H; [contradiction|].
  unfold first_match; fold (@first_match F).
  destruct (String.eqb_spec name n) as [->|Hne]; [eauto|].
  apply IH. destruct H; congruence.
Qed.

Lemma evaluate_unknown_function libm seq f args vars :
  ~ built_in f (length args) ->
  evaluate libm seq (FunctionCallNode f args) vars
  = (vars, Throw (runtime_error ("Unknown function: " +:+ f))).
Proof.
  unfold built_in. intros H.
  destruct args as [|a0 [|a1 [|a2 args]]]; simpl; try reflexivity.
  - rewrite first_match_None; [reflexivity|].
    rewrite unary_functions_names. simpl in H. tauto.
  - assert (Hn : ~ In f binary_names) by (simpl in H; tauto).
    simpl in Hn.
    destruct (String.eqb_spec f "log") as [->|_]; [tauto|].
    destruct (String.eqb_spec f "pow") as [->|_]; [tauto|].
    destruct (String.eqb_spec f "mod") as [->|_]; [tauto|].
    reflexivity.
Qed.

Lemma operands_constant libm seq order l r vl vr f vars :
  constant l vl -> constant r vr ->
  operands order (evaluate libm seq l) (evaluate libm seq r) f vars
  = (vars, Ok (f vl vr)).
Proof.
  intros Hl Hr. destruct order; simpl; unfold mbind, Eval_bind;
    rewrite ?Hl, ?Hr; rewrite ?Hl, ?Hr; reflexivity.
Qed.

Lemma evaluate_built_in libm seq f args vars :
  built_in f (length args) ->
  Forall (fun a => exists v, constant a v) args ->
  exists v, evaluate libm seq (FunctionCallNode f args) vars = (vars, Ok v).
Proof.
  intros [[Hlen Hin]|[Hlen Hin]] Hargs.
  - destruct args as [|a0 [|a1 args]]; try discriminate.
    apply Forall_cons in Hargs as [[v0 H0] _].
    rewrite <- (unary_functions_names libm) in Hin.
    destruct (first_match_Some _ _ Hin) as (g & Hg).
    exists (g v0). simpl. rewrite Hg. unfold mbind, Eval_bind.
    rewrite H0. reflexivity.
  - destruct args as [|a0 [|a1 [|a2 args]]]; try discriminate.
    apply Forall_cons in Hargs as [[v0 H0] Hargs].
    apply Forall_cons in Hargs as [[v1 H1] _].
    simpl in Hin.
    destruct Hin as [<-|[<-|[<-|[]]]]; simpl;
      erewrite operands_constant by eassumption; eauto.
Qed.

(** C6, as stated, fails: the message of the exception is
    ["Unknown function: "] and the name, without the arity -- [pow] with
    one argument and [pow] with three throw the same exception -- and the
    table has 19 functions of one argument, not 18. *)
Lemma unknown_function_counterexample :
  (exists node,
     parse "pow(2)" = Ok node /\
     evaluate libm_stub left_to_right node initial_variables
       = (initial_variables, Throw (runtime_error "Unknown function: pow")) /\
     has_char isdigit "Unknown function: pow" = false) /\
  (exists node,
     parse "pow(2, 2, 2)" = Ok node /\
     evaluate libm_stub left_to_right node initial_variables
       = (initial_variables, Throw (runtime_error "Unknown function: pow"))) /\
  length (unary_functions libm_stub) = 19%nat.
Proof.
  split; [|split].
  - eexists. split; [vm_compute; reflexivity|].
    split; vm_compute; reflexivity.
  - eexists. split; vm_compute; reflexivity.
  - reflexivity.
Qed.

(** C6, amended.  The one-argument branch knows the 19 names of
    [unary_names], the two-argument branch [log], [pow] and [mod].  A call
    whose name and number of arguments are not in this table throws
    [std::runtime_error] with the message ["Unknown function: "] followed
    by the name (the arity is not part of it) and evaluates none of its
    arguments; a call that is in the table evaluates its arguments and,
    when they are constants, returns.  In particular [pow(2)] throws
    ["Unknown function: pow"]. *)
Theorem unknown_function_error :
  (forall libm, map fst (unary_functions libm) = unary_names) /\
  length unary_names = 19%nat /\
  (forall libm seq f args vars,
     ~ built_in f (length args) ->
     evaluate libm seq (FunctionCallNode f args) vars
     = (vars, Throw (runtime_error ("Unknown function: " +:+ f)))) /\
  (forall libm seq f args vars,
     built_in f (length args) ->
     Forall (fun a => exists v, constant a v) args ->
     exists v, evaluate libm seq (FunctionCallNode f args) vars
               = (vars, Ok v)) /\
  (forall libm seq vars,
     calculate libm seq "pow(2)" vars
     = (vars, Throw (runtime_error "Unknown function: pow"))).
Proof.
  split; [|split; [|split; [|split]]].
  - apply unary_functions_names.
  - reflexivity.
  - apply evaluate_unknown_function.
  - apply evaluate_built_in.
  - intros libm seq vars. vm_compute. reflexivity.
Qed.

Lemma unknown_function_error_witness :
  ~ built_in "pow" 1 /\
  evaluate libm_stub left_to_right
    (FunctionCallNode "pow" [NumberNode 2]) initial_variables
  = (initial_variables, Throw (runtime_error "Unknown function: pow")).
Proof.
  assert (H : ~ built_in "pow" (length [NumberNode 2])).
  { unfold built_in. simpl. intros [[_ H]|[H _]]; [|discriminate].
    repeat (destruct H as [H|H]; [discriminate|]). exact H. }
  split; [exact H|].
  exact (proj1 (proj2 (proj2 unknown_function_error)) libm_stub left_to_right
           "pow" [NumberNode 2] initial_variables H).
Defined.

(** ** C7: the command tokenizer *)

Lemma flush_app current ts ts' :
  flush current (ts ++ ts') = flush current ts ++ ts'.
Proof. destruct current; reflexivity. Qed.

(** The loop of the source against the recursion of the specification,
    from corresponding states. *)
Lemma divide_loop_split_terms input : forall d,
  divide_end (divide_loop d input) =
  (ts ← split_terms (quoting_of d) (escape d) (term d) input;
   Ok (terms d ++ ts)).
Proof.
  induction input as [|c rest IH]; intros [ts t q qc e].
  - unfold divide_end, quoting_of. simpl. destruct q; [reflexivity|].
    destruct t; simpl; [rewrite app_nil_r|]; reflexivity.
  - simpl divide_loop. rewrite IH. clear IH.
    unfold divide_char, quoting_of. simpl.
    destruct e; [reflexivity|].
    destruct (c =? "\")%char; [reflexivity|].
    destruct (is_quote c); simpl.
    + destruct q; [|reflexivity].
      destruct (c =? qc)%char; reflexivity.
    + destruct q; simpl; [rewrite andb_false_r; reflexivity|].
      rewrite andb_true_r. destruct (c =? " ")%char; [|reflexivity].
      destruct t as [|a t]; simpl.
      * destruct (split_terms Unquoted false EmptyString rest); reflexivity.
      * destruct (split_terms Unquoted false EmptyString rest); simpl;
          [rewrite <- app_assoc|..]; reflexivity.
Qed.

Lemma commandsDivide_refines line : commandsDivide line = commandsDivide_spec line.
Proof.
  destruct line as [|c rest]; [reflexivity|].
  assert (H : commandsDivide (String ":" rest)
              = commandsDivide_spec (String ":" rest)).
  { change (commandsDivide (String ":" rest))
      with (divide_end (divide_loop divider_init rest)).
    rewrite divide_loop_split_terms. simpl.
    destruct (split_terms _ _ _ rest); reflexivity. }
  destruct (Ascii.eqb_spec c ":") as [->|Hc]; [exact H|].
  destruct c as [[] [] [] [] [] [] [] []];
    first [reflexivity | exfalso; apply Hc; reflexivity].
Qed.

Lemma chars_push_back c s : chars (push_back c s) = chars s ++ [c].
Proof.
  unfold chars, push_back. induction s as [|a s IH]; simpl; [reflexivity|].
  rewrite IH. reflexivity.
Qed.

Lemma flat_map_chars_flush current ts :
  flat_map chars (flush current ts) = chars current ++ flat_map chars ts.
Proof. destruct current; reflexivity. Qed.

Lemma Forall_flush current ts :
  Forall (fun t => t <> EmptyString) ts ->
  Forall (fun t => t <> EmptyString) (flush current ts).
Proof. destruct current; simpl; auto. Qed.

(** Terms are never empty, and their characters are characters of the
    input in the order of the input. *)
Lemma split_terms_terms input : forall quoting escaping current ts,
  split_terms quoting escaping current input = Ok ts ->
  Forall (fun t => t <> EmptyString) ts /\
  flat_map chars ts `sublist_of` chars current ++ chars input.
Proof.
  assert (Hskip : forall (c : ascii) l k1 k2,
            l `sublist_of` k1 ++ k2 -> l `sublist_of` k1 ++ c :: k2).
  { intros c l k1 k2 H. etransitivity; [exact H|].
    apply sublist_app; [reflexivity|]. apply sublist_cons. reflexivity. }
  assert (Happ : forall c s k, chars (push_back c s) ++ k = chars s ++ c :: k).
  { intros c s k. rewrite chars_push_back, <- app_assoc. reflexivity. }
  induction input as [|c rest IH]; intros quoting escaping current ts H.
  - simpl in H. destruct quoting; [|discriminate]. inversion H; subst.
    split; [apply Forall_flush; constructor|].
    rewrite flat_map_chars_flush. reflexivity.
  - simpl in H. change (chars (String c rest)) with (c :: chars rest).
    assert (Hkeep : forall q e,
              split_terms q e (push_back c current) rest = Ok ts ->
              Forall (fun t => t <> EmptyString) ts /\
              flat_map chars ts `sublist_of` chars current ++ c :: chars rest).
    { intros q e Hq. apply IH in Hq as [H1 H2]. rewrite Happ in H2. auto. }
    assert (Hdrop : forall q e,
              split_terms q e current rest = Ok ts ->
              Forall (fun t => t <> EmptyString) ts /\
              flat_map chars ts `sublist_of` chars current ++ c :: chars rest).
    { intros q e Hq. apply IH in Hq as [H1 H2]. auto. }
    repeat match type of H with
           | (if ?b then _ else _) = _ => destruct b
           | match ?q with Unquoted => _ | Quoted _ => _ end = _ => destruct q
           end; eauto.
    apply bind_Ok in H as (ts' & Hts' & H). inversion H; subst; clear H.
    apply IH in Hts' as [H1 H2]. split; [apply Forall_flush, H1|].
    rewrite flat_map_chars_flush.
    apply sublist_app; [reflexivity|]. apply sublist_cons. exact H2.
Qed.

(** Outside quotes, characters that are neither quotes nor backslashes
    do not keep the tokenizer from failing on what follows. *)
Lemma split_terms_plain_prefix pre s e :
  has_char (fun c => is_quote c || (c =? "\")%char) pre = false ->
  (forall current, split_terms Unquoted false current s = Throw e) ->
  forall current, split_terms Unquoted false current (pre +:+ s) = Throw e.
Proof.
  unfold has_char, chars. intros Hpre Hs.
  induction pre as [|c pre IH]; intros current; [apply Hs|].
  simpl in Hpre. apply orb_false_elim in Hpre as [Hc Hpre].
  apply orb_false_elim in Hc as [Hq Hb].
  simpl. rewrite Hb, Hq.
  destruct (c =? " ")%char; [|apply IH, Hpre].
  rewrite (IH Hpre). reflexivity.
Qed.

Lemma split_terms_open_quote q body :
  has_char (fun c => (c =? q)%char || (c =? "\")%char) body = false ->
  forall current,
    split_terms (Quoted q) false current body = Throw unclosed_quote.
Proof.
  unfold has_char, chars. intros Hbody.
  induction body as [|c body IH]; intros current; [reflexivity|].
  simpl in Hbody. apply orb_false_elim in Hbody as [Hc Hbody].
  apply orb_false_elim in Hc as [Hq Hb].
  simpl. rewrite Hb, Hq.
  destruct (is_quote c); apply IH, Hbody.
Qed.

Lemma is_quote_not_backslash q : is_quote q = true -> (q =? "\")%char = false.
Proof.
  unfold is_quote. intros H.
  destruct (q =? "034")%char eqn:E1.
  { apply Ascii.eqb_eq in E1. subst. reflexivity. }
  destruct (q =? "'")%char eqn:E2; [|discriminate].
  apply Ascii.eqb_eq in E2. subst. reflexivity.
Qed.

(** C7.  [commandsDivide] is the tokenizer of the specification: on every
    line it returns what the five rules, tried in priority order, return
    ([commandsDivide_spec]).  Its terms are never empty, and their
    characters are characters of the line in the order of the line, so
    the terms come in the order in which they are written.  The call
    throws "Unclosed quote in input string." exactly when its loop ends
    with a quote open, as it does whenever a quote character that follows
    unquoted, unescaped text is not followed by the same quote character
    (nor by a backslash).  In particular [:file "a b.txt" 'c.txt'] splits
    into [file], [a b.txt], [c.txt]. *)
Theorem commandsDivide_splits :
  (forall line, commandsDivide line = commandsDivide_spec line) /\
  (forall line ts, commandsDivide line = Ok ts ->
     Forall (fun t => t <> EmptyString) ts /\
     flat_map chars ts `sublist_of` chars line) /\
  (forall remaining,
     commandsDivide (String ":" remaining) = Throw unclosed_quote <->
     in_quotes (divide_loop divider_init remaining) = true) /\
  (forall pre q body,
     has_char (fun c => is_quote c || (c =? "\")%char) pre = false ->
     is_quote q = true ->
     has_char (fun c => (c =? q)%char || (c =? "\")%char) body = false ->
     commandsDivide (":" +:+ pre +:+ String q body) = Throw unclosed_quote) /\
  commandsDivide
    (":file " +:+ String "034" ("a b.txt" +:+ String "034" " 'c.txt'"))
  = Ok ["file"; "a b.txt"; "c.txt"].
Proof.
  split; [|split; [|split; [|split]]].
  - apply commandsDivide_refines.
  - intros line ts H. rewrite commandsDivide_refines in H.
    destruct line as [|c rest]; [inversion H; subst; split; constructor|].
    destruct (Ascii.eqb_spec c ":") as [->|Hc].
    + apply split_terms_terms in H as [H1 H2]. split; [exact H1|].
      apply sublist_cons. exact H2.
    + assert (ts = []) as ->.
      { destruct c as [[] [] [] [] [] [] [] []];
          first [inversion H; reflexivity | exfalso; apply Hc; reflexivity]. }
      split; [constructor|apply sublist_nil_l].
  - intros remaining. unfold commandsDivide.
    destruct (in_quotes (divide_loop divider_init remaining)).
    + split; reflexivity.
    + split; [|discriminate]. destruct (negb _); discriminate.
  - intros pre q body Hpre Hq Hbody. rewrite commandsDivide_refines.
    change (":" +:+ pre +:+ String q body)
      with (String ":" (pre +:+ String q body)).
    unfold commandsDivide_spec.
    apply split_terms_plain_prefix; [exact Hpre|].
    intros current. simpl. rewrite (is_quote_not_backslash q Hq), Hq.
    apply split_terms_open_quote, Hbody.
  - vm_compute. reflexivity.
Qed.

Lemma commandsDivide_splits_witness :
  commandsDivide (":" +:+ "f " +:+ String "034" "abc") = Throw unclosed_quote.
Proof.
  apply (proj1 (proj2 (proj2 (proj2 commandsDivide_splits))) "f " "034"%char
           "abc"); reflexivity.
Defined.

(** ** C8: the depth cap *)

Section DepthCap.
Context (libm : Libm) (seq : Sequencing) (fs : Files) (opts : Options).

Lemma source_files_not_OutOfFuel nested paths :
  (forall lines s, snd (nested lines s) <> OutOfFuel) ->
  forall s, snd (source_files fs nested paths s) <> OutOfFuel.
Proof.
  intros Hnested. induction paths as [|path paths IH]; intros s; simpl.
  - discriminate.
  - destruct (fs path) as [lines|]; [|apply IH].
    specialize (Hnested lines s).
    destruct (nested lines s) as [s' [[]|e|]]; simpl in *;
      first [apply IH | discriminate | contradiction].
Qed.

(** The driver on a command line. *)
Lemma process_lines_command nested write l stream s :
  process_lines libm seq fs opts nested write (String ":" l :: stream) s =
  let s := emit_if write Prompt s in
  match commandsDivide (String ":" l) with
  | Ok [] =>
      if negb (once opts) || negb write
      then process_lines libm seq fs opts nested write stream s
      else (s, Ok tt)
  | Ok (command :: paths) =>
      if String.eqb command "e" || String.eqb command "exit"
      then (s, Ok tt)
      else
        let s :=
          if String.eqb command "h" || String.eqb command "help"
          then emit_if write Help s else s in
        if String.eqb command "f" || String.eqb command "file"
        then
          let '(s, r) := source_files fs nested paths s in
          match r with
          | Ok _ =>
              if negb (once opts) || negb write
              then process_lines libm seq fs opts nested write stream s
              else (s, Ok tt)
          | _ => (s, r)
          end
        else
          if negb (once opts) || negb write
          then process_lines libm seq fs opts nested write stream s
          else (s, Ok tt)
  | Throw e => (s, Throw e)
  | OutOfFuel => (s, OutOfFuel)
  end.
Proof. reflexivity. Qed.

Lemma process_lines_not_OutOfFuel nested write stream :
  (forall lines s, snd (nested lines s) <> OutOfFuel) ->
  forall s, snd (process_lines libm seq fs opts nested write stream s)
            <> OutOfFuel.
Proof.
  intros Hnested. induction stream as [|line stream IH]; intros s.
  - simpl. discriminate.
  - assert (Hnext : forall s',
              snd ((if negb (once opts) || negb write
                    then process_lines libm seq fs opts nested write stream s'
                    else (s', Ok tt))) <> OutOfFuel).
    { intros s'. destruct (negb (once opts) || negb write);
        [apply IH|discriminate]. }
    destruct line as [|c l]; [apply Hnext|].
    destruct (Ascii.eqb_spec c ":") as [->|Hc].
    + rewrite process_lines_command.
      cbv zeta.
      assert (Hdiv : commandsDivide (String ":" l) <> OutOfFuel).
      { unfold commandsDivide. repeat case_match; discriminate. }
      destruct (commandsDivide (String ":" l)) as [[|command paths]|e|];
        [apply Hnext| |simpl; discriminate|contradiction].
      destruct (String.eqb command "e" || String.eqb command "exit");
        [simpl; discriminate|].
      destruct (String.eqb command "f" || String.eqb command "file");
        [|apply Hnext].
      match goal with
      | |- context [source_files fs nested paths ?s0] =>
          pose proof (source_files_not_OutOfFuel nested paths Hnested s0) as Hs;
          destruct (source_files fs nested paths s0) as [s' [[]|e|]]
      end; simpl in *; first [apply Hnext | discriminate | contradiction].
    + rewrite process_lines_bare;
        [apply Hnext | discriminate | intros l' H; congruence].
Qed.

Lemma process_S fuel stream write depth s :
  process libm seq fs opts (S fuel) stream write depth s =
  if (MAX_DEPTH <? depth)%Z then (s, Ok tt)
  else process_lines libm seq fs opts
         (fun lines => process libm seq fs opts fuel lines false (depth + 1))
         write stream s.
Proof. reflexivity. Qed.

(** With [MAX_DEPTH + 2 - depth] units of fuel (and one at least)
    [process] returns or throws, whatever the files contain. *)
Lemma process_fuel_enough fuel : forall stream write depth s,
  (1 <= fuel)%nat -> (MAX_DEPTH + 2 - depth <= Z.of_nat fuel)%Z ->
  snd (process libm seq fs opts fuel stream write depth s) <> OutOfFuel.
Proof.
  induction fuel as [|fuel IH]; intros stream write depth s Hone Hfuel;
    [lia|].
  rewrite process_S.
  destruct (MAX_DEPTH <? depth)%Z eqn:Hd; [simpl; discriminate|].
  apply Z.ltb_ge in Hd.
  apply process_lines_not_OutOfFuel. intros lines s'.
  unfold MAX_DEPTH in *. apply IH; lia.
Qed.

(** A command line that cannot be tokenized: the exception leaves the
    loop, and the call. *)
Lemma process_lines_command_throws nested write l stream s e :
  commandsDivide (String ":" l) = Throw e ->
  process_lines libm seq fs opts nested write (String ":" l :: stream) s
  = (emit_if write Prompt s, Throw e).
Proof. intros H. rewrite process_lines_command, H. reflexivity. Qed.

Lemma source_files_refines nested nested' paths :
  (forall lines s, refines_run (nested lines s) (nested' lines s)) ->
  forall s, refines_run (source_files fs nested paths s)
                        (source_files fs nested' paths s).
Proof.
  intros Hn. induction paths as [|path paths IH]; intros s; simpl.
  - intros _. reflexivity.
  - destruct (fs path) as [lines|]; [|apply IH].
    specialize (Hn lines s). unfold refines_run in Hn.
    destruct (nested lines s) as [s1 [[]|e|]]; simpl in *.
    + rewrite Hn by discriminate. apply IH.
    + rewrite Hn by discriminate. intros _. reflexivity.
    + intros H. contradiction.
Qed.

Lemma process_lines_refines nested nested' write stream :
  (forall lines s, refines_run (nested lines s) (nested' lines s)) ->
  forall s,
    refines_run (process_lines libm seq fs opts nested write stream s)
                (process_lines libm seq fs opts nested' write stream s).
Proof.
  intros Hn. induction stream as [|line stream IH]; intros s.
  - intros _. reflexivity.
  - assert (Hnext : forall s',
              refines_run
                (if negb (once opts) || negb write
                 then process_lines libm seq fs opts nested write stream s'
                 else (s', Ok tt))
                (if negb (once opts) || negb write
                 then process_lines libm seq fs opts nested' write stream s'
                 else (s', Ok tt))).
    { intros s'. destruct (negb (once opts) || negb write); [apply IH|].
      intros _. reflexivity. }
    destruct line as [|c l]; [apply Hnext|].
    destruct (Ascii.eqb_spec c ":") as [->|Hc].
    + rewrite !process_lines_command. cbv zeta.
      destruct (commandsDivide (String ":" l)) as [[|command paths]|e|];
        [apply Hnext| |intros _; reflexivity|intros _; reflexivity].
      destruct (String.eqb command "e" || String.eqb command "exit");
        [intros _; reflexivity|].
      destruct (String.eqb command "f" || String.eqb command "file");
        [|apply Hnext].
      match goal with
      | |- context [source_files fs nested paths ?s0] =>
          pose proof (source_files_refines nested nested' paths Hn s0) as Hs;
          unfold refines_run in Hs;
          destruct (source_files fs nested paths s0) as [s1 [[]|e|]]
      end; simpl in *.
      * rewrite Hs by discriminate. apply Hnext.
      * rewrite Hs by discriminate. intros _. reflexivity.
      * intros H. contradiction.
    + rewrite !process_lines_bare;
        [apply Hnext | discriminate | intros l' H; congruence
        | discriminate | intros l' H; congruence].
Qed.

(** More fuel does not change what [process] does. *)
Lemma process_fuel_mono fuel : forall fuel' stream write depth s,
  (fuel <= fuel')%nat ->
  refines_run (process libm seq fs opts fuel stream write depth s)
              (process libm seq fs opts fuel' stream write depth s).
Proof.
  induction fuel as [|fuel IH]; intros fuel' stream write depth s Hle.
  - intros H. simpl in H. contradiction.
  - destruct fuel' as [|fuel']; [lia|]. rewrite !process_S.
    destruct (MAX_DEPTH <? depth)%Z; [intros _; reflexivity|].
    apply process_lines_refines. intros lines s'. apply IH. lia.
Qed.

End DepthCap.

Lemma startup_files_not_OutOfFuel libm seq fs opts paths : forall s,
  snd (startup_files libm seq fs opts paths s) <> OutOfFuel.
Proof.
  induction paths as [|path paths IH]; intros s; simpl; [discriminate|].
  destruct (fs path) as [lines|]; [|apply IH].
  pose proof (process_fuel_enough libm seq fs opts process_fuel lines false 0 s
                ltac:(vm_compute; lia) ltac:(vm_compute; discriminate)) as H.
  destruct (process _ _ _ _ _ _ _ _ _) as [s' [[]|e|]]; simpl in *;
    first [apply IH | discriminate | contradiction].
Qed.

Lemma main_not_OutOfFuel libm seq fs opts stdin :
  snd (main libm seq fs opts stdin) <> OutOfFuel.
Proof.
  unfold main. destruct (exit opts); [simpl; discriminate|].
  pose proof (startup_files_not_OutOfFuel libm seq fs opts (files opts)
                {| variables := <["Ans" := 0%float]> ∅; written := [] |}) as H.
  destruct (startup_files _ _ _ _ _ _) as [s' [[]|e|]]; simpl in *;
    first [discriminate | contradiction | idtac].
  apply process_fuel_enough; vm_compute; first [lia | discriminate].
Qed.

(** C8.  A call of [process] at a depth above [MAX_DEPTH] = 128 returns
    at once: it reads no line, writes nothing and changes no variable.
    Hence nesting is bounded: whatever the files contain, and so for a
    file that sources itself or a cycle of files, [process] and [main]
    return or throw (the model's fuel, [MAX_DEPTH + 2 - depth] units, is
    never exhausted, and more fuel changes nothing).  A file that sources itself is run at the depths 1
    to 128 and silently not at depth 129; likewise two files that source
    each other. *)
Theorem sourcing_is_depth_limited :
  (forall libm seq fs opts fuel stream write depth s,
     (MAX_DEPTH < depth)%Z ->
     process libm seq fs opts (S fuel) stream write depth s = (s, Ok tt)) /\
  (forall libm seq fs opts fuel stream write depth s,
     (1 <= fuel)%nat -> (MAX_DEPTH + 2 - depth <= Z.of_nat fuel)%Z ->
     snd (process libm seq fs opts fuel stream write depth s) <> OutOfFuel) /\
  (forall libm seq fs opts fuel fuel' stream write depth s,
     (1 <= fuel)%nat -> (MAX_DEPTH + 2 - depth <= Z.of_nat fuel)%Z ->
     (fuel <= fuel')%nat ->
     process libm seq fs opts fuel' stream write depth s
     = process libm seq fs opts fuel stream write depth s) /\
  (forall libm seq fs opts stdin,
     snd (main libm seq fs opts stdin) <> OutOfFuel) /\
  (forall libm seq,
     exists s,
       process libm seq self_sourcing default_options process_fuel
         ["n = 0"; ":f a"] false 0 initial_session = (s, Ok tt) /\
       variables s !! "n" = Some 128%float /\ written s = []) /\
  (forall libm seq,
     exists s,
       process libm seq cycle_of_two default_options process_fuel
         ["n = 0"; ":file a"] false 0 initial_session = (s, Ok tt) /\
       variables s !! "n" = Some 128%float /\ written s = []).
Proof.
  split; [|split; [|split; [|split; [|split]]]].
  - intros libm seq fs opts fuel stream write depth s Hd.
    rewrite process_S. apply Z.ltb_lt in Hd. rewrite Hd. reflexivity.
  - intros libm seq fs opts fuel stream write depth s.
    apply process_fuel_enough.
  - intros libm seq fs opts fuel fuel' stream write depth s H1 Hf Hle.
    apply (process_fuel_mono libm seq fs opts fuel fuel'); [exact Hle|].
    apply process_fuel_enough; assumption.
  - apply main_not_OutOfFuel.
  - intros libm seq. eexists. split; [vm_compute; reflexivity|].
    split; reflexivity.
  - intros libm seq. eexists. split; [vm_compute; reflexivity|].
    split; reflexivity.
Qed.

Lemma sourcing_is_depth_limited_witness :
  (MAX_DEPTH < 129)%Z /\
  process libm_stub left_to_right self_sourcing default_options 1
    [":f a"; "n = n + 1"] false 129 initial_session
  = (initial_session, Ok tt).
Proof.
  split; [reflexivity|].
  apply (proj1 sourcing_is_depth_limited libm_stub left_to_right
           self_sourcing default_options 0%nat [":f a"; "n = n + 1"] false
           129%Z initial_session).
  reflexivity.
Defined.

(** ** C1: errors and the session *)

(** The [try] block completes whatever the line is: every exception of
    [calculate] is caught (and reported). *)
Lemma evaluate_line_returns libm seq write line s :
  snd (evaluate_line libm seq write line s) = Ok tt.
Proof.
  pose proof (evaluate_line_not_OutOfFuel libm seq write line s) as H.
  unfold evaluate_line in *.
  destruct (calculate _ _ _ _) as [vars [v|e|]]; simpl in *;
    first [reflexivity | contradiction].
Qed.

(** C1 fails on command lines.  [commandsDivide] is called outside the
    [try] block, so when it throws (an unclosed quote) nothing catches
    the exception: it leaves [process], every [process] that sourced the
    file, and [main]; nothing is reported and no further line is read.
    The lines that are not commands do go through the [try] block, which
    always completes.  The session of the two lines [unclosed_command] and
    [1 + 2] ends on its first line, and so does the session that sources
    a file with that command in its second line; the session [1 +],
    [1 + 2] reports the first line and answers the second. *)
Theorem command_error_ends_session :
  (forall libm seq fs opts fuel l stream write depth s e,
     (depth <= MAX_DEPTH)%Z ->
     commandsDivide (String ":" l) = Throw e ->
     process libm seq fs opts (S fuel) (String ":" l :: stream) write depth s
     = (emit_if write Prompt s, Throw e)) /\
  (forall libm seq write line s,
     snd (evaluate_line libm seq write line s) = Ok tt) /\
  (forall libm seq,
     main libm seq no_files default_options [unclosed_command; "1 + 2"]
     = ({| variables := initial_variables; written := [Prompt] |},
        Throw (runtime_error "Unclosed quote in input string."))) /\
  (forall libm seq,
     main libm seq bad_file default_options [":f bad"; "1 + 2"]
     = ({| variables := <["Ans" := 1%float]>
                          (<["x" := 1%float]> initial_variables);
           written := [Prompt] |},
        Throw (runtime_error "Unclosed quote in input string."))) /\
  (forall libm seq,
     main libm seq no_files default_options ["1 +"; "1 + 2"]
     = ({| variables := <["Ans" := 3%float]> initial_variables;
           written := [Prompt; Error "Unexpected token: "; Prompt;
                       Answer 3%float; Prompt] |},
        Ok tt)).
Proof.
  split; [|split; [|split; [|split]]].
  - intros libm seq fs opts fuel l stream write depth s e Hd He.
    rewrite process_S. apply Z.ltb_ge in Hd. rewrite Hd.
    apply process_lines_command_throws, He.
  - apply evaluate_line_returns.
  - intros libm seq. vm_compute. reflexivity.
  - intros libm seq. vm_compute. reflexivity.
  - intros libm seq. vm_compute. reflexivity.
Qed.

Lemma command_error_ends_session_witness :
  process libm_stub left_to_right no_files default_options 1
    [unclosed_command; "1 + 2"] true 0 initial_session
  = (emit_if true Prompt initial_session,
     Throw (runtime_error "Unclosed quote in input string.")).
Proof.
  apply (proj1 command_error_ends_session libm_stub left_to_right no_files
           default_options 0%nat ("f " +:+ String "034" "abc") ["1 + 2"]
           true 0%Z initial_session); [discriminate|reflexivity].
Defined.

(** ** C10: numbers with several dots *)

(** [take_run] takes the longest run. *)
Lemma take_run_spec p input :
  input = fst (take_run p input) +:+ snd (take_run p input) /\
  all_chars p (fst (take_run p input)) = true /\
  starts_with p (snd (take_run p input)) = false.
Proof.
  unfold all_chars, chars.
  induction input as [|c input (IH1 & IH2 & IH3)]; simpl; [auto|].
  destruct (p c) eqn:Hc.
  - destruct (take_run p input) as [run rest]; simpl in *.
    rewrite Hc, IH2, IH3. repeat split.
    change (String c input = String c (run +:+ rest)). congruence.
  - simpl. rewrite Hc. auto.
Qed.

Lemma take_run_app p run tail :
  all_chars p run = true -> starts_with p tail = false ->
  take_run p (run +:+ tail) = (run, tail).
Proof.
  unfold all_chars, chars. intros Hrun Htail.
  induction run as [|c run IH]; simpl in *.
  - destruct tail as [|c tail]; [reflexivity|]. simpl in *.
    rewrite Htail. reflexivity.
  - apply andb_prop in Hrun as [Hc Hrun]. rewrite Hc, (IH Hrun). reflexivity.
Qed.

Lemma getNextToken_number input ch rest :
  skip_spaces input = String ch rest -> is_num_char ch = true ->
  getNextToken input =
  Ok (mkToken NUMBER (fst (take_run is_num_char (String ch rest))),
      snd (take_run is_num_char (String ch rest))).
Proof.
  intros Hs Hch. unfold getNextToken. rewrite Hs, Hch.
  destruct (take_run is_num_char (String ch rest)); reflexivity.
Qed.

(** [stod] converts the longest prefix of the form digits, dot, digits
    and does not look at what follows it. *)
Lemma stod_ignores_tail int_part frac_part tail :
  all_chars isdigit int_part = true ->
  all_chars isdigit frac_part = true ->
  starts_with isdigit tail = false ->
  stod (int_part +:+ "." +:+ frac_part +:+ tail)
  = stod (int_part +:+ "." +:+ frac_part).
Proof.
  intros Hint Hfrac Htail.
  assert (Hprefix : forall t, starts_with isdigit t = false ->
            stod_prefix (int_part +:+ "." +:+ frac_part +:+ t)
            = if ((String.length int_part + String.length frac_part)%nat =? 0)%nat
              then None else Some (int_part, frac_part)).
  { intros t Ht. unfold stod_prefix.
    rewrite (take_run_app isdigit int_part ("." +:+ frac_part +:+ t) Hint)
      by reflexivity.
    change ("." +:+ frac_part +:+ t) with (String "."%char (frac_part +:+ t)).
    cbv beta iota zeta.
    rewrite (take_run_app isdigit frac_part t Hfrac Ht). reflexivity. }
  unfold stod. rewrite (Hprefix tail Htail).
  replace (int_part +:+ "." +:+ frac_part)
    with (int_part +:+ "." +:+ frac_part +:+ EmptyString).
  - rewrite (Hprefix EmptyString eq_refl). reflexivity.
  - f_equal. change (String "."%char (frac_part +:+ EmptyString)
                     = String "."%char frac_part). f_equal.
    clear. induction frac_part as [|c s IH]; [reflexivity|].
    change (String c (s +:+ EmptyString) = String c s). congruence.
Qed.

(** ** C9: the character [^] *)

Lemma getNextToken_never_POW input tok unread :
  getNextToken input = Ok (tok, unread) -> type tok <> POW.
Proof.
  unfold getNextToken. intros H.
  repeat match type of H with
         | match ?x with _ => _ end = _ => destruct x
         end;
    inversion H; subst; discriminate.
Qed.

Lemma getNextToken_caret input rest :
  skip_spaces input = String "^" rest ->
  getNextToken input = Throw (runtime_error "Unexpected character: ^").
Proof. intros H. unfold getNextToken. rewrite H. reflexivity. Qed.

Lemma skip_spaces_caret r post :
  skip_spaces (r +:+ String "^" post) = skip_spaces r +:+ String "^" post.
Proof.
  induction r as [|c r IH]; [reflexivity|].
  change (String c r +:+ String "^" post) with (String c (r +:+ String "^" post)).
  simpl. destruct (isspace c); [exact IH|reflexivity].
Qed.

Lemma take_run_caret p r post :
  p "^"%char = false ->
  take_run p (r +:+ String "^" post) =
  (fst (take_run p r), snd (take_run p r) +:+ String "^" post).
Proof.
  intros Hp. induction r as [|c r IH].
  - simpl. rewrite Hp. reflexivity.
  - change (String c r +:+ String "^" post)
      with (String c (r +:+ String "^" post)).
    simpl. destruct (p c); [|reflexivity].
    rewrite IH. destruct (take_run p r); reflexivity.
Qed.

(** A token read in front of a [^] is read the same without the [^] and
    what follows it. *)
Lemma getNextToken_cut r post tok unread :
  getNextToken (r +:+ String "^" post) = Ok (tok, unread) ->
  exists r', unread = r' +:+ String "^" post /\ getNextToken r = Ok (tok, r').
Proof.
  unfold getNextToken. rewrite skip_spaces_caret.
  destruct (skip_spaces r) as [|ch rest]; [discriminate|].
  change (String ch rest +:+ String "^" post)
    with (String ch (rest +:+ String "^" post)).
  cbv beta iota.
  change (String ch (rest +:+ String "^" post))
    with (String ch rest +:+ String "^" post).
  rewrite !take_run_caret by reflexivity.
  destruct (take_run is_num_char (String ch rest)) as [num u1].
  destruct (take_run is_ident_char (String ch rest)) as [ident u2].
  simpl fst; simpl snd. intros H.
  repeat match type of H with
         | (if ?b then _ else _) = _ => destruct b
         end;
    inversion H; subst; eauto.
Qed.

Lemma advance_cut post p0 p' :
  advance (extend post p0) = Ok p' ->
  exists p0', p' = extend post p0' /\ advance p0 = Ok p0'.
Proof.
  unfold advance. simpl. intros H.
  apply bind_Ok in H as ([tok unread] & E & H). inversion H; subst; clear H.
  apply getNextToken_cut in E as (r' & -> & E).
  rewrite E. simpl. eexists. split; [|reflexivity]. reflexivity.
Qed.

Lemma consume_cut post ty p0 p' :
  consume ty (extend post p0) = Ok p' ->
  exists p0', p' = extend post p0' /\ consume ty p0 = Ok p0'.
Proof.
  unfold consume. simpl. destruct (decide _); [|discriminate].
  apply advance_cut.
Qed.

(** Replay in the goal the steps recorded in the hypotheses. *)
Ltac replay_steps :=
  rewrite ?parseExpression_S, ?parseExpression_loop_S, ?parseTerm_S,
    ?parseTerm_loop_S, ?parseFactor_S, ?parseFunctionCall_S,
    ?parseArguments_S;
  cbv zeta;
  repeat match goal with
  | H : decide ?P = _ |- context [decide ?P] => rewrite H
  | H : ?lhs = Ok _ |- context [?lhs] =>
      rewrite H; cbv beta iota delta [mbind result_bind]
  | H : ?lhs = true |- context [?lhs] => rewrite H
  | H : ?lhs = false |- context [?lhs] => rewrite H
  | H : type (curtToken ?p) = _ |- context [type (curtToken ?p)] =>
      rewrite H; cbv iota
  end.

(** A parsing function that returns in front of a [^] has not looked at
    it: it returns the same tree without the [^] and what follows. *)
Lemma parse_cut post n :
  (forall p0 node p', parseExpression n (extend post p0) = Ok (node, p') ->
     exists p0', p' = extend post p0' /\
                 parseExpression n p0 = Ok (node, p0')) /\
  (forall node0 p0 node p',
     parseExpression_loop n node0 (extend post p0) = Ok (node, p') ->
     exists p0', p' = extend post p0' /\
                 parseExpression_loop n node0 p0 = Ok (node, p0')) /\
  (forall p0 node p', parseTerm n (extend post p0) = Ok (node, p') ->
     exists p0', p' = extend post p0' /\ parseTerm n p0 = Ok (node, p0')) /\
  (forall node0 p0 node p',
     parseTerm_loop n node0 (extend post p0) = Ok (node, p') ->
     exists p0', p' = extend post p0' /\
                 parseTerm_loop n node0 p0 = Ok (node, p0')) /\
  (forall p0 node p', parseFactor n (extend post p0) = Ok (node, p') ->
     exists p0', p' = extend post p0' /\ parseFactor n p0 = Ok (node, p0')) /\
  (forall f p0 node p',
     parseFunctionCall n f (extend post p0) = Ok (node, p') ->
     exists p0', p' = extend post p0' /\
                 parseFunctionCall n f p0 = Ok (node, p0')) /\
  (forall args0 p0 args p',
     parseArguments n args0 (extend post p0) = Ok (args, p') ->
     exists p0', p' = extend post p0' /\
                 parseArguments n args0 p0 = Ok (args, p0')).
Proof.
  induction n as [|n (IHe & IHel & IHt & IHtl & IHf & IHfc & IHa)].
  { repeat split; intros; discriminate. }
  repeat split; intros; unfold_parse;
    change (curtToken (extend post p0)) with (curtToken p0) in *;
    parse_cases;
    repeat match goal with
    | H : consume _ (extend post _) = Ok _ |- _ =>
        apply consume_cut in H as (? & -> & H)
    | H : parseExpression n (extend post _) = Ok _ |- _ =>
        apply IHe in H as (? & -> & H)
    | H : parseExpression_loop n _ (extend post _) = Ok _ |- _ =>
        apply IHel in H as (? & -> & H)
    | H : parseTerm n (extend post _) = Ok _ |- _ =>
        apply IHt in H as (? & -> & H)
    | H : parseTerm_loop n _ (extend post _) = Ok _ |- _ =>
        apply IHtl in H as (? & -> & H)
    | H : parseFactor n (extend post _) = Ok _ |- _ =>
        apply IHf in H as (? & -> & H)
    | H : parseFunctionCall n _ (extend post _) = Ok _ |- _ =>
        apply IHfc in H as (? & -> & H)
    | H : parseArguments n _ (extend post _) = Ok _ |- _ =>
        apply IHa in H as (? & -> & H)
    | H : context [curtToken (extend post ?p)] |- _ =>
        change (curtToken (extend post p)) with (curtToken p) in H
    end;
    (eexists; split; [reflexivity|]); replay_steps; reflexivity.
Qed.

Lemma parse_before_caret pre post node :
  parse (pre +:+ String "^" post) = Ok node -> parse pre = Ok node.
Proof.
  unfold parse at 1. intros H.
  apply bind_Ok in H as (p & Hp & H).
  apply bind_Ok in H as ([expr p'] & Hexpr & H). inversion H; subst; clear H.
  change (Parser_init (pre +:+ String "^" post))
    with (advance (extend post {| lexer := pre; curtToken := Token1 END |}))
    in Hp.
  apply advance_cut in Hp as (p0 & -> & Hp0).
  apply (proj1 (parse_cut post _)) in Hexpr as (p0' & _ & Hexpr).
  exact (parse_from_fuel pre _ _ _ _ Hp0 Hexpr).
Qed.

(** C9, as stated, fails: [calculate] does not ask that the expression
    ends where the line ends, so in the line [1 2 ^] parsing stops in
    front of [2], the [^] is never read, and the line is answered with
    1 and no error. *)
Lemma caret_counterexample :
  main libm_stub left_to_right no_files default_options ["1 2 ^"]
  = ({| variables := <["Ans" := 1%float]> initial_variables;
        written := [Prompt; Answer 1%float; Prompt] |},
     Ok tt).
Proof. vm_compute. reflexivity. Qed.

(** C9, amended.  No token the lexer returns is POW, and asked for a
    token where the next character that is no blank is [^] it throws
    "Unexpected character: ^".  So a line with a [^] either fails, or is
    evaluated exactly as the text in front of the [^] is, with the same
    value and the same variables: the [^] is never evaluated as
    exponentiation.  The lines [2 ^ 3], [2^] and [^2] fail with
    "Unexpected character: ^". *)
Theorem caret_is_no_token :
  (forall input tok unread,
     getNextToken input = Ok (tok, unread) -> type tok <> POW) /\
  (forall input rest,
     skip_spaces input = String "^" rest ->
     getNextToken input = Throw (runtime_error "Unexpected character: ^")) /\
  (forall libm seq pre post vars vars' v,
     calculate libm seq (pre +:+ String "^" post) vars = (vars', Ok v) ->
     calculate libm seq pre vars = (vars', Ok v)) /\
  (forall libm seq pre post vars vars' v,
     calculate libm seq ("Ans = " +:+ pre +:+ String "^" post) vars
       = (vars', Ok v) ->
     calculate libm seq ("Ans = " +:+ pre) vars = (vars', Ok v)) /\
  (forall libm seq vars,
     calculate libm seq "Ans = 2 ^ 3" vars
       = (vars, Throw (runtime_error "Unexpected character: ^")) /\
     calculate libm seq "Ans = 2^" vars
       = (vars, Throw (runtime_error "Unexpected character: ^")) /\
     calculate libm seq "Ans = ^2" vars
       = (vars, Throw (runtime_error "Unexpected character: ^"))).
Proof.
  assert (Hcut : forall libm seq pre post vars vars' v,
            calculate libm seq (pre +:+ String "^" post) vars = (vars', Ok v) ->
            calculate libm seq pre vars = (vars', Ok v)).
  { intros libm seq pre post vars vars' v. unfold calculate.
    destruct (parse (pre +:+ String "^" post)) as [node| |] eqn:E;
      try discriminate.
    rewrite (parse_before_caret _ _ _ E). auto. }
  split; [|split; [|split; [|split]]].
  - apply getNextToken_never_POW.
  - apply getNextToken_caret.
  - exact Hcut.
  - intros libm seq pre post vars vars' v.
    apply (Hcut libm seq ("Ans = " +:+ pre) post).
  - intros libm seq vars. repeat split; vm_compute; reflexivity.
Qed.

Lemma caret_is_no_token_witness :
  calculate libm_stub left_to_right ("1 2 " +:+ String "^" " 3")
    initial_variables = (initial_variables, Ok 1%float) /\
  calculate libm_stub left_to_right "1 2 " initial_variables
    = (initial_variables, Ok 1%float).
Proof.
  split; [vm_compute; reflexivity|].
  apply (proj1 (proj2 (proj2 caret_is_no_token)) libm_stub left_to_right
           "1 2 " " 3" initial_variables initial_variables 1%float).
  vm_compute. reflexivity.
Defined.

(** * Further properties of the code *)

(** ** The lexer *)

Lemma skip_spaces_split input :
  exists blanks,
    input = blanks +:+ skip_spaces input /\ all_chars isspace blanks = true.
Proof.
  unfold all_chars, chars. induction input as [|c input (b & Hb & Hs)].
  - exists EmptyString. auto.
  - simpl. destruct (isspace c) eqn:Hc.
    + exists (String c b). simpl. rewrite Hc, Hs. split; [|reflexivity].
      change (String c input = String c (b +:+ skip_spaces input)).
      congruence.
    + exists EmptyString. auto.
Qed.

Lemma skip_spaces_blanks blanks input :
  all_chars isspace blanks = true ->
  skip_spaces (blanks +:+ input) = skip_spaces input.
Proof.
  unfold all_chars, chars. induction blanks as [|c b IH]; intros H.
  - reflexivity.
  - simpl in H. apply andb_prop in H as [Hc H].
    change (String c b +:+ input) with (String c (b +:+ input)).
    simpl. rewrite Hc. apply IH, H.
Qed.

(** X1.  The lexer throws exactly when the first character that is no
    blank starts no token (it is neither a digit, a dot, a letter nor one
    of [+ - * / ( ) = ,]), and the exception is "Unexpected character: "
    followed by that character; in particular an underscore cannot start
    an identifier. *)
Theorem lexer_rejects_exactly input e :
  getNextToken input = Throw e <->
  exists ch rest,
    skip_spaces input = String ch rest /\ starts_token ch = false /\
    e = runtime_error ("Unexpected character: " +:+ String ch EmptyString).
Proof.
  unfold getNextToken, starts_token. split.
  - destruct (skip_spaces input) as [|ch rest]; [discriminate|].
    destruct (is_num_char ch) eqn:Hn.
    { destruct (take_run is_num_char (String ch rest)); discriminate. }
    destruct (isalpha ch) eqn:Ha.
    { destruct (take_run is_ident_char (String ch rest)); discriminate. }
    intros H. exists ch, rest. simpl.
    repeat match type of H with
           | (if ?b then _ else _) = _ => destruct b; try discriminate
           end.
    inversion H. rewrite Hn, Ha. auto.
  - intros (ch & rest & -> & Hs & ->).
    apply orb_false_elim in Hs as [Hs Hp].
    apply orb_false_elim in Hs as [Hn Ha]. rewrite Hn, Ha.
    simpl in Hp.
    repeat match type of Hp with
           | (?b || _) = false => apply orb_false_elim in Hp as [?H Hp]
           end.
    repeat match goal with
           | H : (ch =? _)%char = false |- _ => rewrite H; clear H
           end.
    reflexivity.
Qed.

(** X2.  Blanks in front of the input are skipped: with any run of
    whitespace characters put in front, the lexer returns the same token
    and leaves the same text unread; and on blanks alone it returns END
    with nothing left to read. *)
Theorem lexer_skips_blanks blanks input :
  all_chars isspace blanks = true ->
  getNextToken (blanks +:+ input) = getNextToken input /\
  getNextToken blanks = Ok (Token1 END, EmptyString).
Proof.
  intros H. unfold getNextToken. split.
  - rewrite (skip_spaces_blanks _ _ H). reflexivity.
  - assert (Hs : skip_spaces blanks = EmptyString).
    { clear input. unfold all_chars, chars in H.
      induction blanks as [|c b IH]; [reflexivity|]. simpl in *.
      apply andb_prop in H as [Hc H]. rewrite Hc. apply IH, H. }
    rewrite Hs. reflexivity.
Qed.

Lemma lexer_skips_blanks_witness :
  getNextToken ("  " +:+ "12 + x") = getNextToken "12 + x" /\
  getNextToken "  " = Ok (Token1 END, EmptyString).
Proof. apply (lexer_skips_blanks "  " "12 + x"). reflexivity. Defined.

Lemma append_empty_r s : s +:+ EmptyString = s.
Proof.
  induction s as [|c s IH]; [reflexivity|].
  change (String c (s +:+ EmptyString) = String c s). congruence.
Qed.

Lemma append_assoc' a b c : a +:+ (b +:+ c) = (a +:+ b) +:+ c.
Proof.
  induction a as [|x a IH]; [reflexivity|].
  change (String x (a +:+ (b +:+ c)) = String x ((a +:+ b) +:+ c)).
  congruence.
Qed.

Lemma all_chars_head p c s :
  all_chars p (String c s) = true -> p c = true /\ all_chars p s = true.
Proof. unfold all_chars, chars. simpl. apply andb_prop. Qed.

(** X3.  Every token the lexer returns is well formed and was read off
    the front of the input: a NUMBER holds a non-empty run of digits and
    dots, an IDENTIFIER a letter followed by letters, digits and
    underscores, every other token no text, and none is POW; the unread
    text is a suffix of the input, shorter than the input unless the
    token is END, which is returned only with nothing left unread. *)
Theorem lexer_token_well_formed input tok unread :
  getNextToken input = Ok (tok, unread) ->
  token_text_ok tok /\
  (exists consumed, input = consumed +:+ unread) /\
  (type tok = END -> unread = EmptyString) /\
  (type tok <> END -> (String.length unread < String.length input)%nat).
Proof.
  intros H. split; [|split; [|split]].
  - unfold getNextToken in H.
    destruct (skip_spaces input) as [|ch rest];
      [inversion H; reflexivity|].
    destruct (is_num_char ch) eqn:Hn.
    { pose proof (take_run_spec is_num_char (String ch rest)) as (_ & Hr & _).
      destruct (take_run_head is_num_char ch rest Hn) as (run & r & E).
      rewrite E in *. inversion H; subst. simpl in *.
      split; [discriminate|exact Hr]. }
    destruct (isalpha ch) eqn:Ha.
    { assert (Hi : is_ident_char ch = true)
        by (unfold is_ident_char, isalnum; rewrite Ha; reflexivity).
      pose proof (take_run_spec is_ident_char (String ch rest)) as (_ & Hr & _).
      destruct (take_run_head is_ident_char ch rest Hi) as (run & r & E).
      rewrite E in *. inversion H; subst. unfold token_text_ok. simpl in *.
      unfold is_identifier. simpl. rewrite Ha. exact Hr. }
    repeat match type of H with
           | (if ?b then _ else _) = _ => destruct b
           end;
      inversion H; reflexivity.
  - destruct (skip_spaces_split input) as (blanks & Hb & _).
    unfold getNextToken in H.
    destruct (skip_spaces input) as [|ch rest].
    { inversion H as [[Ht Hu]]. exists input. symmetry. apply append_empty_r. }
    assert (Hone : unread = rest -> exists consumed, input = consumed +:+ unread).
    { intros ->. exists (blanks +:+ String ch EmptyString).
      rewrite <- append_assoc'. exact Hb. }
    assert (Hrun : forall p run,
              take_run p (String ch rest) = (run, unread) ->
              exists consumed, input = consumed +:+ unread).
    { intros p run E. pose proof (take_run_spec p (String ch rest)) as (Hr & _).
      rewrite E in Hr. simpl in Hr. exists (blanks +:+ run).
      rewrite <- append_assoc', <- Hr. exact Hb. }
    destruct (is_num_char ch).
    { destruct (take_run is_num_char (String ch rest)) as [run r] eqn:E.
      inversion H; subst tok r. eapply Hrun, E. }
    destruct (isalpha ch).
    { destruct (take_run is_ident_char (String ch rest)) as [run r] eqn:E.
      inversion H; subst tok r. eapply Hrun, E. }
    repeat match type of H with
           | (if ?b then _ else _) = _ => destruct b
           end;
      inversion H; auto.
  - intros Hend. apply getNextToken_length in H as [[_ Hu]|[Hne _]];
      [exact Hu|contradiction].
  - intros Hne. apply getNextToken_length in H as [[Hend _]|[_ Hlt]];
      [contradiction|exact Hlt].
Qed.

Lemma lexer_token_well_formed_witness :
  token_text_ok (mkToken NUMBER "1.2.3") /\
  (exists consumed, " 1.2.3+x" = consumed +:+ "+x") /\
  (type (mkToken NUMBER "1.2.3") = END -> "+x" = EmptyString) /\
  (type (mkToken NUMBER "1.2.3") <> END ->
   (String.length "+x" < String.length " 1.2.3+x")%nat).
Proof.
  apply (lexer_token_well_formed " 1.2.3+x" (mkToken NUMBER "1.2.3") "+x").
  reflexivity.
Defined.

(** ** The parser *)

(** X4.  Text behind a complete expression is not read: when the tokens
    of a line begin with an arithmetic expression of the grammar and the
    token after it is not one of [+ - * /] (a number, a name, a closing
    parenthesis, a comma, an [=]), [calculate] returns the value of that
    expression and reports nothing about the rest. *)
Theorem trailing_tokens_ignored libm seq line ts rest v vars :
  tokenize line = Ok (ts ++ rest) ->
  expression_value ts v ->
  is_additive (next_type rest) = false ->
  is_multiplicative (next_type rest) = false ->
  calculate libm seq line vars = (vars, Ok v).
Proof.
  intros Hts Hv Ha Hm.
  destruct (Parser_init_ahead _ _ Hts) as (p & Hinit & Hp).
  destruct (proj1 parse_grammar ts v Hv p rest Hp Hm)
    as (node & p' & Hp' & Hnode & Hk).
  destruct (Hk 1%nat (node, p')) as (n & Hn).
  { rewrite parseExpression_loop_S, (ahead_type _ _ Hp'), Ha. reflexivity. }
  unfold calculate. rewrite (parse_from_fuel _ _ _ _ _ Hinit Hn).
  apply Hnode.
Qed.

Lemma trailing_tokens_ignored_witness :
  calculate libm_stub left_to_right "1 + 2 3 )" initial_variables
  = (initial_variables, Ok (1 + 2)%float).
Proof.
  apply (trailing_tokens_ignored libm_stub left_to_right "1 + 2 3 )"
           ([mkToken NUMBER "1"] ++ Token1 PLUS :: [mkToken NUMBER "2"])
           [mkToken NUMBER "3"; Token1 RPAREN] (1 + 2)%float
           initial_variables); try reflexivity.
  apply (value_plus [mkToken NUMBER "1"] [mkToken NUMBER "2"]).
  - apply value_term, value_factor, value_number. reflexivity.
  - apply value_factor, value_number. reflexivity.
Defined.

Lemma isalpha_not_space c :
  isalpha c = true -> isspace c = false /\ is_num_char c = false.
Proof.
  destruct c as [[] [] [] [] [] [] [] []]; vm_compute; intros H;
    first [discriminate H | split; reflexivity].
Qed.

Lemma isspace_not_ident c : isspace c = true -> is_ident_char c = false.
Proof.
  destruct c as [[] [] [] [] [] [] [] []]; vm_compute; intros H;
    first [discriminate H | reflexivity].
Qed.

Lemma getNextToken_identifier name rest :
  is_identifier name = true -> starts_with is_ident_char rest = false ->
  getNextToken (name +:+ rest) = Ok (mkToken IDENTIFIER name, rest).
Proof.
  unfold is_identifier. intros Hname Hrest.
  apply andb_prop in Hname as [Hc Hall].
  destruct name as [|c name]; [discriminate|]. simpl in Hc.
  destruct (isalpha_not_space c Hc) as [Hs Hn].
  unfold getNextToken.
  change (String c name +:+ rest) with (String c (name +:+ rest)).
  simpl skip_spaces. rewrite Hs. cbv beta iota. rewrite Hn, Hc.
  change (String c (name +:+ rest)) with (String c name +:+ rest).
  rewrite (take_run_app is_ident_char _ _ Hall Hrest). reflexivity.
Qed.

Lemma getNextToken_equal blanks line :
  all_chars isspace blanks = true ->
  getNextToken (blanks +:+ "=" +:+ line) = Ok (Token1 EQUAL, line).
Proof.
  intros Hb. unfold getNextToken. rewrite (skip_spaces_blanks _ _ Hb).
  reflexivity.
Qed.

Lemma starts_with_blanks_equal blanks line :
  all_chars isspace blanks = true ->
  starts_with is_ident_char (blanks +:+ "=" +:+ line) = false.
Proof.
  intros Hb. destruct blanks as [|c b]; [reflexivity|].
  apply all_chars_head in Hb as [Hc _]. simpl.
  apply isspace_not_ident, Hc.
Qed.

(** An identifier, an [=] and a line parse to the assignment of what the
    line parses to. *)
Lemma parse_assignment name blanks line :
  is_identifier name = true -> all_chars isspace blanks = true ->
  parse (name +:+ blanks +:+ "=" +:+ line) =
  (expr ← parse line; Ok (AssignmentNode name expr)).
Proof.
  intros Hname Hb.
  set (L := name +:+ blanks +:+ "=" +:+ line).
  set (m := parse_fuel line).
  set (pA := {| lexer := blanks +:+ "=" +:+ line;
                curtToken := mkToken IDENTIFIER name |}).
  set (pE := {| lexer := line; curtToken := Token1 EQUAL |}).
  assert (HpA : Parser_init L = Ok pA).
  { unfold Parser_init, advance, L. simpl lexer.
    rewrite (getNextToken_identifier name _ Hname
               (starts_with_blanks_equal _ _ Hb)). reflexivity. }
  assert (H1 : consume IDENTIFIER pA = Ok pE).
  { unfold consume, advance, pA. simpl.
    rewrite (getNextToken_equal _ _ Hb). reflexivity. }
  assert (H2 : consume EQUAL pE = Parser_init line) by reflexivity.
  assert (Hrun : parseExpression (S (S (S m))) pA =
                 (p0 ← Parser_init line;
                  '(rhs, p1) ← parseExpression m p0;
                  Ok (AssignmentNode name rhs, p1))).
  { rewrite parseExpression_S, parseTerm_S, parseFactor_S.
    change (type (curtToken pA)) with IDENTIFIER. cbv iota zeta.
    rewrite H1. cbv beta iota delta [mbind result_bind].
    change (type (curtToken pE)) with EQUAL. cbv iota. rewrite H2.
    destruct (Parser_init line) as [p0| |]; try reflexivity.
    destruct (parseExpression m p0) as [[rhs p1]| |] eqn:E; try reflexivity.
    apply parse_stops in E as [Ha Hm].
    rewrite parseTerm_loop_S, Hm, parseExpression_loop_S, Ha. reflexivity. }
  unfold parse at 1. fold L. rewrite HpA.
  cbv beta iota delta [mbind result_bind].
  rewrite (parse_fuel_refines _ (S (S (S m))) _ HpA).
  - rewrite Hrun. unfold parse. fold m.
    destruct (Parser_init line) as [p0| |]; try reflexivity. simpl.
    destruct (parseExpression m p0) as [[rhs p1]| |]; reflexivity.
  - rewrite Hrun. pose proof (parse_fuel_enough line) as Hf.
    unfold parse in Hf. fold m in Hf.
    destruct (Parser_init line) as [p0| |]; simpl in *; try congruence.
    destruct (parseExpression m p0) as [[rhs p1]| |]; simpl in *; congruence.
Qed.

Lemma parse_identifier name :
  is_identifier name = true -> parse name = Ok (VariableNode name).
Proof.
  intros Hname.
  assert (Hinit : Parser_init name
                  = Ok {| lexer := EmptyString;
                          curtToken := mkToken IDENTIFIER name |}).
  { unfold Parser_init, advance. simpl lexer.
    rewrite <- (append_empty_r name) at 1.
    rewrite (getNextToken_identifier name EmptyString Hname eq_refl).
    reflexivity. }
  apply (parse_from_fuel name 3 _ _
           {| lexer := EmptyString; curtToken := Token1 END |} Hinit).
  reflexivity.
Qed.

(** X5.  In a line of the form name [=] rest, everything behind the [=]
    is the right-hand side: the line evaluates as the rest does, and
    when that succeeds the name is bound to the value on top of what the
    rest itself assigned.  When the rest fails, the line fails the same
    way and the name is not bound by it. *)
Theorem assignment_line libm seq name blanks line vars :
  is_identifier name = true -> all_chars isspace blanks = true ->
  calculate libm seq (name +:+ blanks +:+ "=" +:+ line) vars =
  let '(vars1, r) := calculate libm seq line vars in
  match r with
  | Ok v => (<[name := v]> vars1, Ok v)
  | _ => (vars1, r)
  end.
Proof.
  intros Hname Hb. unfold calculate.
  rewrite (parse_assignment _ _ _ Hname Hb).
  destruct (parse line) as [expr| |];
    cbv beta iota delta [mbind result_bind]; try reflexivity.
  rewrite evaluate_AssignmentNode.
  destruct (evaluate libm seq expr vars) as [vars1 [v|e|]]; reflexivity.
Qed.

Lemma assignment_line_witness :
  calculate libm_stub left_to_right ("x_1" +:+ " " +:+ "=" +:+ " 2 * 3")
    initial_variables =
  let '(vars1, r) :=
    calculate libm_stub left_to_right " 2 * 3" initial_variables in
  match r with
  | Ok v => (<["x_1" := v]> vars1, Ok v)
  | _ => (vars1, r)
  end.
Proof.
  apply (assignment_line libm_stub left_to_right "x_1" " " " 2 * 3");
    reflexivity.
Defined.

(** X6.  What a line assigns to a name can be read back: after a line
    name [=] rest has succeeded with a value, the line that holds just
    the name evaluates to that value and changes nothing. *)
Theorem assign_then_read libm seq name blanks line vars vars' v :
  is_identifier name = true -> all_chars isspace blanks = true ->
  calculate libm seq (name +:+ blanks +:+ "=" +:+ line) vars
    = (vars', Ok v) ->
  calculate libm seq name vars' = (vars', Ok v).
Proof.
  intros Hname Hb H. unfold calculate in *.
  rewrite (parse_assignment _ _ _ Hname Hb) in H.
  rewrite (parse_identifier _ Hname).
  destruct (parse line) as [expr| |];
    cbv beta iota delta [mbind result_bind] in H; try discriminate.
  rewrite evaluate_AssignmentNode in H.
  destruct (evaluate libm seq expr vars) as [vars1 [val|e|]];
    inversion H; subst.
  simpl. unfold read_variable. rewrite lookup_insert_eq. reflexivity.
Qed.

Lemma assign_then_read_witness :
  calculate libm_stub left_to_right "rate" 
    (<["rate" := 0.5%float]> initial_variables)
  = (<["rate" := 0.5%float]> initial_variables, Ok 0.5%float).
Proof.
  apply (assign_then_read libm_stub left_to_right "rate" " " " 1 / 2"
           initial_variables); reflexivity.
Defined.

(** ** Which exceptions a line can raise *)

Lemma bind_Throw {A B} (m : result A) (k : A -> result B) e :
  m ≫= k = Throw e ->
  m = Throw e \/ exists a, m = Ok a /\ k a = Throw e.
Proof.
  destruct m as [a|e'|]; simpl; intros H; try discriminate.
  - right. eauto.
  - left. inversion H. reflexivity.
Qed.

Lemma getNextToken_parse_error input e :
  getNextToken input = Throw e -> parse_error e.
Proof.
  unfold getNextToken. intros H. left.
  repeat match type of H with
         | match ?x with _ => _ end = _ => destruct x; try discriminate
         end.
  inversion H. eauto.
Qed.

Lemma consume_parse_error ty p e : consume ty p = Throw e -> parse_error e.
Proof.
  unfold consume, advance. destruct (decide _).
  - intros H. apply bind_Throw in H as [H|([? ?] & _ & H)];
      [|discriminate]. eapply getNextToken_parse_error, H.
  - intros H. inversion H. right. left. eexists. reflexivity.
Qed.

Lemma stod_parse_error text e : stod text = Throw e -> parse_error e.
Proof.
  unfold stod. intros H. right. right.
  repeat match type of H with
         | match ?x with _ => _ end = _ => destruct x; try discriminate
         end; inversion H; auto.
Qed.

(** Split a throwing run of a parsing function into its steps. *)
Ltac throw_cases :=
  repeat match goal with
  | H : _ ≫= _ = Throw _ |- _ =>
      let a := fresh "a" in
      let E := fresh "E" in
      apply bind_Throw in H as [H|(a & E & H)];
      [|try (match type of a with (_ * _)%type => destruct a as [? ?] end);
        cbv beta iota zeta in H]
  | H : (let _ := _ in _) = Throw _ |- _ => cbv zeta in H
  | H : (if ?b then _ else _) = Throw _ |- _ => destruct b eqn:?
  | H : match type (curtToken ?p) with _ => _ end = Throw _ |- _ =>
      destruct (type (curtToken p)) eqn:?
  | H : Ok _ = Throw _ |- _ => discriminate H
  | H : OutOfFuel = Throw _ |- _ => discriminate H
  end.

(** The parsing functions throw nothing but the four parse errors. *)
Lemma parse_throws n :
  (forall p e, parseExpression n p = Throw e -> parse_error e) /\
  (forall node p e, parseExpression_loop n node p = Throw e ->
     parse_error e) /\
  (forall p e, parseTerm n p = Throw e -> parse_error e) /\
  (forall node p e, parseTerm_loop n node p = Throw e -> parse_error e) /\
  (forall p e, parseFactor n p = Throw e -> parse_error e) /\
  (forall f p e, parseFunctionCall n f p = Throw e -> parse_error e) /\
  (forall args p e, parseArguments n args p = Throw e -> parse_error e).
Proof.
  induction n as [|n (IHe & IHel & IHt & IHtl & IHf & IHfc & IHa)].
  { repeat split; intros; discriminate. }
  repeat split; intros; unfold_parse; throw_cases;
    solve
      [ eauto using consume_parse_error, stod_parse_error
      | match goal with
        | H : Throw _ = Throw _ |- _ =>
            inversion H; right; left; eexists; reflexivity
        end ].
Qed.

Lemma well_formed_arguments args arg :
  fold_right (fun a P => well_formed a /\ P) True args ->
  well_formed arg ->
  fold_right (fun a P => well_formed a /\ P) True (args ++ [arg]).
Proof. induction args as [|a args IH]; simpl; tauto. Qed.

(** The parsing functions build well-formed trees. *)
Lemma parse_well_formed n :
  (forall p node p', parseExpression n p = Ok (node, p') ->
     well_formed node) /\
  (forall node0 p node p', parseExpression_loop n node0 p = Ok (node, p') ->
     well_formed node0 -> well_formed node) /\
  (forall p node p', parseTerm n p = Ok (node, p') -> well_formed node) /\
  (forall node0 p node p', parseTerm_loop n node0 p = Ok (node, p') ->
     well_formed node0 -> well_formed node) /\
  (forall p node p', parseFactor n p = Ok (node, p') -> well_formed node) /\
  (forall f p node p', parseFunctionCall n f p = Ok (node, p') ->
     well_formed node) /\
  (forall args0 p args p', parseArguments n args0 p = Ok (args, p') ->
     fold_right (fun a P => well_formed a /\ P) True args0 ->
     fold_right (fun a P => well_formed a /\ P) True args).
Proof.
  induction n as [|n (IHe & IHel & IHt & IHtl & IHf & IHfc & IHa)].
  { repeat split; intros; discriminate. }
  repeat split; intros; unfold_parse; parse_cases;
    repeat match goal with
    | H : parseExpression n _ = Ok _ |- _ => apply IHe in H
    | H : parseTerm n _ = Ok _ |- _ => apply IHt in H
    | H : parseFactor n _ = Ok _ |- _ => apply IHf in H
    | H : parseFunctionCall n _ _ = Ok _ |- _ => apply IHfc in H
    end;
    solve
      [ simpl; auto
      | eapply IHtl; eassumption
      | simpl; eapply IHa; [eassumption|]; simpl; auto
      | eapply IHel; [eassumption|]; simpl; rewrite ?orb_true_r; auto
      | eapply IHtl; [eassumption|]; simpl;
        match goal with H : is_multiplicative _ = true |- _ => rewrite H end;
        rewrite ?orb_true_r; auto
      | eapply IHel; [eassumption|]; simpl;
        match goal with H : is_additive _ = true |- _ => rewrite H end; auto
      | eapply IHa; [eassumption|]; apply well_formed_arguments; assumption
      | apply well_formed_arguments; assumption ].
Qed.

Lemma Eval_bind_Throw {A B} (m : Eval A) (k : A -> Eval B) vars vars' e :
  (m ≫= k) vars = (vars', Throw e) ->
  m vars = (vars', Throw e) \/
  exists a vars1, m vars = (vars1, Ok a) /\ k a vars1 = (vars', Throw e).
Proof.
  unfold mbind, Eval_bind. destruct (m vars) as [vars1 [a|e'|]]; intros H.
  - right. eauto.
  - left. inversion H. reflexivity.
  - discriminate.
Qed.

Lemma operands_Throw order (l r : Eval float) f vars vars' e :
  operands order l r f vars = (vars', Throw e) ->
  exists vars0 vars1, l vars0 = (vars1, Throw e) \/ r vars0 = (vars1, Throw e).
Proof.
  destruct order; simpl; intros H;
    apply Eval_bind_Throw in H as [H|(a & vars1 & _ & H)]; eauto;
    apply Eval_bind_Throw in H as [H|(b & vars2 & _ & H)]; eauto;
    discriminate.
Qed.

(** A well-formed tree throws nothing but the two evaluation errors. *)
Lemma evaluate_well_formed libm seq node :
  well_formed node ->
  forall vars vars' e,
    evaluate libm seq node vars = (vars', Throw e) -> evaluation_error e.
Proof.
  induction node as [value|name|name value IH|f args IH|op operand IH
                    |op l r IHl IHr] using ASTNode_nested_ind;
    intros Hwf vars vars' e H; simpl in *.
  - discriminate.
  - unfold read_variable in H. destruct (vars !! name); inversion H.
    left. eauto.
  - apply Eval_bind_Throw in H as [H|(a & vars1 & _ & H)]; [eauto|].
    discriminate.
  - assert (Hunknown : forall vars0 : umapsd,
              @throw float (unknown_function f) vars0 = (vars', Throw e) ->
              evaluation_error e).
    { intros vars0 H0. inversion H0. right. eauto. }
    destruct args as [|a0 [|a1 [|a2 args]]]; eauto.
    + apply Forall_cons in IH as [IH0 _]. destruct Hwf as [Hwf0 _].
      destruct (first_match f (unary_functions libm)); eauto.
      apply Eval_bind_Throw in H as [H|(a & vars1 & _ & H)]; [eauto|].
      discriminate.
    + apply Forall_cons in IH as [IH0 IH1].
      apply Forall_cons in IH1 as [IH1 _].
      destruct Hwf as (Hwf0 & Hwf1 & _).
      repeat match type of H with
             | (if ?b then _ else _) _ = _ => destruct b
             end; eauto;
        apply operands_Throw in H as (v0 & v1 & [H|H]); eauto.
  - destruct Hwf as [-> Hwf].
    apply Eval_bind_Throw in H as [H|(a & vars1 & _ & H)]; [eauto|].
    discriminate.
  - destruct Hwf as (Hop & Hwfl & Hwfr).
    apply Eval_bind_Throw in H as [H|(a & vars1 & _ & H)]; [eauto|].
    apply Eval_bind_Throw in H as [H|(b & vars2 & _ & H)]; [eauto|].
    destruct op; discriminate.
Qed.

(** X7.  The parser builds no operator node the evaluator would reject:
    in every tree it returns the unary operators are minus and the binary
    operators are among [+ - * /], so the "Invalid unary operator" and
    "Invalid operator" branches of the evaluator are never taken on a
    parsed line. *)
Theorem parser_builds_well_formed line node :
  parse line = Ok node ->
  well_formed node /\
  forall libm seq vars vars' e,
    evaluate libm seq node vars = (vars', Throw e) ->
    e <> runtime_error "Invalid operator" /\
    e <> runtime_error "Invalid unary operator".
Proof.
  intros H. unfold parse in H.
  apply bind_Ok in H as (p & _ & H).
  apply bind_Ok in H as ([expr p'] & Hexpr & H). inversion H; subst; clear H.
  apply (proj1 (parse_well_formed _)) in Hexpr. split; [exact Hexpr|].
  intros libm seq vars vars' e He.
  destruct (evaluate_well_formed libm seq _ Hexpr _ _ _ He)
    as [[x ->]|[x ->]]; split; discriminate.
Qed.

Lemma parser_builds_well_formed_witness :
  well_formed
    (BinaryOpNode MINUS (UnaryOpNode MINUS (VariableNode "x"))
       (NumberNode 2)) /\
  forall libm seq vars vars' e,
    evaluate libm seq
      (BinaryOpNode MINUS (UnaryOpNode MINUS (VariableNode "x"))
         (NumberNode 2)) vars = (vars', Throw e) ->
    e <> runtime_error "Invalid operator" /\
    e <> runtime_error "Invalid unary operator".
Proof. apply (parser_builds_well_formed "-x - 2"). reflexivity. Defined.

(** X8.  When a line fails, it fails in one of six ways.  Either it did
    not parse, the exception is "Unexpected character: c", "Unexpected
    token: text", or one of the two exceptions of [std::stod], and the
    variables are untouched; or it parsed and the evaluation threw
    "Undefined variable: name" or "Unknown function: name". *)
Theorem calculate_errors libm seq line vars vars' e :
  calculate libm seq line vars = (vars', Throw e) ->
  (parse_error e /\ vars' = vars) \/ evaluation_error e.
Proof.
  unfold calculate, parse. intros H.
  destruct (Parser_init line) as [p|e0|] eqn:Hinit; simpl in H.
  - destruct (parseExpression (parse_fuel line) p) as [[expr p']|e0|] eqn:E;
      simpl in H.
    + right. apply (proj1 (parse_well_formed _)) in E.
      eapply evaluate_well_formed; eassumption.
    + inversion H; subst. left. split; [|reflexivity].
      eapply (proj1 (parse_throws _)), E.
    + discriminate.
  - inversion H; subst. left. split; [|reflexivity].
    unfold Parser_init, advance in Hinit.
    apply bind_Throw in Hinit as [Hinit|([? ?] & _ & Hinit)];
      [|discriminate].
    eapply getNextToken_parse_error, Hinit.
  - discriminate.
Qed.

Lemma calculate_errors_witness :
  (parse_error (runtime_error "Unexpected token: ")
   /\ initial_variables = initial_variables) \/
  evaluation_error (runtime_error "Unexpected token: ").
Proof.
  apply (calculate_errors libm_stub left_to_right "1 +" initial_variables
           initial_variables (runtime_error "Unexpected token: ")).
  reflexivity.
Defined.

(** ** The evaluator and the variables *)

Lemma replay_lookup_notin log : forall vars x,
  ~ In x (map fst log) -> replay log vars !! x = vars !! x.
Proof.
  unfold replay. induction log as [|[y v] log IH]; intros vars x Hx; simpl.
  - reflexivity.
  - simpl in Hx. rewrite IH by tauto. apply lookup_insert_ne. tauto.
Qed.

Lemma replay_lookup_is_Some log : forall (vars : umapsd) x,
  is_Some (vars !! x) -> is_Some (replay log vars !! x).
Proof.
  unfold replay. induction log as [|[y v] log IH]; intros vars x Hx; simpl.
  - exact Hx.
  - apply IH. destruct (decide (y = x)) as [->|Hne].
    + rewrite lookup_insert_eq. eauto.
    + rewrite lookup_insert_ne by exact Hne. exact Hx.
Qed.

Lemma in_order_In order (l r : list string) x :
  In x (in_order order l r) -> In x (l ++ r).
Proof. destruct order; simpl; rewrite !in_app_iff; tauto. Qed.

Lemma walk_targets_In seq node x :
  In x (walk_targets seq node) -> In x (targets node).
Proof.
  induction node as [value|name|name value IH|f args IH|op operand IH
                    |op l r IHl IHr] using ASTNode_nested_ind; simpl; auto.
  - rewrite !in_app_iff. tauto.
  - assert (Hflat : In x (flat_map (walk_targets seq) args) ->
                    In x (flat_map targets args)).
    { clear -IH. induction IH as [|a args Ha _ IHargs]; simpl; [auto|].
      rewrite !in_app_iff. tauto. }
    destruct args as [|a0 [|a1 [|a2 args]]]; try exact Hflat.
    simpl in Hflat. rewrite !app_nil_r in Hflat.
    simpl. rewrite app_nil_r.
    repeat case_match; intros Hin; try apply in_order_In in Hin;
      apply Hflat; rewrite in_app_iff in *; tauto.
  - rewrite !in_app_iff. tauto.
Qed.

Lemma evaluate_replay libm seq node vars :
  exists log,
    fst (evaluate libm seq node vars) = replay log vars /\
    forall x, In x (map fst log) -> In x (targets node).
Proof.
  pose proof (evaluate_logging_logs libm seq node vars) as H.
  destruct (evaluate_logging libm seq node vars) as [[vars' log] r].
  destruct H as (He & Hv & [k Hp] & _). exists log. rewrite He. simpl.
  split; [exact Hv|]. intros x Hx. apply (walk_targets_In seq).
  rewrite Hp. apply in_app_iff. left. exact Hx.
Qed.

(** X9.  An evaluation changes only the variables the tree assigns to:
    whether it returns or throws, every variable that is not an
    assignment target in the tree has the value, or the absence, it had
    before.  A tree without assignments leaves all variables as they
    are; in particular reading an undefined variable does not create
    it. *)
Theorem evaluation_frame libm seq node vars x :
  ~ In x (targets node) ->
  fst (evaluate libm seq node vars) !! x = vars !! x.
Proof.
  intros Hx. destruct (evaluate_replay libm seq node vars) as (log & -> & Hl).
  apply replay_lookup_notin. intros H. apply Hx, Hl, H.
Qed.

Lemma evaluation_frame_witness :
  fst (evaluate libm_stub left_to_right
         (BinaryOpNode PLUS (AssignmentNode "x" (NumberNode 1))
            (VariableNode "y")) initial_variables) !! "y"
  = initial_variables !! "y".
Proof.
  apply (evaluation_frame libm_stub left_to_right
           (BinaryOpNode PLUS (AssignmentNode "x" (NumberNode 1))
              (VariableNode "y")) initial_variables "y").
  simpl. intros [H|[]]. discriminate H.
Defined.

Lemma calculate_is_Some libm seq line vars x :
  is_Some (vars !! x) ->
  is_Some (fst (calculate libm seq line vars) !! x).
Proof.
  intros Hx. unfold calculate. destruct (parse line) as [node| |]; try exact Hx.
  destruct (evaluate_replay libm seq node vars) as (log & -> & _).
  apply replay_lookup_is_Some, Hx.
Qed.

(** X10.  No evaluation removes a variable: a variable that is defined
    before a line is evaluated is defined after it, whether the line
    parses or not and whether its evaluation returns or throws. *)
Theorem variables_stay_defined libm seq line vars x :
  is_Some (vars !! x) ->
  is_Some (fst (calculate libm seq line vars) !! x).
Proof. apply calculate_is_Some. Qed.

Lemma variables_stay_defined_witness :
  is_Some (fst (calculate libm_stub left_to_right "Ans = 1 / y"
                  initial_variables) !! "Ans").
Proof.
  apply (variables_stay_defined libm_stub left_to_right "Ans = 1 / y"
           initial_variables "Ans").
  vm_compute. eauto.
Defined.

Lemma Eval_bind_Ok {A B} (m : Eval A) (k : A -> Eval B) vars vars' b :
  (m ≫= k) vars = (vars', Ok b) ->
  exists a vars1, m vars = (vars1, Ok a) /\ k a vars1 = (vars', Ok b).
Proof.
  unfold mbind, Eval_bind. destruct (m vars) as [vars1 [a|e'|]]; intros H;
    try discriminate. eauto.
Qed.

Lemma operands_Ok order (l r : Eval float) f vars vars' v :
  operands order l r f vars = (vars', Ok v) ->
  exists lv rv varsl varsl' varsr varsr',
    l varsl = (varsl', Ok lv) /\ r varsr = (varsr', Ok rv) /\
    v = f lv rv /\
    ((varsl = vars /\ varsr = varsl' /\ vars' = varsr') \/
     (varsr = vars /\ varsl = varsr' /\ vars' = varsl')).
Proof.
  destruct order; simpl; intros H;
    apply Eval_bind_Ok in H as (a & vars1 & Ha & H);
    apply Eval_bind_Ok in H as (b & vars2 & Hb & H);
    inversion H; subst.
  - exists a, b, vars, vars1, vars1, vars'. auto 10.
  - exists b, a, vars1, vars', vars, vars1. auto 10.
Qed.

Lemma operands_pure order (l r : Eval float) f vars lv rv :
  l vars = (vars, Ok lv) -> r vars = (vars, Ok rv) ->
  operands order l r f vars = (vars, Ok (f lv rv)).
Proof.
  intros Hl Hr. destruct order; simpl; unfold mbind, Eval_bind;
    rewrite ?Hl, ?Hr; rewrite ?Hl, ?Hr; reflexivity.
Qed.

Lemma evaluate_pure libm seq seq' node :
  targets node = [] ->
  forall vars vars' v,
    evaluate libm seq node vars = (vars', Ok v) ->
    vars' = vars /\ evaluate libm seq' node vars = (vars, Ok v).
Proof.
  induction node as [value|name|name value IH|f args IH|op operand IH
                    |op l r IHl IHr] using ASTNode_nested_ind;
    intros Ht vars vars' v H; simpl in *.
  - inversion H; auto.
  - unfold read_variable in *. destruct (vars !! name); inversion H; auto.
  - destruct (targets value); discriminate.
  - destruct args as [|a0 [|a1 [|a2 args]]]; try discriminate.
    + apply Forall_cons in IH as [IH0 _]. simpl in Ht.
      rewrite app_nil_r in Ht.
      destruct (first_match f (unary_functions libm)); [|discriminate].
      apply Eval_bind_Ok in H as (a & vars1 & Ha & H).
      inversion H; subst. destruct (IH0 Ht _ _ _ Ha) as [-> Ha'].
      split; [reflexivity|]. unfold mbind, Eval_bind. rewrite Ha'.
      reflexivity.
    + apply Forall_cons in IH as [IH0 IH1].
      apply Forall_cons in IH1 as [IH1 _]. simpl in Ht.
      rewrite app_nil_r in Ht. apply app_eq_nil in Ht as [Ht0 Ht1].
      assert (Hboth : forall order order' (g : float -> float -> float) swap,
                operands order
                  (evaluate libm seq (if swap : bool then a1 else a0))
                  (evaluate libm seq (if swap then a0 else a1)) g vars
                = (vars', Ok v) ->
                vars' = vars /\
                operands order'
                  (evaluate libm seq' (if swap then a1 else a0))
                  (evaluate libm seq' (if swap then a0 else a1)) g vars
                = (vars, Ok v)).
      { intros order order' g swap Hop.
        apply operands_Ok in Hop
          as (lv & rv & vl & vl' & vr & vr' & Hl & Hr & -> & Hord).
        assert (Hl' : vl' = vl /\
                      evaluate libm seq' (if swap then a1 else a0) vl
                      = (vl, Ok lv))
          by (destruct swap; eauto).
        assert (Hr' : vr' = vr /\
                      evaluate libm seq' (if swap then a0 else a1) vr
                      = (vr, Ok rv))
          by (destruct swap; eauto).
        destruct Hl' as [-> Hl'], Hr' as [-> Hr'].
        assert (vl = vars /\ vr = vars /\ vars' = vars) as (-> & -> & ->)
          by (destruct Hord as [(-> & -> & ->)|(-> & -> & ->)]; auto).
        split; [reflexivity|]. apply operands_pure; assumption. }
      repeat match type of H with
             | (if ?b then _ else _) _ = _ => destruct b
             end; try discriminate.
      * apply (Hboth _ _ _ true H).
      * apply (Hboth _ _ _ false H).
      * apply (Hboth _ _ _ false H).
  - apply Eval_bind_Ok in H as (a & vars1 & Ha & H).
    destruct (IH Ht _ _ _ Ha) as [-> Ha'].
    destruct op; inversion H; subst. split; [reflexivity|].
    unfold mbind, Eval_bind. rewrite Ha'. reflexivity.
  - apply app_eq_nil in Ht as [Htl Htr].
    apply Eval_bind_Ok in H as (a & vars1 & Ha & H).
    apply Eval_bind_Ok in H as (b & vars2 & Hb & H).
    destruct (IHl Htl _ _ _ Ha) as [-> Ha'].
    destruct (IHr Htr _ _ _ Hb) as [-> Hb'].
    unfold mbind, Eval_bind. rewrite Ha', Hb'.
    destruct op; inversion H; subst; auto.
Qed.

(** X11.  The order in which the compiler evaluates the two arguments of
    [log], [pow] and [mod] cannot change the value of a tree without
    assignments: if such a tree evaluates to a value under one order, it
    evaluates to the same value under every other, and the variables are
    left as they were. *)
Theorem value_independent_of_sequencing libm seq seq' node vars vars' v :
  targets node = [] ->
  evaluate libm seq node vars = (vars', Ok v) ->
  vars' = vars /\ evaluate libm seq' node vars = (vars, Ok v).
Proof. intros Ht. apply evaluate_pure, Ht. Qed.

Lemma value_independent_of_sequencing_witness :
  initial_variables = initial_variables /\
  evaluate libm_stub right_to_left_calls
    (FunctionCallNode "pow" [VariableNode "Ans"; NumberNode 2])
    initial_variables
  = (initial_variables, Ok PrimFloat.nan).
Proof.
  apply (value_independent_of_sequencing libm_stub left_to_right
           right_to_left_calls
           (FunctionCallNode "pow" [VariableNode "Ans"; NumberNode 2])
           initial_variables initial_variables PrimFloat.nan);
    reflexivity.
Defined.

Lemma arithmetic_constant node :
  arithmetic node -> exists v, constant node v.
Proof.
  induction node as [value|name|name value IH|f args IH|op operand IH
                    |op l r IHl IHr] using ASTNode_nested_ind;
    simpl; try contradiction.
  - intros _. exists value. intros libm seq vars. reflexivity.
  - intros [-> H]. destruct (IH H) as [v Hv]. exists (- v)%float.
    intros libm seq vars. simpl. unfold mbind, Eval_bind. rewrite Hv.
    reflexivity.
  - intros (Hop & Hl & Hr).
    destruct (IHl Hl) as [vl Hvl]. destruct (IHr Hr) as [vr Hvr].
    destruct op; try discriminate;
      eexists; (eapply constant_binary; [exact Hvl|exact Hvr|]);
      intros libm seq vars; reflexivity.
Qed.

(** X12.  Arithmetic never throws: a tree of numbers, unary minus and
    [+ - * /] evaluates to a value and leaves the variables alone.
    Division by zero is no error: [1 / 0] is infinity, [-1 / 0] is minus
    infinity and [0 / 0] is NaN. *)
Theorem arithmetic_never_throws :
  (forall node, arithmetic node ->
     exists v, forall libm seq vars,
       evaluate libm seq node vars = (vars, Ok v)) /\
  (forall libm seq vars,
     calculate libm seq "1 / 0" vars = (vars, Ok PrimFloat.infinity) /\
     calculate libm seq "-1 / 0" vars = (vars, Ok PrimFloat.neg_infinity) /\
     calculate libm seq "0 / 0" vars = (vars, Ok PrimFloat.nan)).
Proof.
  split.
  - apply arithmetic_constant.
  - intros libm seq vars. repeat split; vm_compute; reflexivity.
Qed.

Lemma arithmetic_never_throws_witness :
  exists v, forall libm seq vars,
    evaluate libm seq
      (BinaryOpNode DIVIDE (NumberNode 1) (UnaryOpNode MINUS (NumberNode 0)))
      vars = (vars, Ok v).
Proof.
  apply (proj1 arithmetic_never_throws
           (BinaryOpNode DIVIDE (NumberNode 1)
              (UnaryOpNode MINUS (NumberNode 0)))).
  simpl. auto.
Defined.

(** ** Writing the terms of a command *)

Lemma divide_loop_app s1 : forall d s2,
  divide_loop d (s1 +:+ s2) = divide_loop (divide_loop d s1) s2.
Proof.
  induction s1 as [|c s1 IH]; intros d s2; [reflexivity|].
  change (divide_loop (divide_char d c) (s1 +:+ s2)
          = divide_loop (divide_loop (divide_char d c) s1) s2).
  apply IH.
Qed.

Lemma push_back_append cur c t :
  push_back c cur +:+ t = cur +:+ String c t.
Proof. unfold push_back. rewrite <- append_assoc'. reflexivity. Qed.

Lemma divide_loop_escape_term t : forall ts cur q qc,
  divide_loop {| terms := ts; term := cur; in_quotes := q;
                 quote_char := qc; escape := false |} (escape_term t)
  = {| terms := ts; term := cur +:+ t; in_quotes := q;
       quote_char := qc; escape := false |}.
Proof.
  induction t as [|c t IH]; intros ts cur q qc.
  - simpl. rewrite append_empty_r. reflexivity.
  - change (escape_term (String c t))
      with (String "\" (String c (escape_term t))).
    cbn [divide_loop]. unfold divide_char at 2. cbn [escape].
    change ("\" =? "\")%char with true. cbv iota.
    unfold divide_char. cbn [escape terms term in_quotes quote_char].
    rewrite IH, push_back_append. reflexivity.
Qed.

Lemma divide_loop_quoted_body q t : forall ts cur rest,
  has_char (fun c => (c =? q)%char || (c =? "\")%char) t = false ->
  divide_loop {| terms := ts; term := cur; in_quotes := true;
                 quote_char := q; escape := false |} (t +:+ rest)
  = divide_loop {| terms := ts; term := cur +:+ t; in_quotes := true;
                   quote_char := q; escape := false |} rest.
Proof.
  induction t as [|c t IH]; intros ts cur rest H.
  - simpl. rewrite append_empty_r. reflexivity.
  - unfold has_char, chars in H. simpl in H.
    apply orb_false_elim in H as [Hc H].
    apply orb_false_elim in Hc as [Hq Hb].
    change (String c t +:+ rest) with (String c (t +:+ rest)).
    cbn [divide_loop]. unfold divide_char.
    cbn [escape terms term in_quotes quote_char]. rewrite Hb, Hq.
    rewrite andb_false_r.
    replace (if is_quote c && negb false then _ else _)
      with {| terms := ts; term := push_back c cur; in_quotes := true;
              quote_char := q; escape := false |}
      by (destruct (is_quote c); reflexivity).
    rewrite IH by exact H. rewrite push_back_append. reflexivity.
Qed.

Lemma divide_loop_quote_term q t ts cur qc :
  is_quote q = true ->
  has_char (fun c => (c =? q)%char || (c =? "\")%char) t = false ->
  divide_loop {| terms := ts; term := cur; in_quotes := false;
                 quote_char := qc; escape := false |} (quote_term q t)
  = {| terms := ts; term := cur +:+ t; in_quotes := false;
       quote_char := "000"; escape := false |}.
Proof.
  intros Hq Ht. unfold quote_term. cbn [divide_loop].
  unfold divide_char at 1. cbn [escape terms term in_quotes quote_char].
  rewrite (is_quote_not_backslash q Hq), Hq. cbn [andb negb].
  rewrite divide_loop_quoted_body by exact Ht.
  cbn [divide_loop]. unfold divide_char.
  cbn [escape terms term in_quotes quote_char].
  rewrite (is_quote_not_backslash q Hq), Hq, Ascii.eqb_refl. reflexivity.
Qed.

Lemma divide_char_space ts cur :
  divide_char {| terms := ts; term := cur; in_quotes := false;
                 quote_char := "000"; escape := false |} " "
  = between_words (ts ++ if nonempty cur then [cur] else []).
Proof.
  unfold divide_char, between_words, nonempty. simpl.
  destruct (negb (cur =? EmptyString)%string) eqn:E.
  - reflexivity.
  - rewrite app_nil_r. apply negb_false_iff, String.eqb_eq in E.
    subst cur. reflexivity.
Qed.

Lemma divide_end_word ts cur :
  divide_end {| terms := ts; term := cur; in_quotes := false;
                quote_char := "000"; escape := false |}
  = Ok (ts ++ if nonempty cur then [cur] else []).
Proof.
  unfold divide_end, nonempty. simpl.
  destruct (negb (cur =? EmptyString)%string);
    rewrite ?app_nil_r; reflexivity.
Qed.

(** The words of a command line, each written by [write] so that the
    loop reads it as one term. *)
Lemma divide_loop_words (write : string -> string) (ok : string -> Prop) :
  (forall t ts, ok t ->
     divide_loop (between_words ts) (write t)
     = {| terms := ts; term := t; in_quotes := false;
          quote_char := "000"; escape := false |}) ->
  forall ws ts, Forall ok ws ->
    exists cur,
      divide_loop (between_words ts) (String.concat " " (map write ws))
      = {| terms := ts ++ List.filter nonempty (removelast ws);
           term := cur; in_quotes := false; quote_char := "000";
           escape := false |} /\
      (if nonempty cur then [cur] else [])
      = List.filter nonempty (match ws with [] => [] | _ => [List.last ws cur] end).
Proof.
  intros Hw ws. induction ws as [|w ws IH]; intros ts Hok.
  - exists EmptyString. simpl. rewrite app_nil_r. split; reflexivity.
  - apply Forall_cons in Hok as [Hw0 Hok]. destruct ws as [|w' ws].
    + exists w. change (String.concat " " (map write [w])) with (write w).
      rewrite Hw by exact Hw0. simpl. rewrite app_nil_r.
      split; reflexivity.
    + change (String.concat " " (map write (w :: w' :: ws)))
        with (write w +:+ String " " (String.concat " " (map write (w' :: ws)))).
      rewrite divide_loop_app, Hw by exact Hw0.
      cbn [divide_loop]. rewrite divide_char_space.
      destruct (IH (ts ++ (if nonempty w then [w] else [])) Hok)
        as (cur & -> & Hcur).
      exists cur. split.
      * f_equal. rewrite <- app_assoc. f_equal.
        change (removelast (w :: w' :: ws)) with (w :: removelast (w' :: ws)).
        simpl List.filter. destruct (nonempty w); reflexivity.
      * exact Hcur.
Qed.

Lemma filter_removelast_last (ws : list string) cur :
  ws <> [] ->
  List.filter nonempty (removelast ws) ++ List.filter nonempty [List.last ws cur]
  = List.filter nonempty ws.
Proof.
  intros H. rewrite <- List.filter_app.
  rewrite <- (app_removelast_last cur H). reflexivity.
Qed.

Lemma commandsDivide_words (write : string -> string) (ok : string -> Prop) :
  (forall t ts, ok t ->
     divide_loop (between_words ts) (write t)
     = {| terms := ts; term := t; in_quotes := false;
          quote_char := "000"; escape := false |}) ->
  forall ws, Forall ok ws ->
    commandsDivide (command_line (map write ws))
    = Ok (List.filter nonempty ws) /\
    commandsDivide (command_line (map write ws) +:+ "\")
    = Ok (List.filter nonempty ws).
Proof.
  intros Hw ws Hok.
  destruct (divide_loop_words write ok Hw ws [] Hok) as (cur & Hd & Hcur).
  assert (Hts : ([] ++ List.filter nonempty (removelast ws)) ++
                (if nonempty cur then [cur] else [])
                = List.filter nonempty ws).
  { rewrite Hcur. destruct ws as [|w ws]; [reflexivity|].
    apply filter_removelast_last. discriminate. }
  split.
  - change (commandsDivide (command_line (map write ws)))
      with (divide_end (divide_loop (between_words [])
                          (String.concat " " (map write ws)))).
    rewrite Hd, divide_end_word, Hts. reflexivity.
  - change (commandsDivide (command_line (map write ws) +:+ "\"))
      with (divide_end (divide_loop (between_words [])
                          (String.concat " " (map write ws) +:+ "\"))).
    rewrite divide_loop_app, Hd. cbn [divide_loop].
    unfold divide_char. cbn [escape]. change ("\" =? "\")%char with true.
    cbv iota. unfold divide_end at 1. cbn [in_quotes term terms].
    rewrite <- Hts. unfold nonempty.
    destruct (negb (cur =? EmptyString)%string);
      rewrite ?app_nil_r; reflexivity.
Qed.

Lemma filter_nonempty ws :
  Forall (fun t => t <> EmptyString) ws -> List.filter nonempty ws = ws.
Proof.
  induction 1 as [|w ws Hw _ IH]; [reflexivity|]. simpl.
  destruct w; [contradiction|]. simpl. rewrite IH. reflexivity.
Qed.

(** X13.  A backslash makes any character part of a term.  Whatever the
    characters of the non-empty terms [ts] are (spaces, quotes and
    backslashes included), the command line that writes each term with a
    backslash before each of its characters, the terms separated by
    single spaces, divides into exactly [ts].  A lone backslash at the
    end of the line is dropped without an error. *)
Theorem escaped_terms_round_trip ts :
  Forall (fun t => t <> EmptyString) ts ->
  commandsDivide (command_line (map escape_term ts)) = Ok ts /\
  commandsDivide (command_line (map escape_term ts) +:+ "\") = Ok ts.
Proof.
  intros Hts.
  rewrite <- (filter_nonempty ts Hts) at 2 4.
  apply (commandsDivide_words escape_term (fun _ => True)).
  - intros t ts0 _. unfold between_words.
    rewrite divide_loop_escape_term. reflexivity.
  - apply Forall_forall. auto.
Qed.

Lemma escaped_terms_round_trip_witness :
  commandsDivide (command_line (map escape_term ["file"; "a b\c"; "'"]))
  = Ok ["file"; "a b\c"; "'"] /\
  commandsDivide (command_line (map escape_term ["file"; "a b\c"; "'"])
                  +:+ "\")
  = Ok ["file"; "a b\c"; "'"].
Proof.
  apply (escaped_terms_round_trip ["file"; "a b\c"; "'"]).
  repeat constructor; discriminate.
Defined.

(** X14.  Quotes keep spaces and the other quote character.  When no
    term of [ts] contains the quote character [q] or a backslash, the
    command line that writes each term between two [q], the terms
    separated by single spaces, divides into the terms of [ts] that are
    not empty: an empty pair of quotes gives no term. *)
Theorem quoted_terms_round_trip q ts :
  is_quote q = true ->
  Forall (fun t =>
            has_char (fun c => (c =? q)%char || (c =? "\")%char) t = false)
         ts ->
  commandsDivide (command_line (map (quote_term q) ts))
  = Ok (List.filter nonempty ts).
Proof.
  intros Hq Hts.
  apply (commandsDivide_words (quote_term q)
           (fun t => has_char (fun c => (c =? q)%char || (c =? "\")%char) t
                     = false)); [|exact Hts].
  intros t ts0 Ht. unfold between_words.
  rewrite divide_loop_quote_term by assumption. reflexivity.
Qed.

Lemma quoted_terms_round_trip_witness :
  commandsDivide (command_line (map (quote_term "'") ["f"; "a  b"; ""; "c"]))
  = Ok ["f"; "a  b"; "c"].
Proof.
  apply (quoted_terms_round_trip "'" ["f"; "a  b"; ""; "c"]).
  - reflexivity.
  - repeat constructor.
Defined.

(** ** What a session keeps *)

Lemma continues_refl write s : continues write s s.
Proof.
  split; [|auto]. exists []. rewrite app_nil_r. auto.
Qed.

Lemma continues_trans write s1 s2 s3 :
  continues write s1 s2 -> continues write s2 s3 -> continues write s1 s3.
Proof.
  intros [(o1 & H1 & Q1) V1] [(o2 & H2 & Q2) V2]. split; [|auto].
  exists (o1 ++ o2). rewrite H2, H1, app_assoc. split; [reflexivity|].
  intros Hw. rewrite forallb_app, Q1, Q2 by exact Hw. reflexivity.
Qed.

Lemma continues_nested write s s' : continues false s s' -> continues write s s'.
Proof.
  intros [(o & H & Q) V]. split; [|exact V]. exists o. auto.
Qed.

Lemma continues_emit_if write o s : continues write s (emit_if write o s).
Proof.
  destruct write; [|apply continues_refl].
  split; [|auto]. exists [o]. split; [reflexivity|discriminate].
Qed.

Lemma continues_emit write o s :
  quiet o = true -> continues write s (emit o s).
Proof.
  intros Hq. split; [|auto]. exists [o]. split; [reflexivity|].
  intros _. simpl. rewrite Hq. reflexivity.
Qed.

Lemma evaluate_line_continues libm seq write line s :
  continues write s (fst (evaluate_line libm seq write line s)).
Proof.
  unfold evaluate_line.
  pose proof (fun x => calculate_is_Some libm seq ("Ans = " +:+ line)
                         (variables s) x) as Hv.
  destruct (calculate _ _ _ _) as [vars [v|e|]]; simpl in *.
  - eapply continues_trans; [|apply continues_emit_if].
    split; [|exact Hv]. exists []. simpl. rewrite app_nil_r. auto.
  - eapply continues_trans; [|apply continues_emit; reflexivity].
    split; [|exact Hv]. exists []. simpl. rewrite app_nil_r. auto.
  - split; [|exact Hv]. exists []. simpl. rewrite app_nil_r. auto.
Qed.

Lemma source_files_continues fs nested write paths :
  (forall lines s, continues false s (fst (nested lines s))) ->
  forall s, continues write s (fst (source_files fs nested paths s)).
Proof.
  intros Hn. induction paths as [|path paths IH]; intros s; simpl.
  - apply continues_refl.
  - destruct (fs path) as [lines|].
    + specialize (Hn lines s).
      destruct (nested lines s) as [s' [[]|e|]]; simpl in *;
        try (apply continues_nested; exact Hn).
      eapply continues_trans; [apply continues_nested; exact Hn|apply IH].
    + eapply continues_trans;
        [apply (continues_emit write (CannotOpen path) s eq_refl)|apply IH].
Qed.

Lemma process_lines_continues libm seq fs opts nested write stream :
  (forall lines s, continues false s (fst (nested lines s))) ->
  forall s, continues write s
              (fst (process_lines libm seq fs opts nested write stream s)).
Proof.
  intros Hn. induction stream as [|line stream IH]; intros s.
  - simpl. apply continues_emit_if.
  - assert (Hnext : forall s0 s',
              continues write s0 s' ->
              continues write s0
                (fst (if negb (once opts) || negb write
                      then process_lines libm seq fs opts nested write
                             stream s'
                      else (s', Ok tt)))).
    { intros s0 s' H. destruct (negb (once opts) || negb write);
        [|exact H]. eapply continues_trans; [exact H|apply IH]. }
    destruct line as [|c l];
      [apply (Hnext s (emit_if write Prompt s)), continues_emit_if|].
    destruct (Ascii.eqb_spec c ":") as [->|Hc].
    + rewrite process_lines_command. cbv zeta.
      pose proof (continues_emit_if write Prompt s) as Hp.
      destruct (commandsDivide (String ":" l)) as [[|command paths]|e|];
        [apply Hnext; exact Hp| |exact Hp|exact Hp].
      destruct (String.eqb command "e" || String.eqb command "exit");
        [exact Hp|].
      assert (Hh : continues write s
                     (if String.eqb command "h" || String.eqb command "help"
                      then emit_if write Help (emit_if write Prompt s)
                      else emit_if write Prompt s)).
      { destruct (String.eqb command "h" || String.eqb command "help");
          [|exact Hp].
        eapply continues_trans; [exact Hp|apply continues_emit_if]. }
      destruct (String.eqb command "f" || String.eqb command "file");
        [|apply Hnext; exact Hh].
      match goal with
      | |- context [source_files fs nested paths ?s0] =>
          pose proof (source_files_continues fs nested write paths Hn s0)
            as Hs;
          destruct (source_files fs nested paths s0) as [s' [[]|e|]]
      end; simpl in Hs;
        try (simpl; eapply continues_trans; [exact Hh|exact Hs]).
      apply Hnext. eapply continues_trans; [exact Hh|exact Hs].
    + rewrite process_lines_bare;
        [|discriminate|intros l' H; congruence].
      cbv zeta. apply Hnext.
      eapply continues_trans;
        [apply continues_emit_if|apply evaluate_line_continues].
Qed.

Lemma process_continues libm seq fs opts fuel :
  forall stream write depth s,
    continues write s
      (fst (process libm seq fs opts fuel stream write depth s)).
Proof.
  induction fuel as [|fuel IH]; intros stream write depth s.
  - apply continues_refl.
  - rewrite process_S. destruct (MAX_DEPTH <? depth)%Z;
      [apply continues_refl|].
    apply process_lines_continues. intros lines s0. apply IH.
Qed.

Lemma startup_files_continues libm seq fs opts paths :
  forall s, continues false s (fst (startup_files libm seq fs opts paths s)).
Proof.
  induction paths as [|path paths IH]; intros s; simpl.
  - apply continues_refl.
  - destruct (fs path) as [lines|]; [|apply IH].
    pose proof (process_continues libm seq fs opts process_fuel lines
                  false 0 s) as Hp.
    destruct (process _ _ _ _ _ _ _ _ _) as [s' [[]|e|]]; simpl in *;
      try exact Hp.
    eapply continues_trans; [exact Hp|apply IH].
Qed.

(** X15.  Lines that are not read from [std::cin] are processed in
    silence: whatever a startup file or a sourced file contains, and
    whatever the files it sources in turn contain, processing it writes
    no prompt, no answer and no help text; it only adds error reports and
    cannot-open reports to what was written before.  The same holds for
    all the startup files of [main] together. *)
Theorem sourced_lines_are_silent :
  (forall libm seq fs opts fuel stream depth s,
     exists out,
       written (fst (process libm seq fs opts fuel stream false depth s))
       = written s ++ out /\
       forallb quiet out = true) /\
  (forall libm seq fs opts paths s,
     exists out,
       written (fst (startup_files libm seq fs opts paths s))
       = written s ++ out /\
       forallb quiet out = true).
Proof.
  split.
  - intros libm seq fs opts fuel stream depth s.
    destruct (process_continues libm seq fs opts fuel stream false depth s)
      as [(out & H & Q) _].
    exists out. auto.
  - intros libm seq fs opts paths s.
    destruct (startup_files_continues libm seq fs opts paths s)
      as [(out & H & Q) _].
    exists out. auto.
Qed.

(** X16.  A session never loses a variable and never takes back what it
    wrote: after [process], on whatever lines, files and flags, every
    variable that was defined is still defined and the output is the
    former output with something appended.  As [main] defines [Ans]
    before it reads anything, [Ans] is defined at the end of every run
    that was not stopped by a help or version flag. *)
Theorem session_keeps_variables :
  (forall libm seq fs opts fuel stream write depth s x,
     is_Some (variables s !! x) ->
     is_Some (variables
                (fst (process libm seq fs opts fuel stream write depth s))
              !! x) /\
     written s `prefix_of`
       written (fst (process libm seq fs opts fuel stream write depth s))) /\
  (forall libm seq fs opts stdin,
     exit opts = false ->
     is_Some (variables (fst (main libm seq fs opts stdin)) !! "Ans")).
Proof.
  split.
  - intros libm seq fs opts fuel stream write depth s x Hx.
    destruct (process_continues libm seq fs opts fuel stream write depth s)
      as [(out & H & _) V].
    split; [apply V, Hx|]. rewrite H. exists out. reflexivity.
  - intros libm seq fs opts stdin He. unfold main. rewrite He.
    set (s0 := {| variables := <["Ans" := 0%float]> ∅; written := [] |}).
    assert (H0 : is_Some (variables s0 !! "Ans"))
      by (simpl; rewrite lookup_insert_eq; eauto).
    pose proof (startup_files_continues libm seq fs opts (files opts) s0)
      as [_ V1].
    destruct (startup_files _ _ _ _ _ _) as [s1 [[]|e|]]; simpl in *;
      try (apply V1, H0).
    pose proof (process_continues libm seq fs opts process_fuel stdin true 0
                  s1) as [_ V2].
    apply V2, V1, H0.
Qed.

Lemma session_keeps_variables_witness :
  is_Some (variables
             (fst (main libm_stub left_to_right no_files default_options
                     ["x = 1 +"; ":e"])) !! "Ans").
Proof.
  apply (proj2 session_keeps_variables libm_stub left_to_right no_files
           default_options ["x = 1 +"; ":e"]).
  reflexivity.
Defined.

(** X17.  With the once flag the interactive loop reads one line and no
    more, whatever that line is: an empty line, a command or a line that
    fails ends the run just as a calculation does.  So [process] on
    [std::cin], and with it [main], does on the lines [line :: rest] what
    it does on [line] alone.  (The lines of a file that the one line
    sources are all read: the loop condition only stops the interactive
    call.) *)
Theorem once_reads_one_line libm seq fs opts line rest :
  once opts = true ->
  (forall fuel depth s,
     process libm seq fs opts fuel (line :: rest) true depth s
     = process libm seq fs opts fuel [line] true depth s) /\
  main libm seq fs opts (line :: rest) = main libm seq fs opts [line].
Proof.
  intros Ho.
  assert (H : forall fuel depth s,
            process libm seq fs opts fuel (line :: rest) true depth s
            = process libm seq fs opts fuel [line] true depth s).
  { intros [|fuel] depth s; [reflexivity|]. rewrite !process_S.
    destruct (MAX_DEPTH <? depth)%Z; [reflexivity|].
    destruct line as [|c l]; [simpl; rewrite Ho; reflexivity|].
    destruct (Ascii.eqb_spec c ":") as [->|Hc].
    - rewrite !process_lines_command, Ho. reflexivity.
    - rewrite !process_lines_bare by
        first [discriminate | intros l' E; congruence].
      rewrite Ho. reflexivity. }
  split; [exact H|]. unfold main. destruct (exit opts); [reflexivity|].
  destruct (startup_files _ _ _ _ _ _) as [s1 [[]|e|]]; try reflexivity.
  apply H.
Qed.

Lemma once_reads_one_line_witness :
  (forall fuel depth s,
     process libm_stub left_to_right no_files
       {| args := ["-o"]; help := false; version := false; once := true;
          file := false; exit := false; files := ["init.scalc"] |}
       fuel ["" ; "1 + 2"] true depth s
     = process libm_stub left_to_right no_files
       {| args := ["-o"]; help := false; version := false; once := true;
          file := false; exit := false; files := ["init.scalc"] |}
       fuel [""] true depth s) /\
  main libm_stub left_to_right no_files
    {| args := ["-o"]; help := false; version := false; once := true;
       file := false; exit := false; files := ["init.scalc"] |}
    [""; "1 + 2"]
  = main libm_stub left_to_right no_files
    {| args := ["-o"]; help := false; version := false; once := true;
       file := false; exit := false; files := ["init.scalc"] |}
    [""].
Proof.
  apply (once_reads_one_line libm_stub left_to_right no_files
           {| args := ["-o"]; help := false; version := false; once := true;
              file := false; exit := false; files := ["init.scalc"] |}
           "" ["1 + 2"]).
  reflexivity.
Defined.

(** ** Lines and commands that do nothing, and lines that end a stream *)

Lemma not_known_command c :
  ~ In c known_commands ->
  String.eqb c "e" = false /\ String.eqb c "exit" = false /\
  String.eqb c "h" = false /\ String.eqb c "help" = false /\
  String.eqb c "f" = false /\ String.eqb c "file" = false.
Proof.
  intros H. repeat split; apply String.eqb_neq; intros ->; apply H;
    simpl; tauto.
Qed.

(** X18.  A command that [process] does not know is no error: a line
    that starts with a colon and whose first term is none of [e], [exit],
    [h], [help], [f] and [file] (the comparison is exact, so [:E] and
    [:quit] are such lines), or has no term at all, is passed over like
    an empty line.  Nothing is reported. *)
Theorem other_commands_are_ignored libm seq fs opts fuel l ts rest write
    depth s :
  commandsDivide (String ":" l) = Ok ts ->
  (forall c, head ts = Some c -> ~ In c known_commands) ->
  process libm seq fs opts fuel (String ":" l :: rest) write depth s
  = process libm seq fs opts fuel (EmptyString :: rest) write depth s.
Proof.
  intros Hd Hc. destruct fuel as [|fuel]; [reflexivity|].
  rewrite !process_S. destruct (MAX_DEPTH <? depth)%Z; [reflexivity|].
  rewrite process_lines_command, Hd. destruct ts as [|c paths];
    [reflexivity|].
  destruct (not_known_command c (Hc c eq_refl))
    as (-> & -> & -> & -> & -> & ->).
  reflexivity.
Qed.

Lemma other_commands_are_ignored_witness :
  process libm_stub left_to_right no_files default_options 2
    [":quit now"; "1"] true 0 initial_session
  = process libm_stub left_to_right no_files default_options 2
    [""; "1"] true 0 initial_session.
Proof.
  apply (other_commands_are_ignored libm_stub left_to_right no_files
           default_options 2 "quit now" ["quit"; "now"] ["1"] true 0
           initial_session).
  - reflexivity.
  - intros c H. inversion H; subst c. simpl.
    intros [E|[E|[E|[E|[E|[E|[]]]]]]]; discriminate E.
Defined.

Lemma getNextToken_blanks blanks :
  all_chars isspace blanks = true ->
  getNextToken blanks = Ok (Token1 END, EmptyString).
Proof.
  intros H. unfold getNextToken.
  rewrite <- (append_empty_r blanks), (skip_spaces_blanks _ _ H).
  reflexivity.
Qed.

Lemma parse_blanks blanks :
  all_chars isspace blanks = true ->
  parse blanks = Throw (runtime_error "Unexpected token: ").
Proof.
  intros H. unfold parse, Parser_init, advance. simpl lexer.
  rewrite (getNextToken_blanks _ H). unfold parse_fuel.
  replace (4 * String.length blanks + 7)%nat
    with (S (S (S (4 * String.length blanks + 4)))) by lia.
  reflexivity.
Qed.

Lemma calculate_Ans_blanks libm seq blanks vars :
  all_chars isspace blanks = true ->
  calculate libm seq ("Ans = " +:+ blanks) vars
  = (vars, Throw (runtime_error "Unexpected token: ")).
Proof.
  intros H. unfold calculate.
  change ("Ans = " +:+ blanks)
    with ("Ans" +:+ " " +:+ "=" +:+ (" " +:+ blanks)).
  rewrite parse_assignment by reflexivity.
  rewrite (parse_blanks (" " +:+ blanks)) by exact H.
  reflexivity.
Qed.

(** X19.  An empty line is passed over, a line of blanks is not: such a
    line goes to the calculator, which finds no expression in it, and
    the driver reports "Unexpected token: " followed by nothing.  The
    variables stay as they are, [Ans] included, and the loop goes on
    with the next line. *)
Theorem blank_line_is_reported libm seq fs opts fuel blanks rest write
    depth s :
  all_chars isspace blanks = true -> blanks <> EmptyString ->
  (depth <= MAX_DEPTH)%Z -> once opts = false \/ write = false ->
  process libm seq fs opts (S fuel) (blanks :: rest) write depth s
  = process libm seq fs opts (S fuel) rest write depth
      (emit (Error "Unexpected token: ") (emit_if write Prompt s)) /\
  process libm seq fs opts (S fuel) (EmptyString :: rest) write depth s
  = process libm seq fs opts (S fuel) rest write depth
      (emit_if write Prompt s).
Proof.
  intros Hb Hne Hd Hloop. rewrite !process_S. apply Z.ltb_ge in Hd.
  rewrite Hd.
  assert (Hgo : negb (once opts) || negb write = true)
    by (destruct Hloop as [-> | ->]; [reflexivity|apply orb_true_r]).
  split.
  - rewrite process_lines_bare; [|exact Hne|].
    + cbv zeta. rewrite Hgo. unfold evaluate_line.
      rewrite (calculate_Ans_blanks _ _ _ _ Hb). reflexivity.
    + intros l ->. discriminate Hb.
  - simpl. rewrite Hgo. reflexivity.
Qed.

Lemma blank_line_is_reported_witness :
  process libm_stub left_to_right no_files default_options 1
    [" "; "1"] true 0 initial_session
  = process libm_stub left_to_right no_files default_options 1
      ["1"] true 0
      (emit (Error "Unexpected token: ") (emit_if true Prompt initial_session))
  /\
  process libm_stub left_to_right no_files default_options 1
    [""; "1"] true 0 initial_session
  = process libm_stub left_to_right no_files default_options 1
      ["1"] true 0 (emit_if true Prompt initial_session).
Proof.
  apply (blank_line_is_reported libm_stub left_to_right no_files
           default_options 0 " " ["1"] true 0 initial_session).
  - reflexivity.
  - discriminate.
  - unfold MAX_DEPTH. lia.
  - left. reflexivity.
Defined.

Lemma process_lines_empty libm seq fs opts nested write stream s :
  process_lines libm seq fs opts nested write (EmptyString :: stream) s =
  if negb (once opts) || negb write
  then process_lines libm seq fs opts nested write stream
         (emit_if write Prompt s)
  else (emit_if write Prompt s, Ok tt).
Proof. reflexivity. Qed.

Lemma process_lines_exit libm seq fs opts nested write l c paths rest :
  commandsDivide (String ":" l) = Ok (c :: paths) ->
  c = "e" \/ c = "exit" ->
  forall pre s,
    process_lines libm seq fs opts nested write
      (pre ++ String ":" l :: rest) s
    = process_lines libm seq fs opts nested write
      (pre ++ [String ":" l]) s.
Proof.
  intros Hd Hc pre. induction pre as [|a pre IH]; intros s.
  - simpl app. rewrite !process_lines_command, Hd.
    destruct Hc as [-> | ->]; reflexivity.
  - rewrite <- !app_comm_cons. destruct a as [|ch a].
    + rewrite !process_lines_empty, IH. reflexivity.
    + destruct (Ascii.eqb_spec ch ":") as [->|Hch].
      * rewrite !process_lines_command. cbv zeta.
        destruct (commandsDivide (String ":" a)) as [[|c' paths']|e|];
          rewrite ?IH; try reflexivity.
        destruct (String.eqb c' "e" || String.eqb c' "exit");
          [reflexivity|].
        destruct (String.eqb c' "f" || String.eqb c' "file");
          [|rewrite ?IH; reflexivity].
        destruct (source_files fs nested paths' _) as [s' [[]|e|]];
          rewrite ?IH; reflexivity.
      * rewrite !process_lines_bare by
          first [discriminate | intros l' E; congruence].
        cbv zeta. rewrite IH. reflexivity.
Qed.

(** X20.  An exit command ends the reading of the stream it stands in,
    and only that: the lines behind it are never read, so the call does
    on the whole stream what it does on the stream cut behind the
    command; and a sourced file that begins with an exit command changes
    nothing, after which the [file] command goes on with its next
    path. *)
Theorem exit_ends_the_stream libm seq fs opts l c paths path tail :
  commandsDivide (String ":" l) = Ok (c :: paths) ->
  c = "e" \/ c = "exit" ->
  fs path = Some (String ":" l :: tail) ->
  (forall fuel pre rest write depth s,
     process libm seq fs opts fuel (pre ++ String ":" l :: rest) write depth s
     = process libm seq fs opts fuel (pre ++ [String ":" l]) write depth s) /\
  (forall fuel others depth s,
     source_files fs
       (fun lines => process libm seq fs opts (S fuel) lines false depth)
       (path :: others) s
     = source_files fs
       (fun lines => process libm seq fs opts (S fuel) lines false depth)
       others s).
Proof.
  intros Hd Hc Hp. split.
  - intros [|fuel] pre rest write depth s; [reflexivity|].
    rewrite !process_S. destruct (MAX_DEPTH <? depth)%Z; [reflexivity|].
    apply (process_lines_exit _ _ _ _ _ _ _ _ _ _ Hd Hc).
  - intros fuel others depth s. simpl. rewrite Hp, process_S.
    destruct (MAX_DEPTH <? depth)%Z; [reflexivity|].
    rewrite process_lines_command, Hd.
    destruct Hc as [-> | ->]; reflexivity.
Qed.

Lemma exit_ends_the_stream_witness :
  (forall fuel pre rest write depth s,
     process libm_stub left_to_right exit_file default_options fuel
       (pre ++ ":exit" :: rest) write depth s
     = process libm_stub left_to_right exit_file default_options fuel
       (pre ++ [":exit"]) write depth s) /\
  (forall fuel others depth s,
     source_files exit_file
       (fun lines => process libm_stub left_to_right exit_file
                       default_options (S fuel) lines false depth)
       ("a" :: others) s
     = source_files exit_file
       (fun lines => process libm_stub left_to_right exit_file
                       default_options (S fuel) lines false depth)
       others s).
Proof.
  apply (exit_ends_the_stream libm_stub left_to_right exit_file
           default_options "exit" "exit" [] "a" ["x = 1"]).
  - reflexivity.
  - right. reflexivity.
  - reflexivity.
Defined.

Lemma count_cons p o out :
  count p (o :: out) = ((if p o then 1 else 0) + count p out)%nat.
Proof. unfold count. simpl. destruct (p o); reflexivity. Qed.

Lemma evaluate_line_writes libm seq line s :
  exists r, is_response r = true /\
    written (fst (evaluate_line libm seq true line s)) = written s ++ [r].
Proof.
  unfold evaluate_line.
  pose proof (calculate_not_OutOfFuel libm seq ("Ans = " +:+ line)
                (variables s)) as Hf.
  destruct (calculate _ _ _ _) as [vars [v|e|]]; simpl in *.
  - exists (Answer v). auto.
  - exists (Error (what e)). auto.
  - contradiction.
Qed.

Lemma process_lines_expressions libm seq fs opts nested stream :
  once opts = false ->
  Forall (fun line => is_command line = false) stream ->
  forall s, exists s' out,
    process_lines libm seq fs opts nested true stream s = (s', Ok tt) /\
    written s' = written s ++ out /\
    count is_prompt out = S (length stream) /\
    count is_response out = length (List.filter nonempty stream) /\
    length out = (count is_prompt out + count is_response out)%nat.
Proof.
  intros Ho. induction 1 as [|line stream Hl _ IH]; intros s.
  - exists (emit Prompt s), [Prompt]. repeat split.
  - destruct line as [|c l].
    + destruct (IH (emit Prompt s)) as (s' & out & Hp & Hw & H1 & H2 & H3).
      exists s', (Prompt :: out). rewrite process_lines_empty, Ho.
      split; [exact Hp|]. split; [rewrite Hw; simpl; rewrite <- app_assoc;
                                   reflexivity|].
      rewrite !count_cons. simpl. rewrite H1, H2, H3. auto.
    + rewrite process_lines_bare;
        [|discriminate|intros l' E; rewrite E in Hl; discriminate Hl].
      cbv zeta. rewrite Ho.
      destruct (evaluate_line_writes libm seq (String c l)
                  (emit_if true Prompt s)) as (r & Hr & Hwr).
      destruct (IH (fst (evaluate_line libm seq true (String c l)
                           (emit_if true Prompt s))))
        as (s' & out & Hp & Hw & H1 & H2 & H3).
      exists s', (Prompt :: r :: out). split; [exact Hp|].
      split; [rewrite Hw, Hwr; simpl; rewrite <- !app_assoc; reflexivity|].
      rewrite !count_cons, Hr.
      assert (is_prompt r = false) as -> by (destruct r; auto; discriminate).
      simpl. rewrite H1, H2, H3. repeat split; lia.
Qed.

(** X21.  A session without command lines runs to the end of its input:
    when no line starts with a colon, the interactive [process] (without
    the once flag) returns, having written one prompt per line and one
    at the end of input, and exactly one answer or error report per line
    that is not empty, and nothing else.  No failing expression stops
    it. *)
Theorem expression_lines_are_all_answered libm seq fs opts fuel stream
    depth s :
  once opts = false -> (depth <= MAX_DEPTH)%Z ->
  Forall (fun line => is_command line = false) stream ->
  exists s' out,
    process libm seq fs opts (S fuel) stream true depth s = (s', Ok tt) /\
    written s' = written s ++ out /\
    count is_prompt out = S (length stream) /\
    count is_response out = length (List.filter nonempty stream) /\
    length out = (count is_prompt out + count is_response out)%nat.
Proof.
  intros Ho Hd Hs. rewrite process_S. apply Z.ltb_ge in Hd. rewrite Hd.
  apply process_lines_expressions; assumption.
Qed.

Lemma expression_lines_are_all_answered_witness :
  exists s' out,
    process libm_stub left_to_right no_files default_options 1
      ["1 +"; ""; "2 * 3"] true 0 initial_session = (s', Ok tt) /\
    written s' = written initial_session ++ out /\
    count is_prompt out = 4%nat /\
    count is_response out = 2%nat /\
    length out = (count is_prompt out + count is_response out)%nat.
Proof.
  apply (expression_lines_are_all_answered libm_stub left_to_right no_files
           default_options 0 ["1 +"; ""; "2 * 3"] 0 initial_session).
  - reflexivity.
  - unfold MAX_DEPTH. lia.
  - repeat constructor.
Defined.

(** ** The command line *)

Lemma Options_loop_outcome n : forall argv opts,
  (length argv <= n)%nat ->
  help opts = false -> version opts = false -> exit opts = false ->
  file opts = false ->
  let '(o, printed) := Options_loop opts argv in
  exit o = help o || version o /\
  help o && version o = false /\
  file o = false /\
  printed = banner_of o /\
  (exists ps, files o = files opts ++ ps /\ ps `sublist_of` argv) /\
  (exists read, args o = args opts ++ read /\ read `prefix_of` argv).
Proof.
  induction n as [|n IH]; intros argv opts Hn Hh Hv He Hf.
  - destruct argv; [|simpl in Hn; lia]. simpl.
    unfold banner_of. rewrite Hh, Hv, He, Hf.
    repeat split; try (exists []; rewrite app_nil_r; split;
                       [reflexivity|]);
      [apply sublist_nil_l|apply prefix_nil].
  - destruct argv as [|a rest].
    { simpl. unfold banner_of. rewrite Hh, Hv, He, Hf.
      repeat split; try (exists []; rewrite app_nil_r; split;
                         [reflexivity|]);
        [apply sublist_nil_l|apply prefix_nil]. }
    simpl in Hn. simpl Options_loop.
    destruct (is_help_flag a).
    { unfold banner_of. simpl. rewrite Hv, Hf.
      repeat split.
      - exists []. rewrite app_nil_r. split;
          [reflexivity|apply sublist_nil_l].
      - exists [a]. split; [reflexivity|].
        apply (prefix_cons a [] rest), prefix_nil. }
    destruct (is_version_flag a).
    { unfold banner_of. simpl. rewrite Hh, Hf.
      repeat split.
      - exists []. rewrite app_nil_r. split;
          [reflexivity|apply sublist_nil_l].
      - exists [a]. split; [reflexivity|].
        apply (prefix_cons a [] rest), prefix_nil. }
    destruct (is_file_flag a).
    + destruct rest as [|path rest'].
      { unfold banner_of. simpl. rewrite Hh, Hv, He, Hf.
        repeat split.
        - exists []. rewrite app_nil_r. split;
            [reflexivity|apply sublist_nil_l].
        - exists [a]. split; [reflexivity|]. reflexivity. }
      simpl in Hn.
      match goal with
      | |- context [Options_loop ?o rest'] =>
          pose proof (IH rest' o ltac:(lia) Hh Hv He Hf) as H;
          destruct (Options_loop o rest') as [o' printed]
      end.
      simpl in H.
      destruct H as (H1 & H2 & H3 & H4 & (ps & H5 & H6) & (rd & H7 & H8)).
      repeat split; try assumption.
      * exists (path :: ps). rewrite H5, <- app_assoc. split; [reflexivity|].
        apply sublist_cons, sublist_skip, H6.
      * exists (a :: path :: rd). rewrite H7, <- !app_assoc.
        split; [reflexivity|]. apply prefix_cons, prefix_cons, H8.
    + match goal with
      | |- context [Options_loop ?o rest] =>
          pose proof (IH rest o ltac:(lia) Hh Hv He Hf) as H;
          destruct (Options_loop o rest) as [o' printed]
      end.
      simpl in H.
      destruct H as (H1 & H2 & H3 & H4 & (ps & H5 & H6) & (rd & H7 & H8)).
      repeat split; try assumption.
      * exists ps. split; [exact H5|]. apply sublist_cons, H6.
      * exists (a :: rd). rewrite H7, <- app_assoc.
        split; [reflexivity|]. apply prefix_cons, H8.
Qed.

(** X22.  What the constructor of [Options] leaves, on every command
    line: [exit] is set exactly when [help] or [version] is, never both
    of these are, and the banner printed is the usage text for [help],
    the version text for [version] and nothing otherwise (so at most one
    banner, once); [file] is never set; [files] is [init.scalc] followed
    by arguments of the command line in their order; [args] is a prefix
    of the arguments, all of them unless a help or version flag stopped
    the loop.  When [exit] is set the program does nothing more: no file
    is read, no prompt is written and no variable is defined. *)
Theorem options_outcome argv :
  let '(opts, printed) := Options_new argv in
  exit opts = help opts || version opts /\
  help opts && version opts = false /\
  file opts = false /\
  printed = banner_of opts /\
  (exists paths, files opts = "init.scalc" :: paths /\
                 paths `sublist_of` tail argv) /\
  args opts `prefix_of` tail argv /\
  (exit opts = false -> args opts = tail argv) /\
  (exit opts = true ->
   forall libm seq fs stdin,
     scalc libm seq fs argv stdin
     = (printed, ({| variables := ∅; written := [] |}, Ok tt))).
Proof.
  pose proof (Options_loop_outcome (length (tail argv)) (tail argv)
                Options_default ltac:(lia) eq_refl eq_refl eq_refl eq_refl)
    as H.
  assert (Hall : exit (fst (Options_new argv)) = false ->
                 args (fst (Options_new argv)) = tail argv).
  { unfold Options_new.
    assert (G : forall n argv opts, (length argv <= n)%nat ->
                exit (fst (Options_loop opts argv)) = false ->
                args (fst (Options_loop opts argv)) = args opts ++ argv).
    { clear. induction n as [|n IH]; intros argv opts Hn.
      - destruct argv; [|simpl in Hn; lia]. simpl. rewrite app_nil_r. auto.
      - destruct argv as [|a rest]; [simpl; rewrite app_nil_r; auto|].
        simpl in Hn. simpl Options_loop.
        destruct (is_help_flag a); [simpl; discriminate|].
        destruct (is_version_flag a); [simpl; discriminate|].
        destruct (is_file_flag a).
        + destruct rest as [|path rest']; [simpl; auto|]. simpl in Hn.
          intros He. rewrite IH by (try exact He; lia). simpl.
          rewrite <- !app_assoc. reflexivity.
        + intros He. rewrite IH by (try exact He; lia). simpl.
          rewrite <- !app_assoc. reflexivity. }
    intros He.
    apply (G (length (tail argv)) (tail argv) Options_default (le_n _) He). }
  unfold scalc. unfold Options_new in *.
  destruct (Options_loop Options_default (tail argv)) as [opts printed].
  simpl in H, Hall.
  destruct H as (H1 & H2 & H3 & H4 & (ps & H5 & H6) & (rd & H7 & H8)).
  repeat split; try assumption.
  - exists ps. auto.
  - rewrite H7. exact H8.
  - intros He libm seq fs stdin. unfold main. rewrite He. reflexivity.
Qed.

Lemma Options_loop_file_arguments paths : forall opts rest,
  Options_loop opts (file_arguments paths ++ rest)
  = Options_loop
      {| args := args opts ++ file_arguments paths; help := help opts;
         version := version opts; once := once opts; file := file opts;
         exit := exit opts; files := files opts ++ paths |} rest.
Proof.
  induction paths as [|p paths IH]; intros [a h v o f e fl] rest.
  - simpl. rewrite !app_nil_r. reflexivity.
  - change (file_arguments (p :: paths) ++ rest)
      with ("-f" :: p :: (file_arguments paths ++ rest)).
    change (Options_loop {| args := a; help := h; version := v; once := o;
                            file := f; exit := e; files := fl |}
              ("-f" :: p :: (file_arguments paths ++ rest)))
      with (Options_loop {| args := (a ++ ["-f"]) ++ [p]; help := h;
                            version := v; once := o; file := f; exit := e;
                            files := fl ++ [p] |}
              (file_arguments paths ++ rest)).
    rewrite IH. simpl. rewrite <- !app_assoc. reflexivity.
Qed.

(** X23.  The argument behind a file flag is a path, whatever it looks
    like: on the command line [-f p1 -f p2 ...] the constructor reads
    each [p] as a file to run, also when [p] is [-h], [-v] or [-o], so
    no flag is set and nothing is printed; the files to run are
    [init.scalc] and then the paths in their order.  A file flag that
    ends the command line has no path and is passed over in silence. *)
Theorem file_flag_takes_the_next_argument prog paths :
  Options_new (prog :: file_arguments paths)
  = ({| args := file_arguments paths; help := false; version := false;
        once := false; file := false; exit := false;
        files := "init.scalc" :: paths |}, []) /\
  Options_new (prog :: file_arguments paths ++ ["-f"])
  = ({| args := file_arguments paths ++ ["-f"]; help := false;
        version := false; once := false; file := false; exit := false;
        files := "init.scalc" :: paths |}, []).
Proof.
  unfold Options_new. simpl tail. split.
  - rewrite <- (app_nil_r (file_arguments paths)) at 1.
    rewrite Options_loop_file_arguments. reflexivity.
  - rewrite Options_loop_file_arguments. reflexivity.
Qed.

(** ** Numbers without digits *)

Lemma stod_dot r :
  starts_with isdigit r = false ->
  stod (String "." r) = Throw (invalid_argument "stod").
Proof.
  intros H. unfold stod, stod_prefix.
  change (take_run isdigit (String "." r)) with (EmptyString, String "." r).
  cbv beta iota.
  assert (Hr : fst (take_run isdigit r) = EmptyString).
  { destruct r as [|c r]; [reflexivity|]. simpl in *. rewrite H.
    reflexivity. }
  rewrite Hr. reflexivity.
Qed.

Lemma take_run_num_no_digit tail :
  starts_with isdigit tail = false ->
  starts_with isdigit (fst (take_run is_num_char tail)) = false.
Proof.
  intros H. destruct tail as [|c t]; [reflexivity|]. simpl in *.
  destruct (is_num_char c); [|reflexivity].
  destruct (take_run is_num_char t). exact H.
Qed.

Lemma parse_dot blanks tail :
  all_chars isspace blanks = true -> starts_with isdigit tail = false ->
  parse (blanks +:+ String "." tail) = Throw (invalid_argument "stod").
Proof.
  intros Hb Ht. unfold parse, Parser_init, advance. simpl lexer.
  unfold getNextToken at 1. rewrite (skip_spaces_blanks _ _ Hb).
  change (skip_spaces (String "." tail)) with (String "." tail).
  change (is_num_char ".") with true. cbv iota.
  change (take_run is_num_char (String "." tail))
    with (let '(run, rest') := take_run is_num_char tail in
          (String "." run, rest')).
  pose proof (take_run_num_no_digit tail Ht) as Hr.
  destruct (take_run is_num_char tail) as [run rest']. simpl in Hr.
  change (is_num_char ".") with true.
  cbv beta iota delta [mbind result_bind mret result_ret].
  unfold parse_fuel.
  replace (4 * String.length (blanks +:+ String "." tail) + 7)%nat
    with (S (S (S (4 * String.length (blanks +:+ String "." tail) + 4))))
    by lia.
  rewrite parseExpression_S, parseTerm_S, parseFactor_S.
  cbn [type value curtToken]. rewrite (stod_dot run Hr). reflexivity.
Qed.

(** X24.  A dot that no digit follows is no number.  The lexer takes the
    dot (and the dots and digits behind it) as a NUMBER token, and its
    conversion fails: a line that starts, after blanks, with such a dot
    throws the invalid-argument exception of [std::stod], whatever comes
    behind, and the driver reports it with the bare text "stod".  The
    variables stay as they are.  A dot behind digits is fine: [5.] is
    [5]. *)
Theorem lone_dot_is_no_number blanks tail :
  all_chars isspace blanks = true -> starts_with isdigit tail = false ->
  (forall libm seq vars,
     calculate libm seq (blanks +:+ "." +:+ tail) vars
     = (vars, Throw (invalid_argument "stod"))) /\
  (forall libm seq write s,
     evaluate_line libm seq write (blanks +:+ "." +:+ tail) s
     = (emit (Error "stod") s, Ok tt)) /\
  (forall digits,
     all_chars isdigit digits = true ->
     stod (digits +:+ ".") = stod digits).
Proof.
  intros Hb Ht. split; [|split].
  - intros libm seq vars. unfold calculate.
    change (blanks +:+ "." +:+ tail) with (blanks +:+ String "." tail).
    rewrite (parse_dot _ _ Hb Ht). reflexivity.
  - intros libm seq write s. unfold evaluate_line, calculate.
    change ("Ans = " +:+ blanks +:+ "." +:+ tail)
      with ("Ans" +:+ " " +:+ "=" +:+ ((" " +:+ blanks) +:+ String "." tail)).
    rewrite parse_assignment by reflexivity.
    rewrite (parse_dot (" " +:+ blanks) tail) by assumption.
    reflexivity.
  - intros digits Hd. unfold stod, stod_prefix.
    rewrite (take_run_app isdigit digits "." Hd eq_refl).
    rewrite <- (append_empty_r digits) at 3.
    rewrite (take_run_app isdigit digits EmptyString Hd eq_refl).
    reflexivity.
Qed.

Lemma lone_dot_is_no_number_witness :
  (forall libm seq vars,
     calculate libm seq (" " +:+ "." +:+ ". + 1") vars
     = (vars, Throw (invalid_argument "stod"))) /\
  (forall libm seq write s,
     evaluate_line libm seq write (" " +:+ "." +:+ ". + 1") s
     = (emit (Error "stod") s, Ok tt)) /\
  (forall digits,
     all_chars isdigit digits = true ->
     stod (digits +:+ ".") = stod digits).
Proof.
  apply (lone_dot_is_no_number " " ". + 1"); reflexivity.
Defined.

(** ** Termination of the calculator *)

(** X25.  The recursive descent ends on every line.  Each call of a
    parsing function and each turn of one of its loops either throws or
    leaves fewer characters and tokens to read, so [4 * length + 7]
    nested calls and turns are never exceeded: [parse], and with it
    [calculate], returns a result or throws, whatever the line is, and
    any other amount of fuel with which the model returns gives the same
    result. *)
Theorem calculator_terminates :
  (forall line, parse line <> OutOfFuel) /\
  (forall libm seq line vars,
     snd (calculate libm seq line vars) <> OutOfFuel) /\
  (forall line n p,
     Parser_init line = Ok p ->
     parseExpression n p <> OutOfFuel ->
     parseExpression (parse_fuel line) p = parseExpression n p).
Proof.
  split; [|split].
  - apply parse_fuel_enough.
  - apply calculate_not_OutOfFuel.
  - intros line n p Hp Hn. apply (parse_fuel_refines line n p Hp Hn).
Qed.

(** ** C10: what a number token converts to *)

Lemma decimal_value_app a : forall acc b,
  decimal_value acc (a +:+ b) = decimal_value (decimal_value acc a) b.
Proof.
  induction a as [|c a IH]; intros acc b; [reflexivity|].
  change (String c a +:+ b) with (String c (a +:+ b)). simpl. apply IH.
Qed.

Lemma length_append (a b : string) :
  String.length (a +:+ b) = (String.length a + String.length b)%nat.
Proof.
  induction a as [|c a IH]; [reflexivity|].
  change (String c a +:+ b) with (String c (a +:+ b)). simpl. congruence.
Qed.

(** The prefix that [stod] converts, for a text of the form digits, dot,
    digits, and for one without a dot behind its digits. *)
Lemma stod_prefix_fraction int_part frac_part tail :
  all_chars isdigit int_part = true ->
  all_chars isdigit frac_part = true ->
  starts_with isdigit tail = false ->
  stod_prefix (int_part +:+ "." +:+ frac_part +:+ tail)
  = if ((String.length int_part + String.length frac_part)%nat =? 0)%nat
    then None else Some (int_part, frac_part).
Proof.
  intros Hint Hfrac Htail. unfold stod_prefix.
  rewrite (take_run_app isdigit int_part ("." +:+ frac_part +:+ tail) Hint)
    by reflexivity.
  change ("." +:+ frac_part +:+ tail)
    with (String "."%char (frac_part +:+ tail)).
  cbv beta iota zeta.
  rewrite (take_run_app isdigit frac_part tail Hfrac Htail). reflexivity.
Qed.

Lemma stod_prefix_integer int_part tail :
  all_chars isdigit int_part = true ->
  starts_with is_num_char tail = false ->
  stod_prefix (int_part +:+ tail)
  = if ((String.length int_part + 0)%nat =? 0)%nat
    then None else Some (int_part, EmptyString).
Proof.
  intros Hint Htail. unfold stod_prefix.
  assert (Hd : starts_with isdigit tail = false).
  { destruct tail as [|c t]; [reflexivity|]. simpl in *.
    unfold is_num_char in Htail. apply orb_false_elim in Htail as [H _].
    exact H. }
  rewrite (take_run_app isdigit int_part tail Hint Hd).
  destruct tail as [|c t]; [reflexivity|].
  simpl in Htail. unfold is_num_char in Htail.
  apply orb_false_elim in Htail as [_ Hdot].
  apply Ascii.eqb_neq in Hdot.
  destruct c as [[] [] [] [] [] [] [] []];
    first [reflexivity | exfalso; apply Hdot; reflexivity].
Qed.

Lemma stod_fraction int_part frac_part tail :
  all_chars isdigit int_part = true ->
  all_chars isdigit frac_part = true ->
  starts_with isdigit tail = false ->
  stod (int_part +:+ "." +:+ frac_part +:+ tail)
  = numeral_value int_part frac_part.
Proof.
  intros Hint Hfrac Htail. unfold stod, numeral_value.
  rewrite (stod_prefix_fraction _ _ _ Hint Hfrac Htail).
  destruct (_ =? 0)%nat; [reflexivity|].
  rewrite decimal_value_app. reflexivity.
Qed.

Lemma stod_integer int_part tail :
  all_chars isdigit int_part = true ->
  starts_with is_num_char tail = false ->
  stod (int_part +:+ tail) = numeral_value int_part EmptyString.
Proof.
  intros Hint Htail. unfold stod, numeral_value.
  rewrite (stod_prefix_integer _ _ Hint Htail).
  destruct (_ =? 0)%nat; [reflexivity|].
  rewrite append_empty_r. reflexivity.
Qed.

Lemma all_chars_append p a b :
  all_chars p (a +:+ b) = all_chars p a && all_chars p b.
Proof.
  unfold all_chars, chars. induction a as [|c a IH]; [reflexivity|].
  change (String c a +:+ b) with (String c (a +:+ b)). simpl.
  rewrite IH, andb_assoc. reflexivity.
Qed.

Lemma all_digits_num_chars s :
  all_chars isdigit s = true -> all_chars is_num_char s = true.
Proof.
  unfold all_chars, chars. induction s as [|c s IH]; [reflexivity|].
  simpl. intros H. apply andb_prop in H as [Hc H]. unfold is_num_char at 1.
  rewrite Hc, (IH H). reflexivity.
Qed.

Lemma blanks_start_no_number blanks :
  all_chars isspace blanks = true -> starts_with is_num_char blanks = false.
Proof.
  intros Hb. destruct blanks as [|c b]; [reflexivity|]. simpl.
  unfold all_chars, chars in Hb. simpl in Hb.
  apply andb_prop in Hb as [Hc _].
  destruct (is_num_char c) eqn:E; [|reflexivity].
  destruct c as [[] [] [] [] [] [] [] []]; discriminate.
Qed.

Lemma is_num_char_not_space c : is_num_char c = true -> isspace c = false.
Proof.
  destruct c as [[] [] [] [] [] [] [] []]; intros H;
    first [reflexivity | discriminate H].
Qed.

(** The parser in front of a line that starts, after blanks, with the
    number [text]. *)
Lemma Parser_init_number blanks text rest :
  all_chars isspace blanks = true ->
  text <> EmptyString -> all_chars is_num_char text = true ->
  starts_with is_num_char rest = false ->
  Parser_init (blanks +:+ text +:+ rest)
  = Ok {| lexer := rest; curtToken := mkToken NUMBER text |}.
Proof.
  intros Hb Hne Htext Hrest. unfold Parser_init, advance. simpl lexer.
  destruct text as [|c t]; [contradiction|].
  assert (Hc : is_num_char c = true).
  { unfold all_chars, chars in Htext. simpl in Htext.
    apply andb_prop in Htext as [H _]. exact H. }
  assert (Hs : skip_spaces (blanks +:+ String c t +:+ rest)
               = String c (t +:+ rest)).
  { rewrite (skip_spaces_blanks _ _ Hb).
    change (String c t +:+ rest) with (String c (t +:+ rest)).
    simpl. rewrite (is_num_char_not_space c Hc). reflexivity. }
  rewrite (getNextToken_number _ c (t +:+ rest) Hs Hc).
  change (String c (t +:+ rest)) with (String c t +:+ rest).
  rewrite (take_run_app is_num_char (String c t) rest Htext Hrest).
  reflexivity.
Qed.

Lemma parse_number blanks text rest :
  all_chars isspace blanks = true ->
  text <> EmptyString -> all_chars is_num_char text = true ->
  starts_with is_num_char rest = false ->
  (forall e, stod text = Throw e ->
     parse (blanks +:+ text +:+ rest) = Throw e) /\
  (forall v, stod text = Ok v -> all_chars isspace rest = true ->
     parse (blanks +:+ text +:+ rest) = Ok (NumberNode v)).
Proof.
  intros Hb Hne Htext Hrest.
  pose proof (Parser_init_number _ _ _ Hb Hne Htext Hrest) as Hinit.
  split.
  - intros e He. unfold parse. rewrite Hinit.
    cbv beta iota delta [mbind result_bind mret result_ret].
    unfold parse_fuel.
    replace (4 * String.length (blanks +:+ text +:+ rest) + 7)%nat
      with (S (S (S (4 * String.length (blanks +:+ text +:+ rest) + 4))))
      by lia.
    rewrite parseExpression_S, parseTerm_S, parseFactor_S.
    cbn [type value curtToken]. rewrite He. reflexivity.
  - intros v Hv Hblank.
    apply (parse_from_fuel _ 3 _ _
             {| lexer := EmptyString; curtToken := Token1 END |} Hinit).
    rewrite parseExpression_S, parseTerm_S, parseFactor_S.
    cbn [type value curtToken]. rewrite Hv.
    unfold consume, advance. cbn [type value curtToken lexer].
    rewrite (getNextToken_blanks _ Hblank). reflexivity.
Qed.

(** *** [strtod] rounds to nearest *)

Section Rounding.
Local Open Scope Z_scope.

Lemma pow2_max_pos n : 0 < 2 ^ Z.max 0 n.
Proof. apply Z.pow_pos_nonneg; lia. Qed.

Lemma pow2_succ n : 0 <= n -> 2 ^ (n + 1) = 2 * 2 ^ n.
Proof. intros H. rewrite Z.pow_add_r by lia. lia. Qed.

(** Scaling of the two sides when the exponent goes up by one. *)
Lemma max_step e :
  (2 ^ Z.max 0 (e + 1) = 2 * 2 ^ Z.max 0 e /\
   2 ^ Z.max 0 (- (e + 1)) = 2 ^ Z.max 0 (- e) /\ 0 <= e) \/
  (2 ^ Z.max 0 (e + 1) = 2 ^ Z.max 0 e /\
   2 ^ Z.max 0 (- e) = 2 * 2 ^ Z.max 0 (- (e + 1)) /\ e < 0).
Proof.
  destruct (Z.le_gt_cases 0 e) as [H|H].
  - left. rewrite !Z.max_r by lia. rewrite (Z.max_l 0 (- (e + 1))) by lia.
    assert (Z.max 0 (- e) = 0) as -> by lia.
    rewrite pow2_succ by lia. auto.
  - right. rewrite (Z.max_l 0 (e + 1)), (Z.max_l 0 e) by lia.
    rewrite (Z.max_r 0 (- e)), (Z.max_r 0 (- (e + 1))) by lia.
    replace (- e) with (- (e + 1) + 1) at 1 by lia.
    rewrite pow2_succ by lia. auto.
Qed.

Lemma binade_spec (m : positive) k :
  0 <= k -> in_binade (Zpos m) (10 ^ k) (binade m k).
Proof.
  intros Hk. unfold binade, at_least_pow2, in_binade.
  set (p := 10 ^ k). assert (Hp : 0 < p) by (apply Z.pow_pos_nonneg; lia).
  set (a := Z.log2 (Zpos m)). set (b := Z.log2 p).
  destruct (Z.log2_spec (Zpos m) ltac:(lia)) as [Ha1 Ha2]. fold a in Ha1, Ha2.
  destruct (Z.log2_spec p Hp) as [Hb1 Hb2]. fold b in Hb1, Hb2.
  assert (Ha0 : 0 <= a) by apply Z.log2_nonneg.
  assert (Hb0 : 0 <= b) by apply Z.log2_nonneg.
  replace (Z.succ a) with (a + 1) in Ha2 by lia.
  replace (Z.succ b) with (b + 1) in Hb2 by lia.
  rewrite pow2_succ in Ha2, Hb2 by lia.
  (* 2^a * 2^max(0,-e) = 2^b * 2^max(0,e) when e = a - b *)
  assert (Hbal : forall e, e = a - b ->
            2 ^ a * 2 ^ Z.max 0 (- e) = 2 ^ b * 2 ^ Z.max 0 e).
  { intros e ->. rewrite <- !Z.pow_add_r by lia. f_equal. lia. }
  pose proof (pow2_max_pos (a - b)) as P1.
  pose proof (pow2_max_pos (- (a - b))) as P2.
  pose proof (Hbal (a - b) eq_refl) as Hb'.
  destruct (Z.leb_spec (p * 2 ^ Z.max 0 (a - b))
              (Zpos m * 2 ^ Z.max 0 (- (a - b)))) as [Ht|Ht].
  - split; [exact Ht|]. nia.
  - pose proof (pow2_max_pos (a - b - 1)) as P3.
    pose proof (pow2_max_pos (- (a - b - 1))) as P4.
    destruct (max_step (a - b - 1)) as [(E1 & E2 & _)|(E1 & E2 & _)];
      replace (a - b - 1 + 1) with (a - b) in E1, E2 by lia;
      rewrite ?E1, ?E2 in *; split; nia.
Qed.

Lemma leading_bits_range m p e :
  0 < m -> 0 < p -> in_binade m p e ->
  let num := m * 2 ^ Z.max 0 (53 - e) in
  let den := p * 2 ^ Z.max 0 (e - 53) in
  0 < den /\ den * 2 ^ 53 <= num /\ num < den * (2 * 2 ^ 53).
Proof.
  intros Hm Hp [H1 H2] num den. subst num den.
  set (T := 2 ^ 53) in *. assert (HT : 0 < T) by (subst T; lia).
  pose proof (pow2_max_pos (53 - e)) as P1.
  pose proof (pow2_max_pos (e - 53)) as P2.
  pose proof (pow2_max_pos e) as P3.
  pose proof (pow2_max_pos (- e)) as P4.
  destruct (Z.le_gt_cases e 0) as [He|He].
  - rewrite (Z.max_l 0 (e - 53)), (Z.max_r 0 (53 - e)) in * by lia.
    rewrite (Z.max_l 0 e), (Z.max_r 0 (- e)) in * by lia.
    replace (53 - e) with (- e + 53) in * by lia.
    rewrite Z.pow_add_r in * by lia. fold T in P1 |- *.
    change (2 ^ 0) with 1 in *. nia.
  - destruct (Z.le_gt_cases e 53) as [He'|He'].
    + rewrite (Z.max_l 0 (e - 53)), (Z.max_r 0 (53 - e)) in * by lia.
      rewrite (Z.max_r 0 e), (Z.max_l 0 (- e)) in * by lia.
      assert (E : 2 ^ e * 2 ^ (53 - e) = T).
      { rewrite <- Z.pow_add_r by lia. subst T. f_equal. lia. }
      change (2 ^ 0) with 1 in *. nia.
    + rewrite (Z.max_r 0 (e - 53)), (Z.max_l 0 (53 - e)) in * by lia.
      rewrite (Z.max_r 0 e), (Z.max_l 0 (- e)) in * by lia.
      assert (E : 2 ^ (e - 53) * T = 2 ^ e).
      { subst T. rewrite <- Z.pow_add_r by lia. f_equal. lia. }
      change (2 ^ 0) with 1 in *. nia.
Qed.

(** Rounding the 54 leading bits to nearest, ties to even. *)
Lemma round_leading_bits num den :
  0 < den -> den * 2 ^ 53 <= num -> num < den * (2 * 2 ^ 53) ->
  let q := num / den in
  let mant := q / 2 in
  let away := round_away (Z.odd mant) (Z.odd q) (negb (num mod den =? 0)) in
  let rounded := if away then mant + 1 else mant in
  2 ^ 52 <= rounded <= 2 ^ 53 /\
  Z.abs (num - 2 * rounded * den) <= den /\
  (Z.abs (num - 2 * rounded * den) = den -> Z.even rounded = true).
Proof.
  intros Hden Hlo Hhi q mant away rounded.
  pose proof (Z.div_mod num den ltac:(lia)) as Hdm.
  pose proof (Z.mod_pos_bound num den Hden) as Hr.
  fold q in Hdm. set (r := num mod den) in *.
  assert (Hq : 2 ^ 53 <= q < 2 * 2 ^ 53).
  { split.
    - apply Z.div_le_lower_bound; lia.
    - apply Z.div_lt_upper_bound; lia. }
  pose proof (Z.div2_odd q) as Hodd. rewrite Z.div2_div in Hodd.
  fold mant in Hodd.
  assert (Hev : forall z, Z.even z = negb (Z.odd z))
    by (intros z; rewrite <- Z.negb_even, negb_involutive; reflexivity).
  subst rounded away. unfold round_away.
  clearbody mant r q.
  assert (H53 : 2 ^ 53 = 2 * 2 ^ 52) by reflexivity.
  set (T := 2 ^ 52) in *. assert (HT : 0 < T) by (subst T; lia).
  rewrite H53 in *. clearbody T.
  destruct (Z.odd q) eqn:Eq; cbn [Z.b2z andb orb negb] in Hodd |- *.
  - destruct (Z.eqb_spec r 0) as [Hr0|Hr0]; cbn [negb orb].
    + destruct (Z.odd mant) eqn:Em.
      * replace (num - 2 * (mant + 1) * den) with (- den)
          by (subst num q r; ring).
        rewrite Z.abs_opp, Z.abs_eq by lia.
        split; [lia|]. split; [lia|]. intros _.
        rewrite Hev, Z.odd_add, Em. reflexivity.
      * replace (num - 2 * mant * den) with den by (subst num q r; ring).
        rewrite Z.abs_eq by lia.
        split; [lia|]. split; [lia|]. intros _.
        rewrite Hev, Em. reflexivity.
    + replace (num - 2 * (mant + 1) * den) with (- (den - r))
        by (subst num q; ring).
      rewrite Z.abs_opp, Z.abs_eq by lia.
      split; [lia|]. split; [lia|]. intros H. exfalso. lia.
  - replace (num - 2 * mant * den) with r by (subst num q; ring).
    rewrite Z.abs_eq by lia.
    split; [lia|]. split; [lia|]. intros H. exfalso. lia.
Qed.

(** From the 54-bit scale to the exponent of the mantissa. *)
Lemma nearest_of_scaled m p rounded y :
  0 < p ->
  let dist :=
    Z.abs (m * 2 ^ Z.max 0 (- y) - 2 * rounded * (p * 2 ^ Z.max 0 y)) in
  (dist <= p * 2 ^ Z.max 0 y -> nearest m p rounded (y + 1)) /\
  (halfway m p rounded (y + 1) -> dist = p * 2 ^ Z.max 0 y).
Proof.
  intros Hp dist. subst dist. unfold nearest, halfway.
  pose proof (pow2_max_pos y) as P1. pose proof (pow2_max_pos (- y)) as P2.
  pose proof (pow2_max_pos (- (y + 1))) as P3.
  destruct (max_step y) as [(E1 & E2 & _)|(E1 & E2 & _)];
    rewrite ?E1, ?E2 in *; split; intros H; nia.
Qed.

Lemma nearest_carry m p h x :
  0 < p -> nearest m p (2 * h) x -> nearest m p h (x + 1).
Proof.
  unfold nearest. intros Hp H.
  pose proof (pow2_max_pos x) as P1. pose proof (pow2_max_pos (- x)) as P2.
  pose proof (pow2_max_pos (- (x + 1))) as P3.
  destruct (max_step x) as [(E1 & E2 & _)|(E1 & E2 & _)];
    rewrite ?E1, ?E2 in *; nia.
Qed.

(** In the normal range [strtod_bits] returns the 53-bit mantissa and
    the exponent of a double nearest to the decimal, the even one of two,
    unless that is [2^1024] or more. *)
Lemma strtod_bits_normal m k :
  0 <= k -> -1022 <= binade m k ->
  match strtod_bits m k with
  | Some (mant, x) =>
      2 ^ 52 <= mant < 2 ^ 53 /\ -1074 <= x <= 971 /\
      nearest (Zpos m) (10 ^ k) mant x /\
      (halfway (Zpos m) (10 ^ k) mant x -> Z.even mant = true)
  | None => 1023 <= binade m k
  end.
Proof.
  intros Hk He. unfold strtod_bits.
  pose proof (binade_spec m k Hk) as Hb.
  set (e := binade m k) in *. set (p := 10 ^ k) in *.
  assert (Hp : 0 < p) by (apply Z.pow_pos_nonneg; lia).
  destruct (leading_bits_range (Zpos m) p e ltac:(lia) Hp Hb)
    as (Hden & Hlo & Hhi).
  pose proof (round_leading_bits _ _ Hden Hlo Hhi) as Hround.
  cbv zeta in Hround. unfold leading_bits. cbn [mantissa round_bit more_bits].
  fold p.
  set (num := Z.pos m * 2 ^ Z.max 0 (53 - e)) in *.
  set (den := p * 2 ^ Z.max 0 (e - 53)) in *.
  set (rounded := if round_away _ _ _ then _ else _) in *.
  destruct Hround as (Hr & Hnear & Htie).
  destruct (Z.leb_spec (-1022) e) as [_|]; [|lia].
  destruct (nearest_of_scaled (Zpos m) p rounded (e - 53) Hp)
    as [Hn Hh].
  replace (- (e - 53)) with (53 - e) in Hn, Hh by lia.
  cbv zeta in Hn, Hh. fold num den in Hn, Hh.
  replace (e - 53 + 1) with (e - 52) in Hn, Hh by lia.
  specialize (Hn Hnear).
  destruct (Z.eqb_spec rounded (2 ^ 53)) as [E|E].
  - destruct (Z.leb_spec 1024 (e + 1)) as [Ho|Ho]; [lia|].
    split; [lia|]. split; [lia|]. split; [|reflexivity].
    replace (e + 1 - 52) with (e - 52 + 1) by lia.
    apply nearest_carry; [exact Hp|].
    change (2 * 2 ^ 52) with (2 ^ 53). rewrite <- E. exact Hn.
  - destruct (Z.leb_spec 1024 e) as [Ho|Ho]; [lia|].
    split; [lia|]. split; [lia|]. split; [exact Hn|].
    intros H. apply Htie, Hh, H.
Qed.

Lemma digits2_pos_size p : digits2_pos p = Pos.size p.
Proof. induction p; simpl; congruence. Qed.

Lemma size_log2 p : Zpos (Pos.size p) = Z.log2 (Zpos p) + 1.
Proof. destruct p; simpl; lia. Qed.

Lemma double_spec mant x :
  2 ^ 52 <= mant < 2 ^ 53 -> -1074 <= x <= 971 ->
  Prim2SF (double mant x) = S754_finite false (Z.to_pos mant) x.
Proof.
  intros Hm Hx. unfold double. apply Prim2SF_SF2Prim.
  unfold valid_binary, bounded, canonical_mantissa, fexp.
  rewrite digits2_pos_size, size_log2, Z2Pos.id by lia.
  rewrite (Z.log2_unique mant 52) by (change (2 ^ (52 + 1)) with (2 ^ 53); lia).
  apply andb_true_intro. split.
  - apply Z.eqb_eq. unfold prec, emin, emax. lia.
  - apply Z.leb_le. unfold prec, emax. lia.
Qed.

End Rounding.

(** C10.  Where the unread input starts with a digit or a dot, the lexer
    returns one NUMBER token holding the longest run of digits and dots,
    however many dots there are.  The parser hands the text of every
    NUMBER token to [stod] before it reads on, and [stod] converts the
    longest prefix of the form digits, dot, digits and ignores the rest:
    on such a text, whatever follows the fraction digits, it returns the
    value of the numeral made of the integer and the fraction digits
    ([numeral_value]: no conversion without a digit, zero for zero
    digits, and what [strtod] makes of the decimal otherwise), and on
    digits alone the value of these.  So a line that holds, between
    blanks, one run of digits and dots evaluates to the value of its
    leading numeral, and a conversion that throws is the error of the
    line, whatever follows the token.  For a decimal in the normal range
    [strtod] returns the double with a 53-bit mantissa that is nearest
    to it, the one with the even mantissa of two, or sets ERANGE when
    that is [2^1024] or more; the examples show the rounding at ties,
    the overflow threshold and the underflow reports around [2^-1022]
    and [2^-1074].  In particular [1.2.3] is one token and evaluates to
    1.2 (the double nearest to it), as [1.2] does. *)
Theorem dotted_number_prefix :
  (forall input ch rest,
     skip_spaces input = String ch rest -> is_num_char ch = true ->
     let run := take_run is_num_char (String ch rest) in
     getNextToken input = Ok (mkToken NUMBER (fst run), snd run) /\
     String ch rest = fst run +:+ snd run /\
     all_chars is_num_char (fst run) = true /\
     starts_with is_num_char (snd run) = false) /\
  (forall int_part frac_part tail,
     all_chars isdigit int_part = true ->
     all_chars isdigit frac_part = true ->
     starts_with isdigit tail = false ->
     stod (int_part +:+ "." +:+ frac_part +:+ tail)
     = stod (int_part +:+ "." +:+ frac_part)) /\
  getNextToken "1.2.3" = Ok (mkToken NUMBER "1.2.3", EmptyString) /\
  stod "1.2.3" = Ok 0x1.3333333333333p+0%float /\
  (forall libm seq vars,
     calculate libm seq "1.2.3" vars = (vars, Ok 0x1.3333333333333p+0%float) /\
     calculate libm seq "1.2.3" vars = calculate libm seq "1.2" vars /\
     calculate libm seq "Ans = 1.2.3" vars
       = (<["Ans" := 0x1.3333333333333p+0%float]> vars,
          Ok 0x1.3333333333333p+0%float)) /\
  (forall int_part frac_part tail,
     all_chars isdigit int_part = true ->
     all_chars isdigit frac_part = true ->
     starts_with isdigit tail = false ->
     stod (int_part +:+ "." +:+ frac_part +:+ tail)
     = numeral_value int_part frac_part) /\
  (forall int_part tail,
     all_chars isdigit int_part = true ->
     starts_with is_num_char tail = false ->
     stod (int_part +:+ tail) = numeral_value int_part EmptyString) /\
  (forall n p,
     type (curtToken p) = NUMBER ->
     parseFactor (S n) p
     = (v ← stod (value (curtToken p));
        p' ← consume NUMBER p;
        Ok (NumberNode v, p'))) /\
  (forall libm seq vars blanks text rest e,
     all_chars isspace blanks = true ->
     text <> EmptyString -> all_chars is_num_char text = true ->
     starts_with is_num_char rest = false ->
     stod text = Throw e ->
     calculate libm seq (blanks +:+ text +:+ rest) vars = (vars, Throw e)) /\
  (forall libm seq vars blanks int_part frac_part tail blanks',
     all_chars isspace blanks = true ->
     all_chars isdigit int_part = true ->
     all_chars isdigit frac_part = true ->
     all_chars is_num_char tail = true ->
     starts_with isdigit tail = false ->
     all_chars isspace blanks' = true ->
     calculate libm seq
       (blanks +:+ (int_part +:+ "." +:+ frac_part +:+ tail) +:+ blanks') vars
     = (vars, numeral_value int_part frac_part)) /\
  (forall libm seq vars blanks int_part blanks',
     all_chars isspace blanks = true ->
     int_part <> EmptyString -> all_chars isdigit int_part = true ->
     all_chars isspace blanks' = true ->
     calculate libm seq (blanks +:+ int_part +:+ blanks') vars
     = (vars, numeral_value int_part EmptyString)) /\
  (forall m k,
     (0 <= k)%Z -> in_binade (Zpos m) (10 ^ k) (binade m k)) /\
  (forall m k,
     (0 <= k)%Z -> (-1022 <= binade m k)%Z ->
     match strtod_bits m k with
     | Some (mant, x) =>
         (2 ^ 52 <= mant < 2 ^ 53)%Z /\ (-1074 <= x <= 971)%Z /\
         nearest (Zpos m) (10 ^ k) mant x /\
         (halfway (Zpos m) (10 ^ k) mant x -> Z.even mant = true) /\
         Prim2SF (double mant x) = S754_finite false (Z.to_pos mant) x /\
         strtod m k = Some (double mant x)
     | None => (1023 <= binade m k)%Z /\ strtod m k = None
     end) /\
  (stod "0.1" = Ok 0x1.999999999999ap-4%float /\
   stod ".5.5" = Ok 0x1p-1%float /\
   stod "007.50.1" = Ok 0x1.ep+2%float /\
   stod "1..5" = Ok 1%float /\
   stod "5." = Ok 5%float /\
   stod "0.00.1" = Ok 0%float /\
   stod ".." = Throw (invalid_argument "stod") /\
   stod "9007199254740993" = Ok 0x1p+53%float /\
   stod "9007199254740995" = Ok 0x1.0000000000002p+53%float) /\
  (strtod_bits (Z.to_pos (2 ^ 1024 - 2 ^ 971)) 0 = Some (2 ^ 53 - 1, 971)%Z /\
   strtod_bits (Z.to_pos (2 ^ 1024 - 2 ^ 970 - 1)) 0
   = Some (2 ^ 53 - 1, 971)%Z /\
   strtod_bits (Z.to_pos (2 ^ 1024 - 2 ^ 970)) 0 = None /\
   strtod_bits (Z.to_pos (10 ^ 309)) 0 = None /\
   strtod_bits (Z.to_pos ((2 ^ 54 - 1) * 5 ^ 1076)) 1076
   = Some (2 ^ 52, -1074)%Z /\
   strtod_bits (Z.to_pos ((2 ^ 54 - 2) * 5 ^ 1076)) 1076 = None /\
   strtod_bits (Z.to_pos ((2 ^ 54 - 3) * 5 ^ 1076)) 1076
   = Some (2 ^ 52 - 1, -1074)%Z /\
   strtod_bits (Z.to_pos ((2 ^ 54 - 4) * 5 ^ 1076)) 1076
   = Some (2 ^ 52 - 1, -1074)%Z /\
   strtod_bits (Z.to_pos ((2 ^ 54 - 5) * 5 ^ 1076)) 1076 = None /\
   strtod_bits (Z.to_pos (5 ^ 1074)) 1074 = Some (1, -1074)%Z /\
   strtod_bits (Z.to_pos (5 ^ 1075)) 1075 = None).
Proof.
  repeat apply conj.
  - intros input ch rest Hs Hch run. split.
    + apply getNextToken_number; assumption.
    + apply take_run_spec.
  - apply stod_ignores_tail.
  - reflexivity.
  - vm_compute. reflexivity.
  - intros libm seq vars. repeat split; vm_compute; reflexivity.
  - apply stod_fraction.
  - apply stod_integer.
  - intros n p Hp. rewrite parseFactor_S, Hp. reflexivity.
  - intros libm seq vars blanks text rest e Hb Hne Htext Hrest He.
    unfold calculate.
    rewrite (proj1 (parse_number _ _ _ Hb Hne Htext Hrest) e He).
    reflexivity.
  - intros libm seq vars blanks int_part frac_part tail blanks'
      Hb Hint Hfrac Htail Hd Hb'.
    set (text := int_part +:+ "." +:+ frac_part +:+ tail).
    assert (Hne : text <> EmptyString).
    { unfold text. destruct int_part; discriminate. }
    assert (Htext : all_chars is_num_char text = true).
    { unfold text.
      change ("." +:+ frac_part +:+ tail)
        with (String "." EmptyString +:+ frac_part +:+ tail).
      rewrite !all_chars_append, Htail, (all_digits_num_chars _ Hint),
        (all_digits_num_chars _ Hfrac). reflexivity. }
    pose proof (blanks_start_no_number _ Hb') as Hrest.
    pose proof (stod_fraction _ _ _ Hint Hfrac Hd) as Hstod.
    fold text in Hstod.
    destruct (parse_number blanks text blanks' Hb Hne Htext Hrest)
      as [Hthrow Hok].
    unfold calculate.
    destruct (stod text) as [v|e|] eqn:Ev.
    + rewrite (Hok v eq_refl Hb'), <- Hstod. reflexivity.
    + rewrite (Hthrow e eq_refl), <- Hstod. reflexivity.
    + exfalso. exact (stod_not_OutOfFuel text Ev).
  - intros libm seq vars blanks int_part blanks' Hb Hne Hint Hb'.
    pose proof (all_digits_num_chars _ Hint) as Htext.
    pose proof (blanks_start_no_number _ Hb') as Hrest.
    pose proof (stod_integer int_part EmptyString Hint eq_refl) as Hstod.
    rewrite append_empty_r in Hstod.
    destruct (parse_number blanks int_part blanks' Hb Hne Htext Hrest)
      as [Hthrow Hok].
    unfold calculate.
    destruct (stod int_part) as [v|e|] eqn:Ev.
    + rewrite (Hok v eq_refl Hb'), <- Hstod. reflexivity.
    + rewrite (Hthrow e eq_refl), <- Hstod. reflexivity.
    + exfalso. exact (stod_not_OutOfFuel int_part Ev).
  - apply binade_spec.
  - intros m k Hk He. pose proof (strtod_bits_normal m k Hk He) as H.
    unfold strtod. destruct (strtod_bits m k) as [[mant x]|].
    + destruct H as (H1 & H2 & H3 & H4).
      split; [exact H1|]. split; [exact H2|]. split; [exact H3|].
      split; [exact H4|]. split; [|reflexivity].
      apply double_spec; assumption.
    + split; [exact H|reflexivity].
  - vm_compute. reflexivity.
  - vm_compute. reflexivity.
  - vm_compute. reflexivity.
  - vm_compute. reflexivity.
  - vm_compute. reflexivity.
  - vm_compute. reflexivity.
  - vm_compute. reflexivity.
  - vm_compute. reflexivity.
  - vm_compute. reflexivity.
  - vm_compute. reflexivity.
  - vm_compute. reflexivity.
  - vm_compute. reflexivity.
  - vm_compute. reflexivity.
  - vm_compute. reflexivity.
  - vm_compute. reflexivity.
  - vm_compute. reflexivity.
  - vm_compute. reflexivity.
  - vm_compute. reflexivity.
  - vm_compute. reflexivity.
  - vm_compute. reflexivity.
Qed.

Lemma dotted_number_prefix_witness :
  stod ("1" +:+ "." +:+ "2" +:+ ".3") = stod ("1" +:+ "." +:+ "2").
Proof.
  apply (proj1 (proj2 dotted_number_prefix) "1" "2" ".3"); reflexivity.
Defined.
